(** * Hakoniwa: terrain and water simulation

    A shallow embedding of the simulation core of the hakoniwa repository
    (grid utilities, water flow solver and its diagnostics, terrain brush
    and slope, terrain generator, climate state, the simulation loop with
    rainfall, humidity and source toggling, saving and loading of worlds)
    together with the properties its specification states about them and
    further laws read off the code.

    Numbers.  The program computes with JavaScript numbers (IEEE 754
    doubles) and stores the two grids in [Float32Array]s.  The embedding
    reads the code twice.

    - The exact reading (modules [Water], [Terrain], [Climate], [World],
      [Simulation], ...) computes with rationals ([Q]): it is the
      algorithm without rounding, overflow and the infinities.  Where the
      code can divide zero by zero (the terrain generator on a one-cell
      grid) the number type is extended with [NaN].  A statement proved
      on this reading says so.

    - The machine reading (modules [Double] and [Machine]) computes with
      doubles and rounds every store into a [Float32Array] to float32, as
      the code does.  What rounding, overflow and [NaN] change is stated
      and proved on this reading.

    Persistence works on JSON values whose numbers are finite doubles,
    the infinities or [NaN], with the product, the comparison and the
    float32 rounding of the machine. *)

From Stdlib Require Import String.
From Stdlib Require Import QArith Qround Qminmax Qabs ZArith List Bool Lia Lqa.
From Stdlib Require Floats.
Import ListNotations.
Open Scope Q_scope.

(** ** Comparisons and array primitives *)

(** [a > b] and [a < b] on numbers, as booleans. *)
Definition Qgtb (a b : Q) : bool := negb (Qle_bool a b).
Definition Qltb (a b : Q) : bool := negb (Qle_bool b a).

(** [for (let i = 0; i < n; i += 1)]: the values the loop variable takes. *)
Definition range (n : Z) : list Z := map Z.of_nat (seq 0 (Z.to_nat n)).

(** [for (let i = lo; i <= hi; i += 1)]. *)
Definition rangeFrom (lo hi : Z) : list Z :=
  map (fun k => (lo + Z.of_nat k)%Z) (seq 0 (Z.to_nat (hi - lo + 1))).

(** Typed-array element update: a write outside the array is dropped. *)
Fixpoint upd {A : Type} (n : nat) (v : A) (l : list A) : list A :=
  match l, n with
  | [], _ => []
  | _ :: t, O => v :: t
  | h :: t, S k => h :: upd k v t
  end.

(** [a[i]].  Every read the embedded functions make is inside the array
    when the state is well formed; outside it the model reads 0. *)
Definition aget (a : list Q) (i : Z) : Q :=
  if (i <? 0)%Z then 0 else nth (Z.to_nat i) a 0.

(** [a[i] = v]. *)
Definition aset (a : list Q) (i : Z) (v : Q) : list Q :=
  if (i <? 0)%Z then a else upd (Z.to_nat i) v a.

(** Sum of an array, accumulated from the left as [totalWater] does. *)
Definition sumQ (l : list Q) : Q := fold_left Qplus l 0.

(** ** Grid index utility (core/grid.ts) *)

Definition clamp (value min max : Q) : Q := Qmin max (Qmax min value).

Definition toIndex (size x y : Z) : Z := (y * size + x)%Z.

Definition inBounds (size x y : Z) : bool :=
  (0 <=? x)%Z && (x <? size)%Z && (0 <=? y)%Z && (y <? size)%Z.

(** [Math.round]: the nearest integer, ties towards +infinity. *)
Definition Math_round (q : Q) : Z := Qfloor (q + (1 # 2)).

(** ** Data model (core/types.ts) *)

Inductive ToolMode := raise | lower | flatten | waterSource.

Record BrushSettings := mkBrush {
  radius : Q;
  strength : Q;
  flattenHeight : Q
}.

Record WaterSource := mkSource {
  id : string;
  src_x : Q;
  src_y : Q;
  rate : Q;
  active : bool
}.

(** The two grids are arrays of [A]; the simulation works at [A := Q]. *)
Record WorldState (A : Type) := mkWorld {
  version : Z;
  size : Z;
  terrainSeed : Q;
  terrain : list A;
  water : list A;
  sources : list WaterSource;
  vegetationSeed : Q;
  time : Q
}.
Arguments mkWorld {A}.
Arguments version {A}.
Arguments size {A}.
Arguments terrainSeed {A}.
Arguments terrain {A}.
Arguments water {A}.
Arguments sources {A}.
Arguments vegetationSeed {A}.
Arguments time {A}.

(** [seepage] and [edgeDrain] are optional fields. *)
Record SimParams := mkParams {
  dt : Q;
  flowRate : Q;
  damping : Q;
  evaporation : Q;
  seepage : option Q;
  edgeDrain : option Q
}.

(** [value ?? 0] *)
Definition orZero (v : option Q) : Q :=
  match v with Some q => q | None => 0 end.

(** In-place assignment of the water array. *)
Definition set_water {A} (s : WorldState A) (w : list A) : WorldState A :=
  mkWorld (version s) (size s) (terrainSeed s) (terrain s) w (sources s)
          (vegetationSeed s) (time s).

Definition set_terrain {A} (s : WorldState A) (t : list A) : WorldState A :=
  mkWorld (version s) (size s) (terrainSeed s) t (water s) (sources s)
          (vegetationSeed s) (time s).

(** The invariant of the data model on the array lengths. *)
Definition well_formed {A} (s : WorldState A) : Prop :=
  (0 <= size s)%Z /\
  Z.of_nat (length (terrain s)) = (size s * size s)%Z /\
  Z.of_nat (length (water s)) = (size s * size s)%Z.

(** ** Cells, invariants and frames used in the statements *)

(** The cells of a grid, in the order the loops visit them: [(y, x)]. *)
Definition cells (size : Z) : list (Z * Z) := list_prod (range size) (range size).

Definition cellIndex (size : Z) (c : Z * Z) : Z := toIndex size (snd c) (fst c).

(** Water that is nowhere negative. *)
Definition nonneg (w : list Q) : Prop := Forall (fun v => 0 <= v) w.

(** The fields of a state other than [water]. *)
Definition same_frame (s s' : WorldState Q) : Prop :=
  version s' = version s /\ size s' = size s /\
  terrainSeed s' = terrainSeed s /\ terrain s' = terrain s /\
  sources s' = sources s /\ vegetationSeed s' = vegetationSeed s /\
  time s' = time s.

(** ** Water flow solver (core/water.ts)

    The exact reading: the arrays hold rationals and no store rounds.
    [Machine.stepWater] is the same function on float32 cells. *)

Module Water.

(** The module-level [scratchByLength] map: array length to scratch array. *)
Definition Scratch := nat -> option (list Q).

Definition scratch_set (c : Scratch) (n : nat) (a : list Q) : Scratch :=
  fun k => if Nat.eqb k n then Some a else c k.

(** [getScratch]: the cached array of that length, zero-filled, or a new
    array of zeros that is entered in the cache. *)
Definition getScratch (c : Scratch) (length : nat) : list Q * Scratch :=
  match c length with
  | Some existing => let filled := map (fun _ => 0) existing in
                     (filled, scratch_set c length filled)
  | None => let created := repeat 0 length in
            (created, scratch_set c length created)
  end.

(** One iteration of the loop over [state.sources]. *)
Definition injectSource (dt : Q) (state : WorldState Q) (source : WaterSource)
  : WorldState Q :=
  if negb (active source) then state
  else
    let sx := Math_round (src_x source) in
    let sy := Math_round (src_y source) in
    if negb (inBounds (size state) sx sy) then state
    else
      let sourceIndex := toIndex (size state) sx sy in
      set_water state
        (aset (water state) sourceIndex
              (aget (water state) sourceIndex + Qmax 0 (rate source) * dt)).

(** The potential towards one neighbour: [diff * flowRate * dt] when the
    neighbour's surface is lower, 0 otherwise. *)
Definition potentialTo (state : WorldState Q) (totalHeight : Q)
           (neighbour : Z) (flowRate dt : Q) : Q :=
  let diff := totalHeight - (aget (terrain state) neighbour
                             + aget (water state) neighbour) in
  if Qgtb diff 0 then diff * flowRate * dt else 0.

(** [if (potential > 0 && neighbour >= 0) { delta[index] -= amount;
    delta[neighbour] += amount }] *)
Definition transfer (delta : list Q) (index neighbour : Z)
           (potential scale : Q) : list Q :=
  if Qgtb potential 0 && (0 <=? neighbour)%Z then
    let amount := potential * scale in
    let delta1 := aset delta index (aget delta index - amount) in
    aset delta1 neighbour (aget delta1 neighbour + amount)
  else delta.

(** The body of the outflow loop at cell [(x, y)]. *)
Definition flowCell (state : WorldState Q) (flowRate dt : Q)
           (y : Z) (delta : list Q) (x : Z) : list Q :=
  let index := toIndex (size state) x y in
  let currentWater := aget (water state) index in
  if Qle_bool currentWater 0 then delta
  else
    let totalHeight := aget (terrain state) index + currentWater in
    let rightIndex :=
      if (x + 1 <? size state)%Z then toIndex (size state) (x + 1) y else (-1)%Z in
    let rightPotential :=
      if (x + 1 <? size state)%Z
      then potentialTo state totalHeight rightIndex flowRate dt else 0 in
    let leftIndex :=
      if (0 <=? x - 1)%Z then toIndex (size state) (x - 1) y else (-1)%Z in
    let leftPotential :=
      if (0 <=? x - 1)%Z
      then potentialTo state totalHeight leftIndex flowRate dt else 0 in
    let upIndex :=
      if (y + 1 <? size state)%Z then toIndex (size state) x (y + 1) else (-1)%Z in
    let upPotential :=
      if (y + 1 <? size state)%Z
      then potentialTo state totalHeight upIndex flowRate dt else 0 in
    let downIndex :=
      if (0 <=? y - 1)%Z then toIndex (size state) x (y - 1) else (-1)%Z in
    let downPotential :=
      if (0 <=? y - 1)%Z
      then potentialTo state totalHeight downIndex flowRate dt else 0 in
    let totalPotential :=
      rightPotential + leftPotential + upPotential + downPotential in
    if Qle_bool totalPotential 0 then delta
    else
      let scale := Qmin 1 (currentWater / totalPotential) in
      let delta := transfer delta index rightIndex rightPotential scale in
      let delta := transfer delta index leftIndex leftPotential scale in
      let delta := transfer delta index upIndex upPotential scale in
      transfer delta index downIndex downPotential scale.

(** The outflow pass: rows outside, columns inside. *)
Definition flowPass (state : WorldState Q) (flowRate dt : Q)
           (delta : list Q) : list Q :=
  fold_left
    (fun delta y => fold_left (flowCell state flowRate dt y)
                              (range (size state)) delta)
    (range (size state)) delta.

(** The body of the loss loop at cell [(x, y)]; [guarded] tells whether
    the edge drain is subtracted only when [next > 0], as the code does. *)
Definition lossCell (guarded : bool) (size : Z) (delta : list Q)
           (dampingFactor evaporationLoss seepage edgeDrain dt : Q)
           (y : Z) (water : list Q) (x : Z) : list Q :=
  let index := toIndex size x y in
  let withFlow := aget water index + aget delta index in
  let seepLoss := withFlow * seepage * dt in
  let next := withFlow * dampingFactor - evaporationLoss - seepLoss in
  let isEdge := (x =? 0)%Z || (y =? 0)%Z || (x =? size - 1)%Z || (y =? size - 1)%Z in
  let next :=
    if isEdge && (if guarded then Qgtb next 0 else true)
    then next - edgeDrain * dt else next in
  aset water index (Qmax 0 next).

Definition lossPass (guarded : bool) (size : Z) (delta : list Q)
           (dampingFactor evaporationLoss seepage edgeDrain dt : Q)
           (water : list Q) : list Q :=
  fold_left
    (fun water y =>
       fold_left (lossCell guarded size delta dampingFactor evaporationLoss
                           seepage edgeDrain dt y)
                 (range size) water)
    (range size) water.

(** [stepWater], with the edge-drain guard as a parameter.  The scratch
    array handed out by [getScratch] is the object the cache holds, so the
    cache ends up holding the deltas of this step. *)
Definition stepWaterWith (guarded : bool) (cache : Scratch)
           (state : WorldState Q) (params : SimParams)
  : WorldState Q * Scratch :=
  let dt := Qmax (1 # 10000) (dt params) in
  let flowRate := Qmax 0 (flowRate params) in
  let damping := Qmax 0 (damping params) in
  let evaporation := Qmax 0 (evaporation params) in
  let seepage := Qmax 0 (orZero (seepage params)) in
  let edgeDrain := Qmax 0 (orZero (edgeDrain params)) in
  let state := fold_left (injectSource dt) (sources state) state in
  let '(delta, cache) := getScratch cache (length (water state)) in
  let delta := flowPass state flowRate dt delta in
  let dampingFactor := clamp (1 - damping * dt) 0 1 in
  let evaporationLoss := evaporation * dt in
  (set_water state
     (lossPass guarded (size state) delta dampingFactor evaporationLoss
               seepage edgeDrain dt (water state)),
   scratch_set cache (length (water state)) delta).

(** [stepWater] as the code has it. *)
Definition stepWater := stepWaterWith true.

(** The variant the specification's open question describes: the edge
    drain subtracted on every border cell, the floor at 0 applied after. *)
Definition stepWater_unguarded := stepWaterWith false.

Definition totalWater (state : WorldState Q) : Q := sumQ (water state).

(** Repeated stepping with a parameter record per tick. *)
Fixpoint stepMany (cache : Scratch) (state : WorldState Q)
         (ticks : list SimParams) : WorldState Q * Scratch :=
  match ticks with
  | [] => (state, cache)
  | p :: rest => let '(s, c) := stepWater cache state p in stepMany c s rest
  end.

(** The four transfers of a cell, as a loop over its neighbours. *)
Definition transfers (index : Z) (scale : Q) (d : list Q)
           (nps : list (Z * Q)) : list Q :=
  fold_left (fun d np => transfer d index (fst np) (snd np) scale) nps d.

Definition sumPotentials (nps : list (Z * Q)) : Q := sumQ (map snd nps).

(** The value the loss pass writes to a cell that held [wk]. *)
Definition lossValue (guarded : bool) (size : Z) (delta : list Q)
           (dampingFactor evaporationLoss seepage edgeDrain dt : Q)
           (c : Z * Z) (wk : Q) : Q :=
  let y := fst c in
  let x := snd c in
  let withFlow := wk + aget delta (toIndex size x y) in
  let seepLoss := withFlow * seepage * dt in
  let next := withFlow * dampingFactor - evaporationLoss - seepLoss in
  let isEdge := (x =? 0)%Z || (y =? 0)%Z || (x =? size - 1)%Z || (y =? size - 1)%Z in
  Qmax 0 (if isEdge && (if guarded then Qgtb next 0 else true)
          then next - edgeDrain * dt else next).

(** Every cached array is stored under its own length. *)
Definition cache_ok (c : Scratch) : Prop :=
  forall n a, c n = Some a -> length a = n.

Definition emptyScratch : Scratch := fun _ => None.

(** Sample worlds and parameters. *)

(** A 2 x 2 world with water in two cells and no source. *)
Definition pond : WorldState Q :=
  mkWorld 1 2 0 [0; 1; 2 # 1; 1 # 2] [1; 0; 1 # 2; 0] [] 1 0.

(** Flow only: the four loss coefficients are zero. *)
Definition flowOnly : SimParams :=
  mkParams (1 # 30) (14 # 10) 0 0 None None.

(** A one-cell world with an active source on its only cell. *)
Definition spring : WorldState Q :=
  mkWorld 1 1 0 [0] [0] [mkSource "source-1" 0 0 1 true] 1 0.

Definition springCell : WaterSource := mkSource "source-1" 0 0 1 true.

(** No flow and no loss, with a tick [tick] seconds long. *)
Definition still (tick : Q) : SimParams :=
  mkParams tick 0 0 0 (Some 0) (Some 0).

End Water.

(** ** Terrain brush (core/terrain.ts)

    The exact reading; [Machine.applyBrush] is the same function on
    float32 cells. *)

Definition MIN_TERRAIN_HEIGHT : Q := -12.
Definition MAX_TERRAIN_HEIGHT : Q := 24.

Module Terrain.

(** The new height of a cell under a flatten stroke of influence [s]. *)
Definition flattenStep (target s h : Q) : Q :=
  clamp (h + (target - h) * s) MIN_TERRAIN_HEIGHT MAX_TERRAIN_HEIGHT.

Section Brush.

(** [Math.sqrt], left abstract. *)
Variable Math_sqrt : Q -> Q.

(** The body of the two loops of [applyBrush] at cell [(x, y)]. *)
Definition brushCell (size : Z) (cx cy radius strength : Q) (tool : ToolMode)
           (brush : BrushSettings) (y : Z) (terrain : list Q) (x : Z) : list Q :=
  let dx := inject_Z x - cx in
  let dy := inject_Z y - cy in
  let distance := Math_sqrt (dx * dx + dy * dy) in
  if Qgtb distance radius then terrain
  else
    let falloff := 1 - distance / radius in
    let influence := falloff * strength in
    let index := toIndex size x y in
    let current := aget terrain index in
    let next :=
      match tool with
      | raise => current + influence
      | lower => current - influence
      | flatten => current + (flattenHeight brush - current) * influence
      | waterSource => current
      end in
    aset terrain index (clamp next MIN_TERRAIN_HEIGHT MAX_TERRAIN_HEIGHT).

Definition applyBrush (state : WorldState Q) (cx cy : Q) (tool : ToolMode)
           (brush : BrushSettings) : WorldState Q :=
  match tool with
  | waterSource => state
  | _ =>
    let radius := Qmax 1 (radius brush) in
    let strength := clamp (strength brush) (1 # 100) 1 in
    let minX := Z.max 0 (Qfloor (cx - radius)) in
    let maxX := Z.min (size state - 1) (Qceiling (cx + radius)) in
    let minY := Z.max 0 (Qfloor (cy - radius)) in
    let maxY := Z.min (size state - 1) (Qceiling (cy + radius)) in
    set_terrain state
      (fold_left
         (fun terrain y =>
            fold_left (brushCell (size state) cx cy radius strength tool brush y)
                      (rangeFrom minX maxX) terrain)
         (rangeFrom minY maxY) (terrain state))
  end.

(** [n] flatten strokes with the same centre and the same settings. *)
Fixpoint strokes (n : nat) (state : WorldState Q) (cx cy : Q)
         (brush : BrushSettings) : WorldState Q :=
  match n with
  | O => state
  | S k => applyBrush (strokes k state cx cy brush) cx cy flatten brush
  end.

(** The value a stroke leaves in a cell that held [h]. *)
Definition brushValue (cx cy radius strength : Q) (tool : ToolMode)
           (brush : BrushSettings) (c : Z * Z) (h : Q) : Q :=
  let dx := inject_Z (snd c) - cx in
  let dy := inject_Z (fst c) - cy in
  let distance := Math_sqrt (dx * dx + dy * dy) in
  if Qgtb distance radius then h
  else
    let influence := (1 - distance / radius) * strength in
    clamp (match tool with
           | raise => h + influence
           | lower => h - influence
           | flatten => h + (flattenHeight brush - h) * influence
           | waterSource => h
           end) MIN_TERRAIN_HEIGHT MAX_TERRAIN_HEIGHT.

(** The height of the centre cell after [k] strokes. *)
Definition centreHeight (state : WorldState Q) (x0 y0 : Z)
           (brush : BrushSettings) (k : nat) : Q :=
  aget (terrain (strokes k state (inject_Z x0) (inject_Z y0) brush))
       (toIndex (size state) x0 y0).

End Brush.

(** An executable stand-in for [Math.sqrt]: the square root to six
    decimals, rounded down. *)
Definition sqrtApprox (q : Q) : Q :=
  inject_Z (Z.sqrt (Qfloor (q * 1000000000000))) / 1000000.

(** A one-cell world at the upper height bound. *)
Definition plateau : WorldState Q := mkWorld 1 1 0 [24] [0] [] 1 0.

(** A 3 x 3 world at height 10. *)
Definition mesa : WorldState Q :=
  mkWorld 1 3 0 [10; 10; 10; 10; 10; 10; 10; 10; 10]
          [0; 0; 0; 0; 0; 0; 0; 0; 0] [] 1 0.

End Terrain.

(** ** Climate state (main.ts)

    The exact reading; [Machine.createClimateState] is the same function
    on doubles. *)

Module Climate.

Record ClimateState := mkClimate {
  dayPhase : Q;
  daylight : Q;
  cloudiness : Q;
  rainIntensity : Q;
  windStrength : Q;
  windDirection : Q;
  windGustiness : Q
}.

Record WeatherOverride := mkWeather {
  weather_cloudiness : Q;
  weather_rainIntensity : Q
}.

Record WindOverride := mkWind {
  wind_strength : Q;
  wind_direction : Q;
  wind_gustiness : Q
}.

Definition saturate (value : Q) : Q := Qmax 0 (Qmin 1 value).

Definition smoothstep (edge0 edge1 value : Q) : Q :=
  if Qeq_bool edge0 edge1 then (if Qltb value edge0 then 0 else 1)
  else
    let t := saturate ((value - edge0) / (edge1 - edge0)) in
    t * t * (3 - 2 * t).

(** The remainder operator [%]: the sign of the dividend, the quotient
    truncated towards zero. *)
Definition Qrem (a b : Q) : Q :=
  let q := a / b in
  a - b * inject_Z (Z.quot (Qnum q) (Zpos (Qden q))).

Section ClimateState.

(** [Math.sin] and [Math.PI], left abstract. *)
Variable Math_sin : Q -> Q.
Variable Math_PI : Q.

Definition TAU : Q := Math_PI * 2.

(** Every number of the exact reading is finite, so the
    [Number.isFinite] test of the code always passes. *)
Definition wrapRadians (value : Q) : Q :=
  let wrapped := Qrem value TAU in
  if Qltb wrapped 0 then wrapped + TAU else wrapped.

Definition createClimateState (time seed dayPhase : Q)
           (weatherOverride : option WeatherOverride)
           (windOverride : option WindOverride) : ClimateState :=
  let wrappedDayPhase := dayPhase - inject_Z (Qfloor dayPhase) in
  let sunWave := Math_sin ((wrappedDayPhase - (25 # 100)) * TAU) in
  let daylight := saturate ((18 # 100) + Qmax 0 sunWave * (82 # 100)) in
  let cloudSignalA :=
    Math_sin (time * (12 # 1000) + seed * (17 # 100000)) * (5 # 10) + (5 # 10) in
  let cloudSignalB :=
    Math_sin (time * (45 # 10000) + seed * (43 # 100000)) * (5 # 10) + (5 # 10) in
  let cloudiness0 :=
    saturate ((1 # 10)
              + (cloudSignalA * (62 # 100) + cloudSignalB * (38 # 100)) * (78 # 100)) in
  let rainPulse :=
    Math_sin (time * (21 # 1000) + seed * (91 # 100000)) * (5 # 10) + (5 # 10) in
  let rainGate := smoothstep (6 # 10) (92 # 100) cloudiness0 in
  let rainIntensity0 := saturate (rainGate * ((14 # 100) + rainPulse * (62 # 100))) in
  let cloudiness :=
    match weatherOverride with
    | Some o => saturate (weather_cloudiness o)
    | None => cloudiness0
    end in
  let rainIntensity :=
    match weatherOverride with
    | Some o => saturate (weather_rainIntensity o)
    | None => rainIntensity0
    end in
  let windSignalA :=
    Math_sin (time * (95 # 10000) + seed * (31 # 100000)) * (5 # 10) + (5 # 10) in
  let windSignalB :=
    Math_sin (time * (17 # 1000) + seed * (73 # 100000) + cloudiness * (14 # 10))
    * (5 # 10) + (5 # 10) in
  let windSignalC :=
    Math_sin (time * (4 # 1000) + seed * (11 # 10000)) * (5 # 10) + (5 # 10) in
  let windStrength0 :=
    saturate ((18 # 100) + windSignalA * (46 # 100) + rainIntensity * (24 # 100)) in
  let windGustiness0 :=
    saturate ((15 # 100) + windSignalB * (54 # 100) + rainIntensity * (2 # 10)) in
  let windDirection0 :=
    wrapRadians (seed * (45 # 1000000)
                 + time * ((15 # 1000) + windStrength0 * (8 # 1000))
                 + (windSignalC - (5 # 10)) * (14 # 10)
                 + (windSignalB - (5 # 10)) * (55 # 100)) in
  let windStrength :=
    match windOverride with
    | Some o => saturate (wind_strength o)
    | None => windStrength0
    end in
  let windDirection :=
    match windOverride with
    | Some o => wrapRadians (wind_direction o)
    | None => windDirection0
    end in
  let windGustiness :=
    match windOverride with
    | Some o => saturate (wind_gustiness o)
    | None => windGustiness0
    end in
  mkClimate wrappedDayPhase daylight cloudiness rainIntensity
            windStrength windDirection windGustiness.

End ClimateState.

(** Executable stand-ins for [Math.sin] (the Taylor polynomial of degree
    three) and [Math.PI]. *)
Definition sinApprox (q : Q) : Q := q - q * q * q / 6.
Definition piApprox : Q := 355 # 113.

End Climate.

(** ** Terrain generation (core/world.ts) *)

Module World.

(** A number of the generator: a finite value, or the [NaN] that [0 / 0]
    produces.  Every operation gives [NaN] on a [NaN] operand and every
    comparison with [NaN] is false. *)
Inductive num := Fin (q : Q) | NaN.

Definition lift1 (f : Q -> Q) (a : num) : num :=
  match a with Fin x => Fin (f x) | NaN => NaN end.

Definition lift2 (f : Q -> Q -> Q) (a b : num) : num :=
  match a, b with Fin x, Fin y => Fin (f x y) | _, _ => NaN end.

Definition nadd : num -> num -> num := lift2 Qplus.
Definition nsub : num -> num -> num := lift2 Qminus.
Definition nmul : num -> num -> num := lift2 Qmult.
Definition nneg : num -> num := lift1 Qopp.
Definition nabs : num -> num := lift1 Qabs.
Definition nfloor : num -> num := lift1 (fun q => inject_Z (Qfloor q)).
Definition nmax : num -> num -> num := lift2 Qmax.
Definition nmin : num -> num -> num := lift2 Qmin.

(** Division.  The one divisor of the generator that can be zero is
    [size - 1], and then the dividend is the coordinate 0 of the only
    cell: the quotient is [0 / 0], which is [NaN]. *)
Definition ndiv (a b : num) : num :=
  match a, b with
  | Fin x, Fin y => if Qeq_bool y 0 then NaN else Fin (x / y)
  | _, _ => NaN
  end.

(** [a > b] *)
Definition ngtb (a b : num) : bool :=
  match a, b with Fin x, Fin y => Qgtb x y | _, _ => false end.

(** Arrays of numbers: a read outside the array gives [undefined], which
    is [NaN] as soon as it is added to a number. *)
Definition nget (a : list num) (i : Z) : num :=
  if (i <? 0)%Z then NaN else nth (Z.to_nat i) a NaN.

Definition nset (a : list num) (i : Z) (v : num) : list num :=
  if (i <? 0)%Z then a else upd (Z.to_nat i) v a.

(** [clamp] of core/grid.ts on these numbers. *)
Definition nclamp (value min max : num) : num := nmin max (nmax min value).

(** [Number(rate.toFixed(2))]: two decimals, ties away from zero. *)
Definition toFixed2 (q : Q) : Q :=
  if Qltb q 0 then - (inject_Z (Qfloor (- q * 100 + (1 # 2))) / 100)
  else inject_Z (Qfloor (q * 100 + (1 # 2))) / 100.

(** A finite number within the height bounds. *)
Definition inRange (n : num) : Prop :=
  match n with
  | Fin h => MIN_TERRAIN_HEIGHT <= h <= MAX_TERRAIN_HEIGHT
  | NaN => False
  end.

(** A number that is not [NaN]. *)
Definition isFin (n : num) : Prop :=
  match n with Fin _ => True | NaN => False end.


Definition WORLD_VERSION : Z := 1.
Definition DEFAULT_WORLD_SIZE : Z := 128.

Section Generator.

(** The functions of [Math], left abstract, and [Math.random] as a step
    of a generator state. *)
Variables Math_sin Math_sqrt Math_exp : Q -> Q.
Variable Math_pow : Q -> Q -> Q.
Variable Math_PI : Q.
Variable RandomState : Type.
Variable Math_random : RandomState -> Q * RandomState.

Definition fract (value : num) : num := nsub value (nfloor value).

Definition hash2D (x y : num) (seed : Q) : num :=
  let value :=
    nmul (lift1 Math_sin
            (nadd (nadd (nmul x (Fin (1271 # 10))) (nmul y (Fin (3117 # 10))))
                  (Fin (seed * (137 # 100000)))))
         (Fin (437585453123 # 10000000)) in
  fract value.

Definition smoothstep (t : num) : num :=
  nmul (nmul t t) (nsub (Fin 3) (nmul (Fin 2) t)).

Definition valueNoise (x y : num) (seed : Q) : num :=
  let x0 := nfloor x in
  let y0 := nfloor y in
  let x1 := nadd x0 (Fin 1) in
  let y1 := nadd y0 (Fin 1) in
  let tx := nsub x x0 in
  let ty := nsub y y0 in
  let v00 := hash2D x0 y0 seed in
  let v10 := hash2D x1 y0 seed in
  let v01 := hash2D x0 y1 seed in
  let v11 := hash2D x1 y1 seed in
  let sx := smoothstep tx in
  let sy := smoothstep ty in
  let a := nadd v00 (nmul (nsub v10 v00) sx) in
  let b := nadd v01 (nmul (nsub v11 v01) sx) in
  nadd a (nmul (nsub b a) sy).

(** The loop variables of [fractalNoise]. *)
Record Octaves := mkOctaves {
  amplitude : Q;
  frequency : Q;
  total : num;
  weight : Q
}.

Definition fractalNoise (x y : num) (seed : Q) (octaves : Z)
           (lacunarity gain : Q) : num :=
  let final :=
    fold_left
      (fun (st : Octaves) (octave : Z) =>
         mkOctaves
           (amplitude st * gain)
           (frequency st * lacunarity)
           (nadd (total st)
                 (nmul (valueNoise (nmul x (Fin (frequency st)))
                                   (nmul y (Fin (frequency st)))
                                   (seed + inject_Z octave * 97))
                       (Fin (amplitude st))))
           (weight st + amplitude st))
      (range octaves) (mkOctaves 1 1 (Fin 0) 0) in
  if Qgtb (weight final) 0 then ndiv (total final) (Fin (weight final))
  else Fin 0.

(** The inner two loops of [smoothTerrain]: sum and count of the cells of
    the 3 x 3 neighbourhood that lie in the grid. *)
Definition neighbourhood (source : list num) (size x y : Z) : num * Z :=
  fold_left
    (fun acc oy =>
       fold_left
         (fun (acc : num * Z) ox =>
            let nx := (x + ox)%Z in
            let ny := (y + oy)%Z in
            if (nx <? 0)%Z || (size <=? nx)%Z || (ny <? 0)%Z || (size <=? ny)%Z
            then acc
            else (nadd (fst acc) (nget source (toIndex size nx ny)),
                  (snd acc + 1)%Z))
         (rangeFrom (-1) 1) acc)
    (rangeFrom (-1) 1) (Fin 0, 0%Z).

Definition smoothCell (source : list num) (size : Z) (blend : Q)
           (y : Z) (terrain : list num) (x : Z) : list num :=
  let index := toIndex size x y in
  let '(total, count) := neighbourhood source size x y in
  let average := ndiv total (Fin (inject_Z (Z.max 1 count))) in
  nset terrain index
       (nadd (nmul (nget source index) (Fin (1 - blend)))
             (nmul average (Fin blend))).

(** [smoothTerrain]: reads from a copy of the array, writes the array. *)
Definition smoothTerrain (terrain : list num) (size : Z) (blend : Q) : list num :=
  let source := terrain in
  fold_left
    (fun terrain y => fold_left (smoothCell source size blend y) (range size) terrain)
    (range size) terrain.

(** The height [generateBaseTerrain] computes for cell [(x, y)], before
    the clamp. *)
Definition heightAt (size : Z) (seed : Q) (x y : Z) : num :=
  let nx := ndiv (Fin (inject_Z x)) (Fin (inject_Z (size - 1))) in
  let ny := ndiv (Fin (inject_Z y)) (Fin (inject_Z (size - 1))) in
  let cx := nsub (nmul nx (Fin 2)) (Fin 1) in
  let cy := nsub (nmul ny (Fin 2)) (Fin 1) in
  let radial := lift1 Math_sqrt (nadd (nmul cx cx) (nmul cy cy)) in
  let macro :=
    fractalNoise (nadd (nmul nx (Fin (34 # 10))) (Fin (143 # 10)))
                 (nadd (nmul ny (Fin (34 # 10))) (Fin (89 # 10)))
                 seed 5 (208 # 100) (52 # 100) in
  let detail :=
    fractalNoise (nadd (nmul nx (Fin (188 # 10))) (Fin (711 # 10)))
                 (nadd (nmul ny (Fin (188 # 10))) (Fin (397 # 10)))
                 (seed + 999) 4 (22 # 10) (46 # 100) in
  let ridgeBase :=
    fractalNoise (nadd (nmul nx (Fin (57 # 10))) (Fin (27 # 10)))
                 (nadd (nmul ny (Fin (57 # 10))) (Fin (64 # 10)))
                 (seed + 313) 4 (203 # 100) (5 # 10) in
  let ridges := nsub (Fin 1) (nabs (nsub (nmul ridgeBase (Fin 2)) (Fin 1))) in
  let warp :=
    nmul (nsub (fractalNoise (nadd (nmul nx (Fin (72 # 10))) (Fin (111 # 10)))
                             (nadd (nmul ny (Fin (72 # 10))) (Fin (42 # 10)))
                             (seed + 1703) 3 2 (5 # 10))
               (Fin (5 # 10)))
         (Fin (72 # 100)) in
  let continent := nmul (nsub macro (Fin (5 # 10))) (Fin (138 # 10)) in
  let mountain :=
    nmul (lift2 Math_pow ridges (Fin (135 # 100))) (Fin (86 # 10)) in
  let fold :=
    nmul (lift1 Math_sin
            (nmul (nmul (nadd (nadd (nadd (nmul nx (Fin (145 # 100)))
                                          (nmul ny (Fin (12 # 10))))
                                    (nmul macro (Fin (8 # 10))))
                              (Fin (seed * (12 # 1000000))))
                        (Fin Math_PI))
                  (Fin 2)))
         (Fin (135 # 100)) in
  let valleyAxis :=
    nadd (nadd cy warp)
         (nmul (lift1 Math_sin
                  (nadd (nmul cx (Fin (31 # 10))) (Fin (seed * (21 # 100000)))))
               (Fin (2 # 10))) in
  let riverValley :=
    nmul (nneg (lift1 Math_exp
                  (nneg (lift2 Math_pow (nmul valleyAxis (Fin (42 # 10))) (Fin 2)))))
         (Fin (45 # 10)) in
  let coastalDrop :=
    nmul (nneg (lift2 Math_pow
                  (nmul (nmax (Fin 0) (nsub radial (Fin (7 # 10)))) (Fin (38 # 10)))
                  (Fin 2)))
         (Fin (33 # 10)) in
  let micro := nmul (nsub detail (Fin (5 # 10))) (Fin (19 # 10)) in
  nadd (nadd (nadd (nadd (nadd continent mountain) fold) riverValley) coastalDrop)
       micro.

Definition generateBaseTerrain (size : Z) (seed : Q) : list num :=
  let terrain := repeat (Fin 0) (Z.to_nat (size * size)) in
  let terrain :=
    fold_left
      (fun terrain y =>
         fold_left
           (fun terrain x =>
              nset terrain (toIndex size x y)
                   (nclamp (heightAt size seed x y)
                           (Fin MIN_TERRAIN_HEIGHT) (Fin MAX_TERRAIN_HEIGHT)))
           (range size) terrain)
      (range size) terrain in
  let terrain := smoothTerrain terrain size (16 # 100) in
  smoothTerrain terrain size (8 # 100).

(** [bestIndex] and [bestHeight] of [findHighestInteriorCell]: [None] is
    the initial pair (-1, -Infinity). *)
Definition findHighestInteriorCell (terrain : list num) (size margin : Z)
  : option (Z * Z * Q) :=
  let best :=
    fold_left
      (fun best y =>
         fold_left
           (fun (best : option (Z * Q)) x =>
              let index := toIndex size x y in
              match nget terrain index, best with
              | Fin height, None => Some (index, height)
              | Fin height, Some (_, bestHeight) =>
                  if Qgtb height bestHeight then Some (index, height) else best
              | NaN, _ => best
              end)
           (rangeFrom margin (size - margin - 1)) best)
      (rangeFrom margin (size - margin - 1)) None in
  match best with
  | None => None
  | Some (bestIndex, bestHeight) =>
      Some (Z.rem bestIndex size, (bestIndex / size)%Z, bestHeight)
  end.

Definition generateInitialSources (terrain : list num) (size : Z)
  : list WaterSource :=
  let margin := Z.max 2 (Qfloor (inject_Z size * (6 # 100))) in
  match findHighestInteriorCell terrain size margin with
  | None => []
  | Some (peak_x, peak_y, peak_height) =>
      let normalizedPeak := clamp ((peak_height + 4) / 20) 0 1 in
      let rate := (11 # 10) + normalizedPeak * (95 # 100) in
      [mkSource "source-1" (inject_Z peak_x) (inject_Z peak_y)
                (toFixed2 rate) true]
  end.

(** [createInitialWorld] with both arguments given.  The vegetation seed
    is drawn from [Math.random]. *)
Definition createInitialWorld (size : Z) (terrainSeed : Q) (rng : RandomState)
  : WorldState num * RandomState :=
  let terrain := generateBaseTerrain size terrainSeed in
  let water := repeat (Fin 0) (Z.to_nat (size * size)) in
  let sources := generateInitialSources terrain size in
  let '(r, rng) := Math_random rng in
  (mkWorld WORLD_VERSION size terrainSeed terrain water sources
           (inject_Z (Qfloor (r * 10000000))) 0,
   rng).

End Generator.

End World.

(** ** JavaScript numbers as the machine has them (IEEE 754 doubles) *)

(** The decimal constants of the code are read as the doubles nearest to
    them, as the machine reads them. *)
Set Warnings "-inexact-float".

Module Double.
Import Floats.
Local Open Scope float_scope.

(** An integer as a Number: exact below 2^53, as every size, index and
    length of the code is. *)
Definition ofZ (z : Z) : float := SF2Prim (binary_normalize prec emax z 0 false).

(** A rational as a Number: the nearest double, and the double itself when
    the rational is one. *)
Definition ofQ (q : Q) : float := ofZ (Qnum q) / ofZ (Zpos (Qden q)).

(** [Math.fround], the rounding of every store into a [Float32Array]: the
    nearest float32 (24 bits, ties to even, overflow to an infinity),
    given as a double. *)
Definition fround (x : float) : float :=
  match Prim2SF x with
  | S754_finite s m e => SF2Prim (binary_round 24 128 s m e)
  | _ => x
  end.

(** [Math.max] and [Math.min] of two numbers: [NaN] when either is, and
    [+0] above [-0]. *)
Definition Math_max (a b : float) : float :=
  match a ?= b with
  | FNotComparable => nan
  | FLt => b
  | FGt => a
  | FEq => if get_sign a then b else a
  end.

Definition Math_min (a b : float) : float :=
  match a ?= b with
  | FNotComparable => nan
  | FLt => a
  | FGt => b
  | FEq => if get_sign a then a else b
  end.

(** [Math.floor]. *)
Definition Math_floor (x : float) : float :=
  match Prim2SF x with
  | S754_finite s m e =>
      if (e <? 0)%Z
      then ofZ (Z.shiftl (if s then Zneg m else Zpos m) e)
      else x
  | _ => x
  end.

Definition Math_ceil (x : float) : float := - Math_floor (- x).

(** An integral Number as an integer; [None] for [NaN], the infinities
    and the numbers with a fraction. *)
Definition toZ (x : float) : option Z :=
  match Prim2SF x with
  | S754_zero _ => Some 0%Z
  | S754_finite s m e =>
      let n := if s then Zneg m else Zpos m in
      if (e <? 0)%Z
      then (if (Z.shiftl (Z.shiftl n e) (- e) =? n)%Z
            then Some (Z.shiftl n e) else None)
      else Some (Z.shiftl n e)
  | _ => None
  end.

(** [Math.round] as an integer: the nearest integer, ties towards
    +infinity; [None] for [NaN] and the infinities. *)
Definition roundZ (x : float) : option Z :=
  match Prim2SF x with
  | S754_zero _ => Some 0%Z
  | S754_finite s m e =>
      let n := if s then Zneg m else Zpos m in
      Some (if (e <? 0)%Z
            then Z.shiftl (2 * n + Z.shiftl 1 (- e)) (e - 1)
            else Z.shiftl n e)
  | _ => None
  end.

(** The remainder operator [%]: exact, with the sign of the dividend. *)
Definition rem (x y : float) : float :=
  match Prim2SF x, Prim2SF y with
  | S754_nan, _ | _, S754_nan => nan
  | S754_infinity _, _ => nan
  | _, S754_zero _ => nan
  | S754_zero _, _ => x
  | S754_finite _ _ _, S754_infinity _ => x
  | S754_finite sx mx ex, S754_finite _ my ey =>
      let e := Z.min ex ey in
      let r := Z.rem (Z.shiftl (Zpos mx) (ex - e)) (Z.shiftl (Zpos my) (ey - e)) in
      if (r =? 0)%Z then (if sx then neg_zero else zero)
      else SF2Prim (binary_normalize prec emax (if sx then (- r)%Z else r) e false)
  end.

(** [clamp] of core/grid.ts and [saturate] of main.ts. *)
Definition clamp (value min max : float) : float :=
  Math_min max (Math_max min value).

Definition saturate (value : float) : float := Math_max 0 (Math_min 1 value).

(** [a[i]] on a [Float32Array]: a read outside the array is [undefined],
    which arithmetic turns into [NaN]. *)
Definition aget (a : list float) (i : Z) : float :=
  if (i <? 0)%Z then nan else nth (Z.to_nat i) a nan.

(** [a[i] = v] on a [Float32Array]: the value is rounded to float32 and a
    write outside the array is dropped. *)
Definition aset (a : list float) (i : Z) (v : float) : list float :=
  if (i <? 0)%Z then a else upd (Z.to_nat i) (fround v) a.

(** *** Signs, read off the representation of a Number *)

(** The sign bit is clear, or the Number is a zero or [NaN]. *)
Definition signless (x : spec_float) : bool :=
  match x with
  | S754_zero _ => true
  | S754_nan => true
  | S754_infinity s => negb s
  | S754_finite s _ _ => negb s
  end.

Definition unsigned (x : float) : Prop := signless (Prim2SF x) = true.

(** The sign bit is clear, or the Number is [NaN]. *)
Definition cleared (x : float) : Prop :=
  match Prim2SF x with
  | S754_zero s | S754_finite s _ _ | S754_infinity s => s = false
  | S754_nan => True
  end.

(** A finite Number that is not negative and not [-0]. *)
Definition settled (x : float) : Prop :=
  match Prim2SF x with
  | S754_zero s | S754_finite s _ _ => s = false
  | _ => False
  end.

(** A finite Number above 0. *)
Definition positive (x : float) : Prop :=
  match Prim2SF x with
  | S754_finite s _ _ => s = false
  | _ => False
  end.

(** [0 <= x] holds or [x] is [NaN]: the Number is not negative. *)
Definition notNegative (x : float) : bool := (0 <=? x) || is_nan x.

End Double.

(** ** World payloads (persistence/storage.ts) *)

Module Persistence.

(** A number as [JSON.parse] or a conversion can produce it: the exact
    value of a double, an infinity or [NaN]. *)
Inductive number :=
| Finite (q : Q)
| Infinity (negative : bool)
| NotANumber.

(** The value [JSON.parse] returns.  The fields of an object are in the
    order of the text; the last binding of a key is the one that counts. *)
#[warnings="-register-all"]
Inductive json :=
| JNull
| JBool (b : bool)
| JNumber (n : number)
| JString (s : string)
| JArray (items : list json)
| JObject (fields : list (string * json)).

(** *** The arithmetic of the machine on these numbers *)

Definition ofNumber (n : number) : PrimFloat.float :=
  match n with
  | Finite q => Double.ofQ q
  | Infinity negative =>
      if negative then PrimFloat.neg_infinity else PrimFloat.infinity
  | NotANumber => PrimFloat.nan
  end.

(** The exact value of a double, in lowest terms. *)
Definition toNumber (x : PrimFloat.float) : number :=
  match FloatOps.Prim2SF x with
  | SpecFloat.S754_zero _ => Finite 0
  | SpecFloat.S754_infinity s => Infinity s
  | SpecFloat.S754_nan => NotANumber
  | SpecFloat.S754_finite s m e =>
      let n := if s then Zneg m else Zpos m in
      Finite (Qred (if (e <? 0)%Z
                    then n # Z.to_pos (Z.shiftl 1 (- e))
                    else inject_Z (Z.shiftl n e)))
  end.

(** The rounding of a store into a [Float32Array]. *)
Definition fround (n : number) : number :=
  toNumber (Double.fround (ofNumber n)).

(** The product of two finite numbers as the machine computes it: rounded
    to a double, an infinity when it overflows. *)
Definition times (a b : Q) : number :=
  toNumber (PrimFloat.mul (Double.ofQ a) (Double.ofQ b)).

(** [a === b] on numbers. *)
Definition sameNumber (a b : number) : bool :=
  match a, b with
  | Finite x, Finite y => Qeq_bool x y
  | Infinity s, Infinity t => Bool.eqb s t
  | _, _ => false
  end.

(** The state [deserializeWorld] builds.  Its numbers are the ones of the
    payload, checked for finiteness only, and its arrays hold what the
    conversion to [Float32Array] makes of the payload's elements. *)
Record WorldState := mkWorldState {
  version : Z;
  size : Q;
  terrainSeed : Q;
  terrain : list number;
  water : list number;
  sources : list WaterSource;
  vegetationSeed : Q;
  time : Q
}.

(** A value, a thrown [Error] with its message, or the [TypeError] the
    engine throws when a value cannot be converted. *)
Inductive result (A : Type) :=
| Ok (value : A)
| Throw (message : string)
| TypeError.
Arguments Ok {A}.
Arguments Throw {A}.
Arguments TypeError {A}.

Definition bind {A B : Type} (r : result A) (k : A -> result B) : result B :=
  match r with
  | Ok a => k a
  | Throw m => Throw m
  | TypeError => TypeError
  end.

Notation "x <- r ;; k" := (bind r (fun x => k))
  (at level 61, r at next level, right associativity).

Fixpoint lookup (key : string) (fields : list (string * json)) : option json :=
  match fields with
  | [] => None
  | (k, v) :: rest =>
      match lookup key rest with
      | Some later => Some later
      | None => if String.eqb k key then Some v else None
      end
  end.

(** [value.key]: [None] is [undefined]. *)
Definition prop (value : json) (key : string) : option json :=
  match value with
  | JObject fields => lookup key fields
  | _ => None
  end.

(** [typeof value !== 'object' || value === null] *)
Definition notAnObject (value : json) : bool :=
  match value with
  | JArray _ | JObject _ => false
  | _ => true
  end.

Definition isFiniteNumber (value : option json) : bool :=
  match value with
  | Some (JNumber (Finite _)) => true
  | _ => false
  end.

Definition isArray (value : option json) : bool :=
  match value with
  | Some (JArray _) => true
  | _ => false
  end.

Definition isString (value : option json) : bool :=
  match value with
  | Some (JString _) => true
  | _ => false
  end.

Definition isBoolean (value : option json) : bool :=
  match value with
  | Some (JBool _) => true
  | _ => false
  end.

(** The value behind a check that has passed. *)
Definition numberOf (value : option json) : Q :=
  match value with
  | Some (JNumber (Finite q)) => q
  | _ => 0
  end.

Definition itemsOf (value : option json) : list json :=
  match value with
  | Some (JArray items) => items
  | _ => []
  end.

(** [value.length] of an array. *)
Definition lengthOf (value : option json) : number :=
  Finite (inject_Z (Z.of_nat (length (itemsOf value)))).

Definition stringOf (value : option json) : string :=
  match value with
  | Some (JString s) => s
  | _ => EmptyString
  end.

Definition booleanOf (value : option json) : bool :=
  match value with
  | Some (JBool b) => b
  | _ => false
  end.

(** The callback of [value.map] in [validateSources]. *)
Definition validateSource (item : json) : result WaterSource :=
  if notAnObject item
     || negb (isString (prop item "id"))
     || negb (isFiniteNumber (prop item "x"))
     || negb (isFiniteNumber (prop item "y"))
     || negb (isFiniteNumber (prop item "rate"))
     || negb (isBoolean (prop item "active"))
  then Throw "Invalid source entry"
  else Ok (mkSource (stringOf (prop item "id"))
                    (numberOf (prop item "x"))
                    (numberOf (prop item "y"))
                    (numberOf (prop item "rate"))
                    (booleanOf (prop item "active"))).

(** [Array.prototype.map], and the element loop of [Float32Array.from],
    with a callback that may throw: the first throw ends the loop. *)
Fixpoint mapResult {A B : Type} (f : A -> result B) (l : list A)
  : result (list B) :=
  match l with
  | [] => Ok []
  | a :: rest =>
      b <- f a ;;
      bs <- mapResult f rest ;;
      Ok (b :: bs)
  end.

Definition validateSources (value : option json) : result (list WaterSource) :=
  if negb (isArray value) then Throw "Invalid source payload"
  else mapResult validateSource (itemsOf value).

(** An object that came out of [JSON.parse] has a string, '[object
    Object]', unless it carries a property [toString] of its own: that
    property is no function, it hides [Object.prototype.toString], and
    the conversion to a primitive throws a [TypeError].  An array has the
    strings of its elements, joined. *)
Fixpoint hasString (value : json) : bool :=
  match value with
  | JArray items => forallb hasString items
  | JObject fields =>
      match lookup "toString" fields with Some _ => false | None => true end
  | _ => true
  end.

Section Deserialize.

(** The numeric string grammar and the text of the elements of an array,
    joined by commas, left abstract. *)
Variable StringToNumber : string -> number.
Variable ArrayToString : list json -> string.

(** The conversion to a number that [Float32Array.from] applies to each
    element, before it rounds. *)
Definition ToNumber (value : json) : result number :=
  match value with
  | JNull => Ok (Finite 0)
  | JBool b => Ok (Finite (if b then 1 else 0))
  | JNumber n => Ok n
  | JString s => Ok (StringToNumber s)
  | JArray items =>
      if forallb hasString items then Ok (StringToNumber (ArrayToString items))
      else TypeError
  | JObject fields =>
      match lookup "toString" fields with
      | Some _ => TypeError
      | None => Ok NotANumber
      end
  end.

Definition Float32Array_from (items : list json) : result (list number) :=
  mapResult (fun item => n <- ToNumber item ;; Ok (fround n)) items.

(** [deserializeWorld] from the value [JSON.parse] returned.  The fields
    of the state are built in the order of the object literal: the two
    arrays are converted before the sources are validated. *)
Definition deserializeWorld (parsed : json) : result WorldState :=
  if notAnObject parsed then Throw "Invalid world payload"
  else
    let world := parsed in
    if negb (isFiniteNumber (prop world "version"))
       || negb (isFiniteNumber (prop world "size"))
       || negb (isArray (prop world "terrain"))
       || negb (isArray (prop world "water"))
       || negb (isFiniteNumber (prop world "vegetationSeed"))
       || negb (isFiniteNumber (prop world "time"))
    then Throw "Incomplete world payload"
    else
      let size := numberOf (prop world "size") in
      let expectedLength := times size size in
      if negb (sameNumber (lengthOf (prop world "terrain")) expectedLength)
         || negb (sameNumber (lengthOf (prop world "water")) expectedLength)
      then Throw "Corrupted world dimensions"
      else
        terrain <- Float32Array_from (itemsOf (prop world "terrain")) ;;
        water <- Float32Array_from (itemsOf (prop world "water")) ;;
        sources <- validateSources (prop world "sources") ;;
        Ok (mkWorldState
              1 size
              (if isFiniteNumber (prop world "terrainSeed")
               then numberOf (prop world "terrainSeed") else 0)
              terrain water sources
              (numberOf (prop world "vegetationSeed"))
              (numberOf (prop world "time"))).

End Deserialize.





(** A stand-in for the two abstract conversions. *)
Definition notNumeric {A : Type} (_ : A) : number := NotANumber.
Definition noText {A : Type} (_ : A) : string := EmptyString.

Definition finite (q : Q) : json := JNumber (Finite q).

Definition field (key : string) (value : json) : string * json := (key, value).







(** The payload of the round-trip test, on a 1 x 1 grid. *)
Definition saved : json :=
  JObject [field "version" (finite 1); field "size" (finite 1);
           field "terrainSeed" (finite 424242);
           field "terrain" (JArray [finite 0]);
           field "water" (JArray [finite (8 # 10)]);
           field "sources"
             (JArray [JObject [field "id" (JString "source-1");
                               field "x" (finite 0); field "y" (finite 0);
                               field "rate" (finite (14 # 10));
                               field "active" (JBool true)]]);
           field "vegetationSeed" (finite 987); field "time" (finite (125 # 10))].

End Persistence.

(** ** Cell diagnostics (core/water.ts) *)

Module WaterDiagnostics.

(** One value per direction. *)
Record Directions (A : Type) := mkDirections {
  right : A;
  left : A;
  up : A;
  down : A
}.
Arguments mkDirections {A}.
Arguments right {A}.
Arguments left {A}.
Arguments up {A}.
Arguments down {A}.





(** The four potentials the outflow loop of [stepWater] computes at cell
    [(x, y)], in the order right, left, up, down. *)
Definition solverPotentials (state : WorldState Q) (flowRate dt : Q)
           (x y : Z) : Directions Q :=
  let index := toIndex (size state) x y in
  let totalHeight := aget (terrain state) index + aget (water state) index in
  mkDirections
    (if (x + 1 <? size state)%Z
     then Water.potentialTo state totalHeight (toIndex (size state) (x + 1) y)
                            flowRate dt else 0)
    (if (0 <=? x - 1)%Z
     then Water.potentialTo state totalHeight (toIndex (size state) (x - 1) y)
                            flowRate dt else 0)
    (if (y + 1 <? size state)%Z
     then Water.potentialTo state totalHeight (toIndex (size state) x (y + 1))
                            flowRate dt else 0)
    (if (0 <=? y - 1)%Z
     then Water.potentialTo state totalHeight (toIndex (size state) x (y - 1))
                            flowRate dt else 0).

(** The water surface is level: terrain plus water is the same in every
    cell. *)
Definition level (state : WorldState Q) : Prop :=
  forall k k',
    (0 <= k < size state * size state)%Z ->
    (0 <= k' < size state * size state)%Z ->
    aget (terrain state) k + aget (water state) k
    == aget (terrain state) k' + aget (water state) k'.

(** Parameters with the four loss coefficients at zero. *)
Definition lossless (p : SimParams) : Prop :=
  damping p == 0 /\ evaporation p == 0 /\
  orZero (seepage p) == 0 /\ orZero (edgeDrain p) == 0.

(** A 3 x 3 world with a mound of water on its centre cell. *)
Definition mound : WorldState Q :=
  mkWorld 1 3 0 [0; 0; 0; 0; 0; 0; 0; 0; 0] [0; 0; 0; 0; 1; 0; 0; 0; 0] [] 1 0.

(** A 2 x 2 world whose water surface is level at height 2. *)
Definition basin : WorldState Q :=
  mkWorld 1 2 0 [0; 1; 2; 1 # 2] [2; 1; 0; 3 # 2] [] 1 0.

(** A source the injection loop of [stepWater] passes over: switched off,
    or at a position that rounds to a cell off the grid. *)
Definition skipped (size : Z) (source : WaterSource) : bool :=
  negb (active source)
  || negb (inBounds size (Math_round (src_x source)) (Math_round (src_y source))).

(** A state with its source list replaced. *)
Definition set_sources (s : WorldState Q) (l : list WaterSource)
  : WorldState Q :=
  mkWorld (version s) (size s) (terrainSeed s) (terrain s) (water s) l
          (vegetationSeed s) (time s).

End WaterDiagnostics.

(** ** Terrain slope (core/terrain.ts) *)

(** A height array within the bounds of the data model. *)
Definition withinBounds (terrain : list Q) : Prop :=
  Forall (fun h => MIN_TERRAIN_HEIGHT <= h <= MAX_TERRAIN_HEIGHT) terrain.

Module Slope.

Section Slope.

Variable Math_sqrt : Q -> Q.

Definition computeSlopeAt (terrain : list Q) (size x y : Z) : Q :=
  if negb (inBounds size x y) then 0
  else
    let xm := Z.max 0 (x - 1) in
    let xp := Z.min (size - 1) (x + 1) in
    let ym := Z.max 0 (y - 1) in
    let yp := Z.min (size - 1) (y + 1) in
    let left := aget terrain (toIndex size xm y) in
    let right := aget terrain (toIndex size xp y) in
    let down := aget terrain (toIndex size x ym) in
    let up := aget terrain (toIndex size x yp) in
    let dx := (right - left) * (5 # 10) in
    let dy := (up - down) * (5 # 10) in
    Math_sqrt (dx * dx + dy * dy).

End Slope.

End Slope.

(** ** Stand-ins for the abstract functions of the generator *)

Module WorldSamples.

(** The Taylor polynomial of degree two of the exponential. *)
Definition expApprox (q : Q) : Q := 1 + q + q * q / 2.

(** A crude power: exact for the exponents 0 and 1 only. *)
Definition powApprox (base exponent : Q) : Q :=
  if Qeq_bool exponent 0 then 1 else base.

(** A linear congruential generator as [Math.random]. *)
Definition lcg (state : Z) : Q * Z :=
  let next := ((state * 1103515245 + 12345) mod 2147483648)%Z in
  (inject_Z next / 2147483648, next).

(** The margin [generateInitialSources] keeps from each edge. *)
Definition interiorMargin (size : Z) : Z :=
  Z.max 2 (Qfloor (inject_Z size * (6 # 100))).

(** A cell at least the margin away from every edge. *)
Definition interior (size x y : Z) : Prop :=
  (interiorMargin size <= x < size - interiorMargin size)%Z /\
  (interiorMargin size <= y < size - interiorMargin size)%Z.

(** [createInitialWorld] with the stand-ins. *)
Definition sampleWorld (size : Z) (seed : Q) : WorldState World.num :=
  fst (World.createInitialWorld Climate.sinApprox Terrain.sqrtApprox expApprox
                                powApprox Climate.piApprox Z lcg size seed 1%Z).

(** The scan of [findHighestInteriorCell] over the cells [cs], started
    from [best]. *)
Definition scan (terrain : list World.num) (size : Z) (cs : list (Z * Z))
           (best : option (Z * Q)) : option (Z * Q) :=
  fold_left
    (fun (best : option (Z * Q)) c =>
       let index := toIndex size (snd c) (fst c) in
       match World.nget terrain index, best with
       | World.Fin height, None => Some (index, height)
       | World.Fin height, Some (_, bestHeight) =>
           if Qgtb height bestHeight then Some (index, height) else best
       | World.NaN, _ => best
       end) cs best.

(** What the scan has found after the cells [seen]. *)
Definition found (terrain : list World.num) (size : Z) (seen : list (Z * Z))
           (best : option (Z * Q)) : Prop :=
  match best with
  | None => forall c, In c seen -> World.nget terrain (cellIndex size c) = World.NaN
  | Some (i, h) =>
      (exists c, In c seen /\ cellIndex size c = i) /\
      World.nget terrain i = World.Fin h /\
      (forall c h', In c seen -> World.nget terrain (cellIndex size c) = World.Fin h' -> h' <= h)
  end.

End WorldSamples.

(** ** Saving a world (persistence/storage.ts) *)

Module Storage.
Import Persistence.

(** What [JSON.parse] reads back for a number [JSON.stringify] wrote: the
    number when it is finite, [null] otherwise. *)
Definition jsonNumber (n : number) : json :=
  match n with
  | Finite q => JNumber (Finite q)
  | _ => JNull
  end.

Definition jsonSource (s : WaterSource) : json :=
  JObject [field "id" (JString (id s)); field "x" (finite (src_x s));
           field "y" (finite (src_y s)); field "rate" (finite (rate s));
           field "active" (JBool (active s))].

(** [serializeWorld], as the value [JSON.parse] reads back from the text
    it encodes: the payload object with its eight fields in order. *)
Definition serializeWorld (state : WorldState) : json :=
  JObject [field "version" (finite (inject_Z (version state)));
           field "size" (finite (size state));
           field "terrainSeed" (finite (terrainSeed state));
           field "terrain" (JArray (map jsonNumber (terrain state)));
           field "water" (JArray (map jsonNumber (water state)));
           field "sources" (JArray (map jsonSource (sources state)));
           field "vegetationSeed" (finite (vegetationSeed state));
           field "time" (finite (time state))].

(** A cell as it comes back from a save: itself when finite, 0 otherwise. *)
Definition flushed (n : number) : number :=
  match n with
  | Finite q => Finite q
  | _ => Finite 0
  end.

(** A cell after a save and a load: read back, then stored as float32. *)
Definition reloaded (n : number) : number := fround (flushed n).

Definition isFinite (n : number) : Prop :=
  match n with Finite _ => True | _ => False end.

(** A float32 value: the cells of a [Float32Array] are such values. *)
Definition float32 (n : number) : Prop := fround n = n.

(** Both arrays have [size * size] cells, the product being the
    machine's. *)
Definition sized (state : WorldState) : bool :=
  sameNumber (Finite (inject_Z (Z.of_nat (length (terrain state)))))
             (times (size state) (size state))
  && sameNumber (Finite (inject_Z (Z.of_nat (length (water state)))))
                (times (size state) (size state)).

(** The world of the round-trip test of the repository, on a 2 x 2 grid;
    its cells are the float32 values next to the decimals. *)
Definition testWorld : WorldState :=
  Eval vm_compute in
  mkWorldState 1 2 424242
    (map fround [Finite 0; Finite (59 # 100); Finite (113 # 100); Finite (157 # 100)])
    (map fround [Finite (8 # 10); Finite (74 # 100); Finite (56 # 100); Finite (29 # 100)])
    [mkSource "source-1" 2 3 (14 # 10) true] 987 (125 # 10).

End Storage.

(** ** The simulation loop and its helpers (main.ts)

    The exact reading; the day phase, the hour and the rainfall are read
    on doubles and float32 cells in [Machine]. *)

Module Simulation.
Import Climate.

Definition DAY_CYCLE_SECONDS : Q := 1440.
Definition DAY_START_HOUR : Q := 7.
Definition HUMIDITY_DIFFUSION_RATE : Q := 13 # 100.
Definition HUMIDITY_DIFFUSION_STEPS : Z := 4.

(** As for [wrapRadians], the [Number.isFinite] test of the code always
    passes on the numbers of the exact reading. *)
Definition wrapHour (value : Q) : Q :=
  let wrapped := Qrem value 24 in
  if Qltb wrapped 0 then wrapped + 24 else wrapped.

Definition getSimulatedDayPhase (time : Q) : Q :=
  let phase := time / DAY_CYCLE_SECONDS + DAY_START_HOUR / 24 in
  phase - inject_Z (Qfloor phase).

Definition getSimulatedHour (time : Q) : Q :=
  wrapHour (getSimulatedDayPhase time * 24).



(** The body of the loop of [applyRainfall]. *)
Definition rainCell (terrain : list Q) (baseRain : Q) (water : list Q)
           (index : Z) : list Q :=
  let altitude := saturate ((aget terrain index + 8) / 26) in
  let orographicBias := (72 # 100) + altitude * (45 # 100) in
  aset water index (aget water index + baseRain * orographicBias).

Definition applyRainfall (state : WorldState Q) (rainIntensity dt : Q)
  : WorldState Q :=
  if Qle_bool rainIntensity (2 # 100) then state
  else
    let baseRain := rainIntensity * dt * (8 # 100000) in
    set_water state
      (fold_left (rainCell (terrain state) baseRain)
                 (range (Z.of_nat (length (water state)))) (water state)).

(** The module-level humidity buffers and the step counter. *)
Record Humidity := mkHumidity {
  humidityMap : list Q;
  humidityScratch : list Q;
  humidityStepCounter : Z
}.

(** The body of the first loop of [updateHumidity]. *)
Definition humidityCell (state : WorldState Q) (dt rainIntensity : Q)
           (humidityMap : list Q) (index : Z) : list Q :=
  let waterWet := saturate (aget (water state) index * (32 # 10)) in
  let rainWet := rainIntensity * (45 # 100) in
  let altitude := saturate ((aget (terrain state) index + 8) / 26) in
  let retainedMoisture := (12 # 100) + (1 - altitude) * (24 # 100) in
  let wetTarget := Qmax waterWet (retainedMoisture + rainWet * (35 # 100)) in
  let current := aget humidityMap index in
  let gain := if Qgtb wetTarget current then 21 # 10 else 7 # 10 in
  let next := current + (wetTarget - current) * gain * dt in
  let next :=
    next - ((22 # 1000) + altitude * (2 # 100)) * (1 - waterWet)
           * (1 - rainIntensity * (5 # 10)) * dt in
  aset humidityMap index (saturate next).

(** The body of the diffusion loops at cell [(x, y)]. *)
Definition diffuseCell (size : Z) (humidityMap : list Q) (y : Z)
           (humidityScratch : list Q) (x : Z) : list Q :=
  let index := (y * size + x)%Z in
  let total := aget humidityMap index in
  let count := 1%Z in
  let total := if (0 <? x)%Z then total + aget humidityMap (index - 1) else total in
  let count := if (0 <? x)%Z then (count + 1)%Z else count in
  let total :=
    if (x + 1 <? size)%Z then total + aget humidityMap (index + 1) else total in
  let count := if (x + 1 <? size)%Z then (count + 1)%Z else count in
  let total :=
    if (0 <? y)%Z then total + aget humidityMap (index - size) else total in
  let count := if (0 <? y)%Z then (count + 1)%Z else count in
  let total :=
    if (y + 1 <? size)%Z then total + aget humidityMap (index + size) else total in
  let count := if (y + 1 <? size)%Z then (count + 1)%Z else count in
  let avg := total / inject_Z count in
  aset humidityScratch index
       (aget humidityMap index
        + (avg - aget humidityMap index) * HUMIDITY_DIFFUSION_RATE).

(** [updateHumidity]: the gain and decay pass on every call, and on
    every fourth call a diffusion pass into the scratch buffer, after
    which the two buffers change places. *)
Definition updateHumidity (h : Humidity) (state : WorldState Q)
           (dt rainIntensity : Q) : Humidity :=
  let map :=
    fold_left (humidityCell state dt rainIntensity)
              (range (Z.of_nat (length (humidityMap h)))) (humidityMap h) in
  let counter := (humidityStepCounter h + 1)%Z in
  if negb (Z.rem counter HUMIDITY_DIFFUSION_STEPS =? 0)%Z
  then mkHumidity map (humidityScratch h) counter
  else
    let scratch :=
      fold_left
        (fun scratch y =>
           fold_left (diffuseCell (size state) map y) (range (size state)) scratch)
        (range (size state)) (humidityScratch h) in
    mkHumidity scratch map counter.

(** [currentVegetationVitality] on a climate state. *)
Definition currentVegetationVitality (climate : ClimateState) : Q :=
  saturate ((34 # 100) + daylight climate * (46 # 100)
            + rainIntensity climate * (2 # 10)).

(** [Array.prototype.findIndex]: [None] is the result -1. *)
Fixpoint findIndex {A : Type} (test : A -> bool) (l : list A) : option nat :=
  match l with
  | [] => None
  | a :: rest =>
      if test a then Some O
      else match findIndex test rest with
           | Some k => Some (S k)
           | None => None
           end
  end.

(** [sources.splice(index, 1)] *)
Fixpoint removeAt {A : Type} (index : nat) (l : list A) : list A :=
  match l, index with
  | [], _ => []
  | _ :: rest, O => rest
  | a :: rest, S k => a :: removeAt k rest
  end.

(** The test of [findNearbySourceIndex]: within 1.5 cells of [(x, y)]. *)
Definition near (x y : Q) (source : WaterSource) : bool :=
  let dx := src_x source - x in
  let dy := src_y source - y in
  Qle_bool (dx * dx + dy * dy) ((15 # 10) * (15 # 10)).

Definition findNearbySourceIndex (sources : list WaterSource) (x y : Q)
  : option nat :=
  findIndex (near x y) sources.

(** The source list, the counter behind the ids and the rate of the
    source slider. *)
Record SourceBook := mkSourceBook {
  book_sources : list WaterSource;
  sourceIdCounter : Z;
  sourceRate : Q
}.

Section Sources.

(** The text of a number in a template string, left abstract. *)
Variable numberToString : Z -> string.

Definition toggleWaterSource (book : SourceBook) (x y : Q) : SourceBook :=
  match findNearbySourceIndex (book_sources book) x y with
  | Some existingIndex =>
      mkSourceBook (removeAt existingIndex (book_sources book))
                   (sourceIdCounter book) (sourceRate book)
  | None =>
      let source :=
        mkSource (String.append "source-" (numberToString (sourceIdCounter book)))
                 x y (sourceRate book) true in
      mkSourceBook (book_sources book ++ [source])
                   (sourceIdCounter book + 1) (sourceRate book)
  end.

End Sources.

(** No two sources of the list lie within 1.5 cells of each other. *)
Fixpoint spaced (sources : list WaterSource) : Prop :=
  match sources with
  | [] => True
  | a :: rest =>
      Forall (fun b => near (src_x a) (src_y a) b = false) rest /\ spaced rest
  end.

(** [DayCycleMode], [WeatherMode] and [WindMode] are the same two names. *)
Inductive PanelMode := simulation | manual.

Definition isManual (mode : PanelMode) : bool :=
  match mode with manual => true | simulation => false end.

(** The settings of the debug panel. *)
Record Modes := mkModes {
  debugMode : bool;
  dayCycleMode : PanelMode;
  manualDayHour : Q;
  weatherMode : PanelMode;
  manualCloudiness : Q;
  manualRainIntensity : Q;
  windMode : PanelMode;
  manualWindStrength : Q;
  manualWindDirection : Q;
  manualWindGustiness : Q
}.

(** The settings the application starts with. *)
Definition initialModes : Modes :=
  mkModes false simulation DAY_START_HOUR simulation (35 # 100) (8 # 100)
          simulation (42 # 100) 200 (36 # 100).

Section Tick.

Variable Math_sin : Q -> Q.
Variable Math_PI : Q.

Definition toRadians (degrees : Q) : Q :=
  wrapRadians Math_PI (degrees / 180 * Math_PI).

Definition getActiveDayPhase (modes : Modes) (time : Q) : Q :=
  if debugMode modes && isManual (dayCycleMode modes)
  then wrapHour (manualDayHour modes) / 24
  else getSimulatedDayPhase time.

Definition getWeatherOverride (modes : Modes) : option WeatherOverride :=
  if debugMode modes && isManual (weatherMode modes)
  then Some (mkWeather (saturate (manualCloudiness modes))
                       (saturate (manualRainIntensity modes)))
  else None.

Definition getWindOverride (modes : Modes) : option WindOverride :=
  if debugMode modes && isManual (windMode modes)
  then Some (mkWind (saturate (manualWindStrength modes))
                    (toRadians (manualWindDirection modes))
                    (saturate (manualWindGustiness modes)))
  else None.

(** Everything one pass of the loop of [animate] reads and writes. *)
Record Sim := mkSim {
  world : WorldState Q;
  humidity : Humidity;
  scratch : Water.Scratch
}.

(** One pass of the fixed-step loop of [animate]: climate, rain, water,
    humidity, clock. *)
Definition simulationTick (modes : Modes) (seed : Q)
           (simParams : SimParams) (sim : Sim) : Sim :=
  let climateState :=
    createClimateState Math_sin Math_PI (time (world sim)) seed
                       (getActiveDayPhase modes (time (world sim)))
                       (getWeatherOverride modes) (getWindOverride modes) in
  let rained := applyRainfall (world sim) (rainIntensity climateState)
                              (dt simParams) in
  let '(stepped, cache) := Water.stepWater (scratch sim) rained simParams in
  let humid := updateHumidity (humidity sim) stepped (dt simParams)
                              (rainIntensity climateState) in
  mkSim (mkWorld (version stepped) (size stepped) (terrainSeed stepped)
                 (terrain stepped) (water stepped) (sources stepped)
                 (vegetationSeed stepped) (time stepped + dt simParams))
        humid cache.

End Tick.

(** A humidity buffer with every cell between 0 and 1. *)
Definition unitRange (l : list Q) : Prop := Forall (fun v => 0 <= v <= 1) l.

(** The parameters the application runs with. *)
Definition simParams : SimParams :=
  mkParams (1 # 60) (18 # 10) (25 # 1000) (3 # 10000) (Some (4 # 100))
           (Some (3 # 10)).

(** A simulation state on the 2 x 2 world [pond]. *)
Definition pondSim : Sim :=
  mkSim Water.pond (mkHumidity [0; 0; 0; 0] [0; 0; 0; 0] 0) Water.emptyScratch.

End Simulation.

(** ** The simulation as the machine computes it

    The functions of core/water.ts, core/terrain.ts and main.ts once
    more, with the arithmetic of the code instead of exact rationals:
    every operation rounds to a double and every store into a
    [Float32Array] rounds to float32.  The statements about rounding,
    overflow and [NaN] are made on these definitions. *)

Module Machine.
Import Floats Double.
Local Open Scope float_scope.

Record WaterSource := mkSource {
  id : string;
  src_x : float;
  src_y : float;
  rate : float;
  active : bool
}.

Record WorldState := mkWorld {
  version : Z;
  size : Z;
  terrainSeed : float;
  terrain : list float;
  water : list float;
  sources : list WaterSource;
  vegetationSeed : float;
  time : float
}.

Record SimParams := mkParams {
  dt : float;
  flowRate : float;
  damping : float;
  evaporation : float;
  seepage : option float;
  edgeDrain : option float
}.

Record BrushSettings := mkBrush {
  radius : float;
  strength : float;
  flattenHeight : float
}.

Definition orZero (v : option float) : float :=
  match v with Some q => q | None => 0 end.

Definition set_water (s : WorldState) (w : list float) : WorldState :=
  mkWorld (version s) (size s) (terrainSeed s) (terrain s) w (sources s)
          (vegetationSeed s) (time s).

Definition set_terrain (s : WorldState) (t : list float) : WorldState :=
  mkWorld (version s) (size s) (terrainSeed s) t (water s) (sources s)
          (vegetationSeed s) (time s).

(** *** core/water.ts *)

Definition Scratch := nat -> option (list float).

Definition scratch_set (c : Scratch) (n : nat) (a : list float) : Scratch :=
  fun k => if Nat.eqb k n then Some a else c k.

Definition getScratch (c : Scratch) (length : nat) : list float * Scratch :=
  match c length with
  | Some existing => let filled := map (fun _ => 0) existing in
                     (filled, scratch_set c length filled)
  | None => let created := repeat 0 length in
            (created, scratch_set c length created)
  end.

(** One iteration of the loop over [state.sources]; a position that
    rounds to no integer ([NaN], an infinity) is not in bounds. *)
Definition injectSource (dt : float) (state : WorldState) (source : WaterSource)
  : WorldState :=
  if negb (active source) then state
  else
    match roundZ (src_x source), roundZ (src_y source) with
    | Some sx, Some sy =>
        if negb (inBounds (size state) sx sy) then state
        else
          let sourceIndex := toIndex (size state) sx sy in
          set_water state
            (aset (water state) sourceIndex
                  (aget (water state) sourceIndex
                   + Math_max 0 (rate source) * dt))
    | _, _ => state
    end.

Definition potentialTo (state : WorldState) (totalHeight : float)
           (neighbour : Z) (flowRate dt : float) : float :=
  let diff := totalHeight - (aget (terrain state) neighbour
                             + aget (water state) neighbour) in
  if 0 <? diff then diff * flowRate * dt else 0.

Definition transfer (delta : list float) (index neighbour : Z)
           (potential scale : float) : list float :=
  if (0 <? potential) && (0 <=? neighbour)%Z then
    let amount := potential * scale in
    let delta1 := aset delta index (aget delta index - amount) in
    aset delta1 neighbour (aget delta1 neighbour + amount)
  else delta.

(** The body of the outflow loop at cell [(x, y)]. *)
Definition flowCell (state : WorldState) (flowRate dt : float)
           (y : Z) (delta : list float) (x : Z) : list float :=
  let index := toIndex (size state) x y in
  let currentWater := aget (water state) index in
  if currentWater <=? 0 then delta
  else
    let totalHeight := aget (terrain state) index + currentWater in
    let rightIndex :=
      if (x + 1 <? size state)%Z then toIndex (size state) (x + 1) y else (-1)%Z in
    let rightPotential :=
      if (x + 1 <? size state)%Z
      then potentialTo state totalHeight rightIndex flowRate dt else 0 in
    let leftIndex :=
      if (0 <=? x - 1)%Z then toIndex (size state) (x - 1) y else (-1)%Z in
    let leftPotential :=
      if (0 <=? x - 1)%Z
      then potentialTo state totalHeight leftIndex flowRate dt else 0 in
    let upIndex :=
      if (y + 1 <? size state)%Z then toIndex (size state) x (y + 1) else (-1)%Z in
    let upPotential :=
      if (y + 1 <? size state)%Z
      then potentialTo state totalHeight upIndex flowRate dt else 0 in
    let downIndex :=
      if (0 <=? y - 1)%Z then toIndex (size state) x (y - 1) else (-1)%Z in
    let downPotential :=
      if (0 <=? y - 1)%Z
      then potentialTo state totalHeight downIndex flowRate dt else 0 in
    let totalPotential :=
      rightPotential + leftPotential + upPotential + downPotential in
    if totalPotential <=? 0 then delta
    else
      let scale := Math_min 1 (currentWater / totalPotential) in
      let delta := transfer delta index rightIndex rightPotential scale in
      let delta := transfer delta index leftIndex leftPotential scale in
      let delta := transfer delta index upIndex upPotential scale in
      transfer delta index downIndex downPotential scale.

Definition flowPass (state : WorldState) (flowRate dt : float)
           (delta : list float) : list float :=
  fold_left
    (fun delta y => fold_left (flowCell state flowRate dt y)
                              (range (size state)) delta)
    (range (size state)) delta.

(** The body of the loss loop at cell [(x, y)]. *)
Definition lossCell (size : Z) (delta : list float)
           (dampingFactor evaporationLoss seepage edgeDrain dt : float)
           (y : Z) (water : list float) (x : Z) : list float :=
  let index := toIndex size x y in
  let withFlow := aget water index + aget delta index in
  let seepLoss := withFlow * seepage * dt in
  let next := withFlow * dampingFactor - evaporationLoss - seepLoss in
  let isEdge := (x =? 0)%Z || (y =? 0)%Z || (x =? size - 1)%Z || (y =? size - 1)%Z in
  let next := if isEdge && (0 <? next) then next - edgeDrain * dt else next in
  aset water index (Math_max 0 next).

Definition lossPass (size : Z) (delta : list float)
           (dampingFactor evaporationLoss seepage edgeDrain dt : float)
           (water : list float) : list float :=
  fold_left
    (fun water y =>
       fold_left (lossCell size delta dampingFactor evaporationLoss
                           seepage edgeDrain dt y)
                 (range size) water)
    (range size) water.

Definition stepWater (cache : Scratch) (state : WorldState) (params : SimParams)
  : WorldState * Scratch :=
  let dt := Math_max 0.0001 (dt params) in
  let flowRate := Math_max 0 (flowRate params) in
  let damping := Math_max 0 (damping params) in
  let evaporation := Math_max 0 (evaporation params) in
  let seepage := Math_max 0 (orZero (seepage params)) in
  let edgeDrain := Math_max 0 (orZero (edgeDrain params)) in
  let state := fold_left (injectSource dt) (sources state) state in
  let '(delta, cache) := getScratch cache (length (water state)) in
  let delta := flowPass state flowRate dt delta in
  let dampingFactor := clamp (1 - damping * dt) 0 1 in
  let evaporationLoss := evaporation * dt in
  (set_water state
     (lossPass (size state) delta dampingFactor evaporationLoss
               seepage edgeDrain dt (water state)),
   scratch_set cache (length (water state)) delta).

(** [totalWater]: the cells added up in a double, from the left. *)
Definition totalWater (state : WorldState) : float :=
  fold_left add (water state) 0.

Definition emptyScratch : Scratch := fun _ => None.

(** A run of steps, each with parameters of its own. *)
Fixpoint stepMany (cache : Scratch) (state : WorldState) (ticks : list SimParams)
  : WorldState * Scratch :=
  match ticks with
  | [] => (state, cache)
  | p :: rest => let '(s, c) := stepWater cache state p in stepMany c s rest
  end.

(** The scratch map stores each array under its own length. *)
Definition cache_ok (c : Scratch) : Prop :=
  forall n a, c n = Some a -> length a = n.

(** *** core/terrain.ts *)

Definition MIN_TERRAIN_HEIGHT : float := -12.
Definition MAX_TERRAIN_HEIGHT : float := 24.

(** The body of the two loops of [applyBrush] at cell [(x, y)]. *)
Definition brushCell (size : Z) (cx cy radius strength : float) (tool : ToolMode)
           (brush : BrushSettings) (y : Z) (terrain : list float) (x : Z)
  : list float :=
  let dx := ofZ x - cx in
  let dy := ofZ y - cy in
  let distance := sqrt (dx * dx + dy * dy) in
  if radius <? distance then terrain
  else
    let falloff := 1 - distance / radius in
    let influence := falloff * strength in
    let index := toIndex size x y in
    let current := aget terrain index in
    let next :=
      match tool with
      | raise => current + influence
      | lower => current - influence
      | flatten => current + (flattenHeight brush - current) * influence
      | waterSource => current
      end in
    aset terrain index (clamp next MIN_TERRAIN_HEIGHT MAX_TERRAIN_HEIGHT).

(** The values of a loop [for (let i = lo; i <= hi; i += 1)] whose bounds
    are Numbers: none when a bound is [NaN] or the loop cannot start. *)
Definition loopFrom (lo hi : float) : list Z :=
  match toZ lo, toZ hi with
  | Some lo, Some hi => rangeFrom lo hi
  | _, _ => []
  end.

Definition applyBrush (state : WorldState) (cx cy : float) (tool : ToolMode)
           (brush : BrushSettings) : WorldState :=
  match tool with
  | waterSource => state
  | _ =>
    let radius := Math_max 1 (radius brush) in
    let strength := clamp (strength brush) 0.01 1 in
    let minX := Math_max 0 (Math_floor (cx - radius)) in
    let maxX := Math_min (ofZ (size state - 1)) (Math_ceil (cx + radius)) in
    let minY := Math_max 0 (Math_floor (cy - radius)) in
    let maxY := Math_min (ofZ (size state - 1)) (Math_ceil (cy + radius)) in
    set_terrain state
      (fold_left
         (fun terrain y =>
            fold_left (brushCell (size state) cx cy radius strength tool brush y)
                      (loopFrom minX maxX) terrain)
         (loopFrom minY maxY) (terrain state))
  end.

(** [n] flatten strokes with the same centre and the same settings. *)
Fixpoint strokes (n : nat) (state : WorldState) (cx cy : float)
         (brush : BrushSettings) : WorldState :=
  match n with
  | O => state
  | S k => applyBrush (strokes k state cx cy brush) cx cy flatten brush
  end.

(** *** main.ts *)

Definition Math_PI : float := 3.141592653589793.
Definition TAU : float := Math_PI * 2.
Definition DAY_CYCLE_SECONDS : float := 24 * 60.
Definition DAY_START_HOUR : float := 7.

Definition wrapHour (value : float) : float :=
  if negb (is_finite value) then DAY_START_HOUR
  else
    let wrapped := rem value 24 in
    if wrapped <? 0 then wrapped + 24 else wrapped.

Definition wrapRadians (value : float) : float :=
  if negb (is_finite value) then 0
  else
    let wrapped := rem value TAU in
    if wrapped <? 0 then wrapped + TAU else wrapped.

Definition getSimulatedDayPhase (time : float) : float :=
  let phase := time / DAY_CYCLE_SECONDS + DAY_START_HOUR / 24 in
  phase - Math_floor phase.

Definition getSimulatedHour (time : float) : float :=
  wrapHour (getSimulatedDayPhase time * 24).

Definition smoothstep (edge0 edge1 value : float) : float :=
  if edge0 =? edge1 then (if value <? edge0 then 0 else 1)
  else
    let t := saturate ((value - edge0) / (edge1 - edge0)) in
    t * t * (3 - 2 * t).

Record ClimateState := mkClimate {
  dayPhase : float;
  daylight : float;
  cloudiness : float;
  rainIntensity : float;
  windStrength : float;
  windDirection : float;
  windGustiness : float
}.

Record WeatherOverride := mkWeather {
  weather_cloudiness : float;
  weather_rainIntensity : float
}.

Record WindOverride := mkWind {
  wind_strength : float;
  wind_direction : float;
  wind_gustiness : float
}.

Section ClimateState.

(** [Math.sin], left abstract. *)
Variable Math_sin : float -> float.

Definition createClimateState (time seed dayPhase : float)
           (weatherOverride : option WeatherOverride)
           (windOverride : option WindOverride) : ClimateState :=
  let wrappedDayPhase := dayPhase - Math_floor dayPhase in
  let sunWave := Math_sin ((wrappedDayPhase - 0.25) * TAU) in
  let daylight := saturate (0.18 + Math_max 0 sunWave * 0.82) in
  let cloudSignalA := Math_sin (time * 0.012 + seed * 0.00017) * 0.5 + 0.5 in
  let cloudSignalB := Math_sin (time * 0.0045 + seed * 0.00043) * 0.5 + 0.5 in
  let cloudiness0 :=
    saturate (0.1 + (cloudSignalA * 0.62 + cloudSignalB * 0.38) * 0.78) in
  let rainPulse := Math_sin (time * 0.021 + seed * 0.00091) * 0.5 + 0.5 in
  let rainGate := smoothstep 0.6 0.92 cloudiness0 in
  let rainIntensity0 := saturate (rainGate * (0.14 + rainPulse * 0.62)) in
  let cloudiness :=
    match weatherOverride with
    | Some o => saturate (weather_cloudiness o)
    | None => cloudiness0
    end in
  let rainIntensity :=
    match weatherOverride with
    | Some o => saturate (weather_rainIntensity o)
    | None => rainIntensity0
    end in
  let windSignalA := Math_sin (time * 0.0095 + seed * 0.00031) * 0.5 + 0.5 in
  let windSignalB :=
    Math_sin (time * 0.017 + seed * 0.00073 + cloudiness * 1.4) * 0.5 + 0.5 in
  let windSignalC := Math_sin (time * 0.004 + seed * 0.0011) * 0.5 + 0.5 in
  let windStrength0 :=
    saturate (0.18 + windSignalA * 0.46 + rainIntensity * 0.24) in
  let windGustiness0 :=
    saturate (0.15 + windSignalB * 0.54 + rainIntensity * 0.2) in
  let windDirection0 :=
    wrapRadians (seed * 0.000045
                 + time * (0.015 + windStrength0 * 0.008)
                 + (windSignalC - 0.5) * 1.4
                 + (windSignalB - 0.5) * 0.55) in
  let windStrength :=
    match windOverride with
    | Some o => saturate (wind_strength o)
    | None => windStrength0
    end in
  let windDirection :=
    match windOverride with
    | Some o => wrapRadians (wind_direction o)
    | None => windDirection0
    end in
  let windGustiness :=
    match windOverride with
    | Some o => saturate (wind_gustiness o)
    | None => windGustiness0
    end in
  mkClimate wrappedDayPhase daylight cloudiness rainIntensity
            windStrength windDirection windGustiness.

End ClimateState.

(** The body of the loop of [applyRainfall]. *)
Definition rainCell (terrain : list float) (baseRain : float)
           (water : list float) (index : Z) : list float :=
  let altitude := saturate ((aget terrain index + 8) / 26) in
  let orographicBias := 0.72 + altitude * 0.45 in
  aset water index (aget water index + baseRain * orographicBias).

Definition applyRainfall (state : WorldState) (rainIntensity dt : float)
  : WorldState :=
  if rainIntensity <=? 0.02 then state
  else
    let baseRain := rainIntensity * dt * 0.00008 in
    set_water state
      (fold_left (rainCell (terrain state) baseRain)
                 (range (Z.of_nat (length (water state)))) (water state)).

(** *** Sample worlds and parameters *)

(** The 2 x 2 world [Water.pond]. *)
Definition pond : WorldState :=
  mkWorld 1 2 0 [0; 1; 2; 0.5] [1; 0; 0.5; 0] [] 1 0.

(** A flat 2 x 2 world with 1000 units of water in one cell. *)
Definition reservoir : WorldState :=
  mkWorld 1 2 0 [0; 0; 0; 0] [1000; 0; 0; 0] [] 1 0.

(** [pond] with an unbounded depth in its first cell, as a load of a
    payload with the cell 1e39 leaves it. *)
Definition flooded : WorldState :=
  mkWorld 1 2 0 [0; 1; 2; 0.5] [infinity; 0; 0.5; 0] [] 1 0.

(** The parameters of the mass test of the repository: flow only. *)
Definition flowOnly : SimParams := mkParams (1 / 30) 1.4 0 0 None None.

(** The parameters the application runs with. *)
Definition simParams : SimParams :=
  mkParams (1 / 60) 1.8 0.025 0.0003 (Some 0.04) (Some 0.3).

(** Finite, non-negative parameters whose product overflows. *)
Definition torrent : SimParams := mkParams 10 1e308 0 0 None None.

(** A one-cell world with an active source of rate 1 on its only cell. *)
Definition spring : WorldState :=
  mkWorld 1 1 0 [0] [0] [mkSource "source-1" 0 0 1 true] 1 0.

(** No flow and no loss, with a tick [tick] seconds long. *)
Definition still (tick : float) : SimParams :=
  mkParams tick 0 0 0 (Some 0) (Some 0).

(** A one-cell world at height [h] with [w] units of water. *)
Definition cell (h w : float) : WorldState := mkWorld 1 1 0 [h] [w] [] 1 0.

End Machine.

(** * Properties *)

(** ** Facts on comparisons, arrays and loops *)

Lemma Qgtb_true a b : Qgtb a b = true <-> b < a.
Proof.
  unfold Qgtb. rewrite negb_true_iff. split; intro H.
  - apply Qnot_le_lt. intro Hle. apply Qle_bool_iff in Hle. congruence.
  - destruct (Qle_bool a b) eqn:E; [|reflexivity].
    apply Qle_bool_iff in E. exfalso. apply (Qlt_not_le _ _ H E).
Qed.

Lemma Qgtb_false a b : Qgtb a b = false <-> a <= b.
Proof.
  unfold Qgtb. rewrite negb_false_iff. apply Qle_bool_iff.
Qed.

Lemma Qle_bool_false a b : Qle_bool a b = false <-> b < a.
Proof.
  rewrite <- Qgtb_true. unfold Qgtb. now rewrite negb_true_iff.
Qed.

Lemma Qmax_nonneg a : 0 <= Qmax 0 a.
Proof. apply Q.le_max_l. Qed.

Lemma Qmax_0_of_nonneg a : 0 <= a -> Qmax 0 a == a.
Proof. intro H. now apply Q.max_r. Qed.

Lemma Qmax_0_of_zero a : a == 0 -> Qmax 0 a == 0.
Proof. intro H. rewrite H. now apply Q.max_l. Qed.

Lemma in_range n x : In x (range n) <-> (0 <= x < n)%Z.
Proof.
  unfold range. rewrite in_map_iff. split.
  - intros [k [<- Hk]]. apply in_seq in Hk. lia.
  - intros H. exists (Z.to_nat x). split; [lia|]. apply in_seq. lia.
Qed.

Lemma NoDup_range n : NoDup (range n).
Proof.
  unfold range. apply NoDup_map_NoDup_ForallPairs; [|apply seq_NoDup].
  intros a b _ _ H. lia.
Qed.

Lemma upd_length {A} n (v : A) l : length (upd n v l) = length l.
Proof.
  revert n; induction l as [|h t IH]; intros [|n]; simpl; auto.
Qed.

Lemma nth_upd_same {A} n (v : A) l d :
  (n < length l)%nat -> nth n (upd n v l) d = v.
Proof.
  revert n; induction l as [|h t IH]; intros [|n] H; simpl in *; try lia; auto.
  apply IH. lia.
Qed.

Lemma nth_upd_other {A} n m (v : A) l d :
  n <> m -> nth m (upd n v l) d = nth m l d.
Proof.
  revert n m; induction l as [|h t IH]; intros [|n] [|m] H; simpl; auto; try lia.
Qed.

Lemma aset_length a i v : length (aset a i v) = length a.
Proof. unfold aset. destruct (i <? 0)%Z; auto using upd_length. Qed.

Lemma aget_aset_same a i v :
  (0 <= i < Z.of_nat (length a))%Z -> aget (aset a i v) i = v.
Proof.
  intros H. unfold aget, aset.
  destruct (i <? 0)%Z eqn:E; [lia|]. apply nth_upd_same. lia.
Qed.

Lemma aget_aset_other a i j v : i <> j -> aget (aset a i v) j = aget a j.
Proof.
  intros H. unfold aget, aset.
  destruct (j <? 0)%Z eqn:Ej; [reflexivity|].
  destruct (i <? 0)%Z eqn:Ei; [reflexivity|].
  apply nth_upd_other. lia.
Qed.

Lemma fold_plus_acc l a : fold_left Qplus l a == a + fold_left Qplus l 0.
Proof.
  revert a; induction l as [|h t IH]; intros a; simpl.
  - ring.
  - rewrite (IH (a + h)), (IH (0 + h)). ring.
Qed.

Lemma sumQ_cons a l : sumQ (a :: l) == a + sumQ l.
Proof. unfold sumQ; simpl. rewrite fold_plus_acc. ring. Qed.

Lemma sumQ_upd n v l :
  (n < length l)%nat -> sumQ (upd n v l) == sumQ l - nth n l 0 + v.
Proof.
  revert n; induction l as [|h t IH]; intros [|n] H; simpl in *; try lia.
  - rewrite !sumQ_cons. ring.
  - rewrite !sumQ_cons, IH by lia. ring.
Qed.

Lemma sumQ_aset a i v :
  (0 <= i < Z.of_nat (length a))%Z -> sumQ (aset a i v) == sumQ a - aget a i + v.
Proof.
  intros H. unfold aset, aget. destruct (i <? 0)%Z eqn:E; [lia|].
  apply sumQ_upd. lia.
Qed.

(** Two arrays that agree cell by cell up to a third have sums that do. *)
Lemma sumQ_pointwise (a b c : list Q) :
  length a = length b -> length a = length c ->
  (forall k, (k < length a)%nat -> nth k a 0 == nth k b 0 + nth k c 0) ->
  sumQ a == sumQ b + sumQ c.
Proof.
  revert b c; induction a as [|x a IH]; intros [|y b] [|z c] Hb Hc H;
    simpl in *; try discriminate.
  - unfold sumQ; simpl. ring.
  - rewrite !sumQ_cons.
    rewrite (IH b c); try lia.
    + rewrite (H O) by lia. simpl. ring.
    + intros k Hk. apply (H (S k)). lia.
Qed.

(** The nested loops visit the cells of [list_prod rows columns]. *)
Lemma nested_fold {S : Type} (F : Z -> S -> Z -> S) (ys xs : list Z) (s : S) :
  fold_left (fun s y => fold_left (F y) xs s) ys s
  = fold_left (fun s c => F (fst c) s (snd c)) (list_prod ys xs) s.
Proof.
  revert s; induction ys as [|y ys IH]; intros s; simpl; [reflexivity|].
  rewrite fold_left_app, IH. f_equal.
  clear. revert s. induction xs as [|x xs IH]; intros s; simpl; auto.
Qed.

Lemma NoDup_list_prod {A B} (l : list A) (l' : list B) :
  NoDup l -> NoDup l' -> NoDup (list_prod l l').
Proof.
  intros Hl Hl'. induction Hl as [|a l Ha Hl IH]; simpl; [constructor|].
  apply NoDup_app.
  - apply NoDup_map_NoDup_ForallPairs; [|assumption].
    intros x y _ _ E. congruence.
  - exact IH.
  - intros [x y] Hin Hin'.
    apply in_map_iff in Hin. destruct Hin as [b [E _]].
    apply in_prod_iff in Hin'. inversion E; subst. tauto.
Qed.

Lemma in_cells size c :
  In c (cells size) <-> (0 <= fst c < size)%Z /\ (0 <= snd c < size)%Z.
Proof.
  destruct c as [y x]. unfold cells. rewrite in_prod_iff, !in_range. reflexivity.
Qed.

Lemma toIndex_bounds size x y :
  (0 <= x < size)%Z -> (0 <= y < size)%Z ->
  (0 <= toIndex size x y < size * size)%Z.
Proof. unfold toIndex. nia. Qed.

Lemma toIndex_inj size x y x' y' :
  (0 <= x < size)%Z -> (0 <= x' < size)%Z ->
  toIndex size x y = toIndex size x' y' -> x = x' /\ y = y'.
Proof.
  unfold toIndex. intros Hx Hx' E.
  assert (y = y') as -> by nia. lia.
Qed.

Lemma NoDup_cellIndex size : NoDup (map (cellIndex size) (cells size)).
Proof.
  apply NoDup_map_NoDup_ForallPairs.
  - intros [y x] [y' x'] H H' E. apply in_cells in H, H'. simpl in *.
    unfold cellIndex in E; simpl in E.
    destruct (toIndex_inj size x y x' y') as [-> ->]; auto; lia.
  - apply NoDup_list_prod; apply NoDup_range.
Qed.

(** Every index of a [size * size] array is the index of a cell. *)
Lemma index_is_cell size k :
  (0 <= size)%Z -> (0 <= k < size * size)%Z ->
  exists c, In c (cells size) /\ cellIndex size c = k.
Proof.
  intros Hs H. assert (0 < size)%Z by nia.
  exists ((k / size)%Z, (k mod size)%Z). split.
  - apply in_cells; simpl. split.
    + split; [apply Z.div_pos; lia|]. apply Z.div_lt_upper_bound; lia.
    + apply Z.mod_pos_bound; lia.
  - unfold cellIndex, toIndex; simpl.
    pose proof (Z.div_mod k size). lia.
Qed.

(** A loop that rewrites each visited cell from its own old value. *)
Lemma inplace_fold {C : Type} (idx : C -> Z) (val : C -> Q -> Q)
      (G : list Q -> C -> list Q) (cs : list C) :
  (forall w c, G w c = aset w (idx c) (val c (aget w (idx c)))) ->
  NoDup (map idx cs) ->
  forall w,
    (forall c, In c cs -> (0 <= idx c < Z.of_nat (length w))%Z) ->
    length (fold_left G cs w) = length w /\
    (forall c, In c cs -> aget (fold_left G cs w) (idx c) = val c (aget w (idx c))) /\
    (forall k, ~ In k (map idx cs) -> aget (fold_left G cs w) k = aget w k).
Proof.
  intros HG. induction cs as [|c cs IH]; intros Hnd w Hin; simpl.
  - repeat split; auto. intros c [].
  - inversion Hnd as [|? ? Hc Hnd']; subst.
    destruct (IH Hnd' (G w c)) as (Hlen & Hval & Hother).
    { intros c' Hc'. rewrite HG, aset_length. apply Hin. now right. }
    split; [now rewrite Hlen, HG, aset_length|]. split.
    + intros c' [<- | Hc'].
      * rewrite Hother by exact Hc.
        rewrite HG. apply aget_aset_same. apply Hin. now left.
      * rewrite Hval by exact Hc'. f_equal. rewrite HG.
        apply aget_aset_other. intros E. apply Hc. rewrite E.
        now apply in_map.
    + intros k Hk. rewrite Hother by tauto. rewrite HG.
      apply aget_aset_other. intros E. apply Hk. now left.
Qed.

Lemma fold_left_pointwise {S X : Type} (F G : S -> X -> S) (l : list X) (s : S) :
  (forall s x, F s x = G s x) -> fold_left F l s = fold_left G l s.
Proof.
  intros H. revert s. induction l as [|x l IH]; intros s; simpl; auto.
  rewrite H. apply IH.
Qed.

Lemma fold_left_keeps {S X : Type} (P : S -> Prop) (F : S -> X -> S)
      (l : list X) (s : S) :
  (forall s x, P s -> P (F s x)) -> P s -> P (fold_left F l s).
Proof.
  intros H. revert s. induction l as [|x l IH]; intros s Hs; simpl; auto.
Qed.

Lemma nonneg_upd n v w : nonneg w -> 0 <= v -> nonneg (upd n v w).
Proof.
  unfold nonneg. intros Hw Hv. revert n.
  induction Hw as [|h t Hh Ht IH]; intros [|n]; simpl; constructor; auto.
Qed.

Lemma nonneg_aset w i v : nonneg w -> 0 <= v -> nonneg (aset w i v).
Proof.
  intros Hw Hv. unfold aset. destruct (i <? 0)%Z; auto using nonneg_upd.
Qed.

Lemma nonneg_aget w i : nonneg w -> 0 <= aget w i.
Proof.
  intros Hw. unfold aget. destruct (i <? 0)%Z; [apply Qle_refl|].
  generalize (Z.to_nat i). induction Hw as [|h t Hh Ht IH]; intros [|n]; simpl;
    auto; apply Qle_refl.
Qed.

Lemma nonneg_nth w k : nonneg w -> 0 <= nth k w 0.
Proof.
  intros Hw. revert k. induction Hw as [|h t Hh Ht IH]; intros [|n]; simpl;
    auto; apply Qle_refl.
Qed.

Lemma aget_nth a k : aget a (Z.of_nat k) = nth k a 0.
Proof.
  unfold aget. destruct (Z.ltb_spec (Z.of_nat k) 0); [lia|].
  now rewrite Nat2Z.id.
Qed.

Ltac conc_Q := unfold Qle, Qlt, Qeq; simpl; lia.

Module WaterFacts.
Import Water.

Lemma same_frame_refl s : same_frame s s.
Proof. repeat split. Qed.

Lemma same_frame_trans s1 s2 s3 :
  same_frame s1 s2 -> same_frame s2 s3 -> same_frame s1 s3.
Proof.
  unfold same_frame. intros (a1 & a2 & a3 & a4 & a5 & a6 & a7)
                            (b1 & b2 & b3 & b4 & b5 & b6 & b7).
  repeat split; congruence.
Qed.

Lemma set_water_frame s w : same_frame s (set_water s w).
Proof. repeat split. Qed.

Lemma injectSource_frame dt s src : same_frame s (injectSource dt s src).
Proof.
  unfold injectSource. destruct (negb (active src)); [apply same_frame_refl|].
  destruct (negb (inBounds _ _ _)); [apply same_frame_refl|].
  apply set_water_frame.
Qed.

Lemma inject_frame dt srcs s :
  same_frame s (fold_left (injectSource dt) srcs s).
Proof.
  revert s. induction srcs as [|src srcs IH]; intros s; simpl.
  - apply same_frame_refl.
  - eapply same_frame_trans; [apply injectSource_frame | apply IH].
Qed.

Lemma stepWaterWith_frame g cache state params :
  same_frame state (fst (stepWaterWith g cache state params)).
Proof.
  unfold stepWaterWith.
  destruct (getScratch _ _) as [delta cache']. simpl.
  eapply same_frame_trans; [apply inject_frame | apply set_water_frame].
Qed.

(** Lengths. *)
Lemma injectSource_length dt s src :
  length (water (injectSource dt s src)) = length (water s).
Proof.
  unfold injectSource. destruct (negb (active src)); [reflexivity|].
  destruct (negb (inBounds _ _ _)); [reflexivity|].
  simpl. apply aset_length.
Qed.

Lemma inject_length dt srcs s :
  length (water (fold_left (injectSource dt) srcs s)) = length (water s).
Proof.
  revert s. induction srcs as [|src srcs IH]; intros s; simpl; auto.
  rewrite IH. apply injectSource_length.
Qed.

Lemma lossCell_length g size delta df el sp ed dt y w x :
  length (lossCell g size delta df el sp ed dt y w x) = length w.
Proof. unfold lossCell. apply aset_length. Qed.

Lemma lossPass_length g size delta df el sp ed dt w :
  length (lossPass g size delta df el sp ed dt w) = length w.
Proof.
  unfold lossPass. rewrite nested_fold.
  apply (fold_left_keeps (fun w' => length w' = length w)); auto.
  intros w' c H. now rewrite lossCell_length.
Qed.

Lemma stepWaterWith_well_formed g cache state params :
  well_formed state -> well_formed (fst (stepWaterWith g cache state params)).
Proof.
  intros (Hs & Ht & Hw).
  pose proof (stepWaterWith_frame g cache state params) as
      (_ & Esz & _ & Ete & _).
  unfold well_formed. rewrite Esz, Ete. repeat split; auto.
  unfold stepWaterWith. destruct (getScratch _ _) as [delta cache']. simpl.
  now rewrite lossPass_length, inject_length.
Qed.

(** Non-negativity. *)
Lemma injectSource_nonneg dt s src :
  0 <= dt -> nonneg (water s) -> nonneg (water (injectSource dt s src)).
Proof.
  intros Hdt Hw. unfold injectSource. destruct (negb (active src)); [exact Hw|].
  destruct (negb (inBounds _ _ _)); [exact Hw|]. simpl.
  apply nonneg_aset; [exact Hw|].
  pose proof (nonneg_aget (water s)
               (toIndex (size s) (Math_round (src_x src)) (Math_round (src_y src))) Hw).
  pose proof (Qmult_le_0_compat _ _ (Qmax_nonneg (rate src)) Hdt). lra.
Qed.

Lemma inject_nonneg dt srcs s :
  0 <= dt -> nonneg (water s) ->
  nonneg (water (fold_left (injectSource dt) srcs s)).
Proof.
  intros Hdt. apply (fold_left_keeps (fun s => nonneg (water s))).
  intros s' src. now apply injectSource_nonneg.
Qed.

Lemma lossPass_nonneg g size delta df el sp ed dt w :
  nonneg w -> nonneg (lossPass g size delta df el sp ed dt w).
Proof.
  unfold lossPass. rewrite nested_fold. apply fold_left_keeps.
  intros w' c Hw'. unfold lossCell. apply nonneg_aset; [exact Hw'|].
  apply Qmax_nonneg.
Qed.

Lemma dt_positive q : 0 < Qmax (1 # 10000) q.
Proof.
  apply Qlt_le_trans with (1 # 10000); [reflexivity | apply Q.le_max_l].
Qed.

Lemma stepWater_keeps_nonneg cache state params :
  nonneg (water state) -> nonneg (water (fst (stepWater cache state params))).
Proof.
  intros Hw. unfold stepWater, stepWaterWith.
  destruct (getScratch _ _) as [delta cache']. simpl.
  apply lossPass_nonneg, inject_nonneg; [|exact Hw].
  apply Qlt_le_weak, dt_positive.
Qed.

(** *** The outflow pass *)

Lemma transfer_length d i n p s : length (transfer d i n p s) = length d.
Proof.
  unfold transfer. destruct (_ && _); [|reflexivity].
  now rewrite !aset_length.
Qed.

Lemma transfer_spec d i n p s :
  (0 <= i < Z.of_nat (length d))%Z ->
  0 <= p -> 0 <= s ->
  (0 < p -> (0 <= n < Z.of_nat (length d))%Z /\ n <> i) ->
  sumQ (transfer d i n p s) == sumQ d /\
  aget (transfer d i n p s) i == aget d i - p * s /\
  (forall k, k <> i -> aget d k <= aget (transfer d i n p s) k).
Proof.
  intros Hi Hp Hs Hn. unfold transfer.
  destruct (Qgtb p 0) eqn:Ep; simpl.
  - apply Qgtb_true in Ep. destruct (Hn Ep) as [Hn1 Hn2].
    destruct (Z.leb_spec 0 n); [|lia].
    assert (Hps : 0 <= p * s) by now apply Qmult_le_0_compat.
    split; [|split].
    + rewrite sumQ_aset by (rewrite aset_length; lia).
      rewrite sumQ_aset by lia. ring.
    + rewrite aget_aset_other by exact Hn2.
      rewrite aget_aset_same by lia. reflexivity.
    + intros k Hk. destruct (Z.eq_dec k n) as [->|Hkn].
      * rewrite aget_aset_same by (rewrite aset_length; lia).
        rewrite aget_aset_other by congruence. lra.
      * rewrite !aget_aset_other by congruence. apply Qle_refl.
  - apply Qgtb_false in Ep. assert (E : p == 0) by lra.
    split; [reflexivity|]. split; [rewrite E; ring|].
    intros; apply Qle_refl.
Qed.

Lemma transfers_spec i s nps :
  0 <= s ->
  forall d,
    (0 <= i < Z.of_nat (length d))%Z ->
    (forall np, In np nps ->
       0 <= snd np /\
       (0 < snd np -> (0 <= fst np < Z.of_nat (length d))%Z /\ fst np <> i)) ->
    length (transfers i s d nps) = length d /\
    sumQ (transfers i s d nps) == sumQ d /\
    aget (transfers i s d nps) i == aget d i - sumPotentials nps * s /\
    (forall k, k <> i -> aget d k <= aget (transfers i s d nps) k).
Proof.
  intros Hs. induction nps as [|[n p] nps IH]; intros d Hi Hnps; simpl.
  - repeat split; auto; try reflexivity.
    + unfold sumPotentials, sumQ; simpl. ring.
    + intros; apply Qle_refl.
  - destruct (Hnps (n, p) (or_introl eq_refl)) as [Hp Hn]. simpl in Hp, Hn.
    destruct (transfer_spec d i n p s Hi Hp Hs Hn) as (T1 & T2 & T3).
    destruct (IH (transfer d i n p s)) as (I0 & I1 & I2 & I3).
    { now rewrite transfer_length. }
    { intros np Hnp. rewrite transfer_length. apply Hnps. now right. }
    fold (transfers i s (transfer d i n p s) nps).
    rewrite transfer_length in I0.
    split; [exact I0|]. split; [now rewrite I1|]. split.
    + rewrite I2, T2. unfold sumPotentials; simpl. rewrite sumQ_cons. ring.
    + intros k Hk. eapply Qle_trans; [apply T3 | apply I3]; exact Hk.
Qed.

Lemma potentialTo_nonneg state th n fr dt :
  0 <= fr -> 0 <= dt -> 0 <= potentialTo state th n fr dt.
Proof.
  intros Hfr Hdt. unfold potentialTo.
  destruct (Qgtb _ 0) eqn:E; [|apply Qle_refl].
  apply Qgtb_true in E.
  apply Qmult_le_0_compat; [apply Qmult_le_0_compat|]; auto.
  now apply Qlt_le_weak.
Qed.

(** A cell hands out no more than the water it holds. *)
Lemma scaled_outflow_bound cw tp :
  0 < cw -> 0 < tp -> 0 <= Qmin 1 (cw / tp) /\ tp * Qmin 1 (cw / tp) <= cw.
Proof.
  intros Hcw Htp.
  assert (Hq : 0 < cw / tp).
  { unfold Qdiv. apply Qmult_lt_0_compat; [exact Hcw|]. now apply Qinv_lt_0_compat. }
  assert (Hm : tp * (cw / tp) == cw) by (field; lra).
  destruct (Q.min_spec 1 (cw / tp)) as [[H1 H2]|[H1 H2]]; rewrite H2.
  - split; [lra|]. nra.
  - split; [lra|]. rewrite Hm. apply Qle_refl.
Qed.

Section FlowPass.

Variable state : WorldState Q.
Variables flowRate dt : Q.
Hypothesis Hwf : well_formed state.
Hypothesis Hwater : nonneg (water state).
Hypothesis Hfr : 0 <= flowRate.
Hypothesis Hdt : 0 <= dt.

Local Abbreviation N := (length (water state)).

Lemma flowCell_spec d y x :
  length d = N ->
  (0 <= y < size state)%Z -> (0 <= x < size state)%Z ->
  let i := toIndex (size state) x y in
  length (flowCell state flowRate dt y d x) = N /\
  sumQ (flowCell state flowRate dt y d x) == sumQ d /\
  aget d i - aget (water state) i <= aget (flowCell state flowRate dt y d x) i /\
  (forall k, k <> i -> aget d k <= aget (flowCell state flowRate dt y d x) k).
Proof.
  intros Hd Hy Hx i.
  destruct Hwf as (Hs & Hlt & Hlw). fold N in Hlw.
  pose proof (nonneg_aget (water state) i Hwater) as Hwi.
  assert (Hskip : length d = N /\ sumQ d == sumQ d /\
                  aget d i - aget (water state) i <= aget d i /\
                  (forall k, k <> i -> aget d k <= aget d k)).
  { repeat split; auto; try reflexivity; [lra | intros; apply Qle_refl]. }
  unfold flowCell. fold i.
  destruct (Qle_bool (aget (water state) i) 0) eqn:Ecw; [exact Hskip|].
  apply Qle_bool_false in Ecw.
  set (th := aget (terrain state) i + aget (water state) i).
  set (rI := if (x + 1 <? size state)%Z then toIndex (size state) (x + 1) y else (-1)%Z).
  set (rP := if (x + 1 <? size state)%Z
             then potentialTo state th rI flowRate dt else 0).
  set (lI := if (0 <=? x - 1)%Z then toIndex (size state) (x - 1) y else (-1)%Z).
  set (lP := if (0 <=? x - 1)%Z
             then potentialTo state th lI flowRate dt else 0).
  set (uI := if (y + 1 <? size state)%Z then toIndex (size state) x (y + 1) else (-1)%Z).
  set (uP := if (y + 1 <? size state)%Z
             then potentialTo state th uI flowRate dt else 0).
  set (dI := if (0 <=? y - 1)%Z then toIndex (size state) x (y - 1) else (-1)%Z).
  set (dP := if (0 <=? y - 1)%Z
             then potentialTo state th dI flowRate dt else 0).
  destruct (Qle_bool (rP + lP + uP + dP) 0) eqn:Etp; [exact Hskip|].
  apply Qle_bool_false in Etp.
  set (scale := Qmin 1 (aget (water state) i / (rP + lP + uP + dP))).
  destruct (scaled_outflow_bound _ _ Ecw Etp) as [Hs0 Hs1]. fold scale in Hs0, Hs1.
  change (transfer (transfer (transfer (transfer d i rI rP scale) i lI lP scale)
                             i uI uP scale) i dI dP scale)
    with (transfers i scale d [(rI, rP); (lI, lP); (uI, uP); (dI, dP)]).
  assert (Hi : (0 <= i < Z.of_nat (length d))%Z).
  { rewrite Hd, Hlw. apply toIndex_bounds; lia. }
  destruct (transfers_spec i scale [(rI, rP); (lI, lP); (uI, uP); (dI, dP)]
                           Hs0 d Hi) as (T0 & T1 & T2 & T3).
  { intros np Hnp. simpl in Hnp. rewrite Hd, Hlw. unfold i, toIndex.
    destruct Hnp as [<-|[<-|[<-|[<-|[]]]]]; simpl.
    - subst rP rI. destruct (Z.ltb_spec (x + 1) (size state)).
      + split; [now apply potentialTo_nonneg|]. intros _. unfold toIndex. nia.
      + split; [apply Qle_refl|]. intros H'. inversion H'.
    - subst lP lI. destruct (Z.leb_spec 0 (x - 1)).
      + split; [now apply potentialTo_nonneg|]. intros _. unfold toIndex. nia.
      + split; [apply Qle_refl|]. intros H'. inversion H'.
    - subst uP uI. destruct (Z.ltb_spec (y + 1) (size state)).
      + split; [now apply potentialTo_nonneg|]. intros _. unfold toIndex. nia.
      + split; [apply Qle_refl|]. intros H'. inversion H'.
    - subst dP dI. destruct (Z.leb_spec 0 (y - 1)).
      + split; [now apply potentialTo_nonneg|]. intros _. unfold toIndex. nia.
      + split; [apply Qle_refl|]. intros H'. inversion H'. }
  split; [congruence|]. split; [exact T1|]. split; [|exact T3].
  rewrite T2. unfold sumPotentials; simpl. rewrite !sumQ_cons.
  unfold sumQ at 1; simpl.
  assert (E : (rP + (lP + (uP + (dP + 0)))) * scale
              == (rP + lP + uP + dP) * scale) by ring.
  rewrite E. lra.
Qed.

(** The invariant of the pass: the cells still to visit have received
    only; the others have given at most their water. *)
Lemma flow_fold cs :
  NoDup (map (cellIndex (size state)) cs) ->
  (forall c, In c cs -> In c (cells (size state))) ->
  forall d,
    length d = N ->
    (forall k, - aget (water state) k <= aget d k) ->
    (forall c, In c cs -> 0 <= aget d (cellIndex (size state) c)) ->
    let d' := fold_left (fun d c => flowCell state flowRate dt (fst c) d (snd c)) cs d in
    length d' = N /\ sumQ d' == sumQ d /\
    (forall k, - aget (water state) k <= aget d' k).
Proof.
  induction cs as [|c cs IH]; intros Hnd Hcs d Hd Hlow Hpos; simpl.
  - repeat split; auto; reflexivity.
  - inversion Hnd as [|? ? Hc Hnd']; subst.
    assert (Hin : In c (cells (size state))) by (apply Hcs; now left).
    apply in_cells in Hin. destruct Hin as [Hy Hx].
    destruct (flowCell_spec d (fst c) (snd c) Hd Hy Hx) as (F0 & F1 & F2 & F3).
    fold (cellIndex (size state) c) in F2, F3.
    destruct (IH Hnd' (fun c' H' => Hcs c' (or_intror H'))
                 (flowCell state flowRate dt (fst c) d (snd c)) F0)
      as (I0 & I1 & I2).
    + intros k. destruct (Z.eq_dec k (cellIndex (size state) c)) as [->|Hk].
      * pose proof (Hpos c (or_introl eq_refl)). lra.
      * eapply Qle_trans; [apply Hlow | apply F3; exact Hk].
    + intros c' Hc'. eapply Qle_trans; [apply (Hpos c'); now right|].
      apply F3. intros E. apply Hc. rewrite <- E. now apply in_map.
    + split; [exact I0|]. split; [|exact I2]. now rewrite I1.
Qed.

Lemma flowPass_spec d :
  length d = N -> (forall k, aget d k == 0) ->
  length (flowPass state flowRate dt d) = N /\
  sumQ (flowPass state flowRate dt d) == sumQ d /\
  (forall k, - aget (water state) k <= aget (flowPass state flowRate dt d) k).
Proof.
  intros Hd Hz. unfold flowPass. rewrite nested_fold.
  apply (flow_fold (cells (size state))); auto.
  - apply NoDup_cellIndex.
  - intros k. rewrite Hz. pose proof (nonneg_aget (water state) k Hwater). lra.
  - intros c _. rewrite Hz. apply Qle_refl.
Qed.

End FlowPass.

(** Without flow rate nothing moves. *)
Lemma potentialTo_no_flow state th n fr dt :
  fr == 0 -> potentialTo state th n fr dt == 0.
Proof.
  intros E. unfold potentialTo. destruct (Qgtb _ 0); [|reflexivity].
  rewrite E. ring.
Qed.

Lemma flowCell_no_flow state fr dt y d x :
  fr == 0 -> flowCell state fr dt y d x = d.
Proof.
  intros E. unfold flowCell.
  destruct (Qle_bool (aget (water state) _) 0); [reflexivity|].
  match goal with |- (if Qle_bool ?tp 0 then _ else _) = _ =>
    assert (Htp : tp == 0) end.
  { repeat match goal with |- context [if ?b then _ else _] => destruct b end;
      rewrite ?potentialTo_no_flow by exact E; ring. }
  match goal with |- (if ?b then _ else _) = _ => destruct b eqn:Eb end;
    [reflexivity|].
  apply Qle_bool_false in Eb. lra.
Qed.

Lemma flowPass_no_flow state fr dt d :
  fr == 0 -> flowPass state fr dt d = d.
Proof.
  intros E. unfold flowPass. rewrite nested_fold.
  apply (fold_left_keeps (fun d' => d' = d)); [|reflexivity].
  intros d' c ->. now apply flowCell_no_flow.
Qed.

(** *** The loss pass *)

Lemma lossPass_get g size delta df el sp ed dt w c :
  (0 <= size)%Z -> Z.of_nat (length w) = (size * size)%Z ->
  In c (cells size) ->
  aget (lossPass g size delta df el sp ed dt w) (cellIndex size c)
  = lossValue g size delta df el sp ed dt c (aget w (cellIndex size c)).
Proof.
  intros Hs Hw Hc. unfold lossPass. rewrite nested_fold.
  destruct (inplace_fold (cellIndex size)
              (lossValue g size delta df el sp ed dt)
              (fun w c => lossCell g size delta df el sp ed dt (fst c) w (snd c))
              (cells size)) with (w := w) as (_ & H & _).
  - reflexivity.
  - apply NoDup_cellIndex.
  - intros c' Hc'. apply in_cells in Hc'. rewrite Hw.
    apply toIndex_bounds; lia.
  - now apply H.
Qed.

Lemma clamp_between v lo hi : lo <= v -> v <= hi -> clamp v lo hi == v.
Proof.
  intros H1 H2. unfold clamp.
  rewrite (Q.max_r lo v H1). now apply Q.min_r.
Qed.

Lemma dampingFactor_one damping dt :
  damping == 0 -> clamp (1 - Qmax 0 damping * dt) 0 1 == 1.
Proof.
  intros E. rewrite clamp_between.
  - rewrite (Qmax_0_of_zero _ E). ring.
  - rewrite (Qmax_0_of_zero _ E). lra.
  - rewrite (Qmax_0_of_zero _ E). lra.
Qed.

Lemma lossValue_no_loss g size delta df el sp ed dt c wk :
  df == 1 -> el == 0 -> sp == 0 -> ed == 0 ->
  0 <= wk + aget delta (cellIndex size c) ->
  lossValue g size delta df el sp ed dt c wk
  == wk + aget delta (cellIndex size c).
Proof.
  intros Edf Eel Esp Eed H. unfold lossValue, cellIndex in *.
  set (wf := wk + aget delta (toIndex size (snd c) (fst c))) in *.
  assert (E1 : wf * df - el - wf * sp * dt == wf).
  { rewrite Edf, Eel, Esp. ring. }
  assert (E2 : wf * df - el - wf * sp * dt - ed * dt == wf).
  { rewrite Edf, Eel, Esp, Eed. ring. }
  destruct (_ && _).
  - rewrite Q.max_r; [exact E2 | now rewrite E2].
  - rewrite Q.max_r; [exact E1 | now rewrite E1].
Qed.

Lemma lossPass_no_loss g size delta df el sp ed dt w k :
  (0 <= size)%Z -> Z.of_nat (length w) = (size * size)%Z ->
  df == 1 -> el == 0 -> sp == 0 -> ed == 0 ->
  (0 <= k < size * size)%Z ->
  0 <= aget w k + aget delta k ->
  aget (lossPass g size delta df el sp ed dt w) k == aget w k + aget delta k.
Proof.
  intros Hs Hw Edf Eel Esp Eed Hk H.
  destruct (index_is_cell size k Hs Hk) as (c & Hc & <-).
  rewrite lossPass_get by assumption.
  now apply lossValue_no_loss.
Qed.

(** *** The scratch cache *)

Lemma emptyScratch_ok : cache_ok emptyScratch.
Proof. intros n a H. discriminate. Qed.

Lemma scratch_set_ok c n a :
  cache_ok c -> length a = n -> cache_ok (scratch_set c n a).
Proof.
  intros Hc Ha k b. unfold scratch_set.
  destruct (Nat.eqb_spec k n) as [->|_]; [|apply Hc].
  intros E; inversion E; subst; reflexivity.
Qed.

Lemma getScratch_zeros c n :
  cache_ok c -> fst (getScratch c n) = repeat 0 n.
Proof.
  intros Hc. unfold getScratch. destruct (c n) as [a|] eqn:E; simpl; auto.
  apply Hc in E. subst n. induction a as [|h t IH]; simpl; congruence.
Qed.

Lemma aget_zeros n k : aget (repeat 0 n) k = 0.
Proof.
  unfold aget. destruct (k <? 0)%Z; [reflexivity|].
  generalize (Z.to_nat k). induction n as [|n IH]; intros [|m]; simpl; auto.
Qed.

Lemma sumQ_zeros n : sumQ (repeat 0 n) == 0.
Proof.
  induction n as [|n IH]; simpl; [reflexivity|].
  rewrite sumQ_cons, IH. ring.
Qed.

Lemma stepWater_cache_ok cache state params :
  cache_ok cache -> cache_ok (snd (stepWater cache state params)).
Proof.
  intros Hc. unfold stepWater, stepWaterWith.
  pose proof (getScratch_zeros cache
    (length (water (fold_left
       (injectSource (Qmax (1 # 10000) (dt params))) (sources state) state))) Hc)
    as Hz.
  destruct (getScratch _ _) as [delta cache'] eqn:E. simpl in *.
  assert (Hc' : cache_ok cache').
  { unfold getScratch in E. destruct (cache _) as [a|] eqn:Ea;
      inversion E; subst; apply scratch_set_ok; auto.
    - rewrite length_map. now apply Hc.
    - apply repeat_length. }
  apply scratch_set_ok; [exact Hc'|].
  unfold flowPass. rewrite nested_fold.
  apply (fold_left_keeps (fun d => length d = _)).
  - intros d c Hd. unfold flowCell.
    repeat match goal with |- context [if ?b then _ else _] => destruct b end;
      rewrite ?transfer_length; exact Hd.
  - rewrite Hz. apply repeat_length.
Qed.

(** *** Source injection *)

Lemma inject_inactive dt srcs s :
  fold_left (injectSource dt) srcs s
  = fold_left (injectSource dt) (filter active srcs) s.
Proof.
  revert s. induction srcs as [|src srcs IH]; intros s; simpl; [reflexivity|].
  destruct (active src) eqn:E; simpl.
  - apply IH.
  - rewrite <- IH. f_equal. unfold injectSource. now rewrite E.
Qed.

Lemma Math_round_integer q z : q == inject_Z z -> Math_round q = z.
Proof.
  intros E. unfold Math_round.
  assert (E' : q + (1 # 2) == inject_Z z + (1 # 2)) by now rewrite E.
  rewrite (Qfloor_comp _ _ E').
  pose proof (Qfloor_le (inject_Z z + (1 # 2))) as H1.
  pose proof (Qlt_floor (inject_Z z + (1 # 2))) as H2.
  set (f := Qfloor (inject_Z z + (1 # 2))) in *.
  rewrite inject_Z_plus in H2. change (inject_Z 1) with 1 in H2.
  assert (Hle : (f < z + 1)%Z).
  { rewrite Zlt_Qlt, inject_Z_plus. change (inject_Z 1) with 1. lra. }
  assert (Hge : (z < f + 1)%Z).
  { rewrite Zlt_Qlt, inject_Z_plus. change (inject_Z 1) with 1. lra. }
  lia.
Qed.

Lemma no_active_sources srcs :
  Forall (fun s => active s = false) srcs -> filter active srcs = [].
Proof.
  induction 1 as [|s srcs Hs _ IH]; simpl; [reflexivity|]. now rewrite Hs.
Qed.

(** *** One step without losses *)

(** With the four loss coefficients at zero a step adds the deltas of the
    outflow pass to the water left by the sources, cell by cell. *)
Lemma stepWater_no_loss cache state params :
  cache_ok cache -> well_formed state ->
  damping params == 0 -> evaporation params == 0 ->
  orZero (seepage params) == 0 -> orZero (edgeDrain params) == 0 ->
  let dt' := Qmax (1 # 10000) (dt params) in
  let state1 := fold_left (injectSource dt') (sources state) state in
  let delta := flowPass state1 (Qmax 0 (flowRate params)) dt'
                        (repeat 0 (length (water state1))) in
  nonneg (water state1) ->
  length (water (fst (stepWater cache state params))) = length (water state1) /\
  forall k, (0 <= k < size state * size state)%Z ->
    aget (water (fst (stepWater cache state params))) k
    == aget (water state1) k + aget delta k.
Proof.
  intros Hc Hwf Ed Ee Es Eg dt' state1 delta Hnn.
  pose proof (inject_frame dt' (sources state) state) as (_ & Esz & _ & Ete & _).
  fold state1 in Esz, Ete.
  assert (Hwf1 : well_formed state1).
  { destruct Hwf as (H0 & H1 & H2). unfold well_formed.
    rewrite Esz, Ete. repeat split; auto.
    unfold state1. now rewrite inject_length. }
  assert (Hdt : 0 <= dt') by apply Qlt_le_weak, dt_positive.
  destruct (flowPass_spec state1 (Qmax 0 (flowRate params)) dt' Hwf1 Hnn
              (Qmax_nonneg _) Hdt (repeat 0 (length (water state1))))
    as (F0 & F1 & F2).
  { apply repeat_length. }
  { intros k. now rewrite aget_zeros. }
  fold delta in F0, F1, F2.
  unfold stepWater, stepWaterWith. fold dt'. fold state1.
  pose proof (getScratch_zeros cache (length (water state1)) Hc) as Hz.
  destruct (getScratch cache (length (water state1))) as [d0 cache'].
  simpl in Hz. subst d0. fold delta. simpl.
  split; [apply lossPass_length|].
  intros k Hk. destruct Hwf1 as (H0 & H1 & H2).
  rewrite <- Esz in Hk.
  apply lossPass_no_loss; auto.
  - now apply dampingFactor_one.
  - rewrite (Qmax_0_of_zero _ Ee). ring.
  - now apply Qmax_0_of_zero.
  - now apply Qmax_0_of_zero.
  - pose proof (F2 k). lra.
Qed.

Lemma pond_well_formed : well_formed pond.
Proof. unfold well_formed; simpl; lia. Qed.

Lemma pond_nonneg : nonneg (water pond).
Proof. unfold nonneg; simpl. repeat constructor; conc_Q. Qed.

(** *** The stated properties of the water step *)

(** C1, amended.  Mass conservation of the flow step, in exact
    arithmetic: on a well-formed state with non-negative water and no
    active source, a step with damping, evaporation, seepage and edge
    drain at zero, computed without rounding, leaves [totalWater]
    unchanged (so within the 1e-5 tolerance), whatever the initial
    distribution, the flow rate and the tick length.  The flow moves
    water and neither makes nor loses any; on the machine the total then
    moves only by the float32 rounding of the cells, which 1e-5 does not
    bound (see [MachineFacts]). *)
Theorem stepWater_conserves_mass cache state params :
  cache_ok cache -> well_formed state -> nonneg (water state) ->
  Forall (fun s => active s = false) (sources state) ->
  damping params == 0 -> evaporation params == 0 ->
  orZero (seepage params) == 0 -> orZero (edgeDrain params) == 0 ->
  totalWater (fst (stepWater cache state params)) == totalWater state /\
  Qabs (totalWater (fst (stepWater cache state params)) - totalWater state)
  < 1 # 100000.
Proof.
  intros Hc Hwf Hnn Hsrc Ed Ee Es Eg.
  assert (E : totalWater (fst (stepWater cache state params))
              == totalWater state).
  { pose proof (stepWater_no_loss cache state params Hc Hwf Ed Ee Es Eg) as H.
    cbv zeta in H. rewrite inject_inactive, (no_active_sources _ Hsrc) in H.
    simpl fold_left in H. destruct (H Hnn) as [Hlen Hget]. clear H.
    destruct (flowPass_spec state (Qmax 0 (flowRate params))
                (Qmax (1 # 10000) (dt params)) Hwf Hnn (Qmax_nonneg _)
                (Qlt_le_weak _ _ (dt_positive _))
                (repeat 0 (length (water state)))) as (F0 & F1 & _).
    { apply repeat_length. }
    { intros k. now rewrite aget_zeros. }
    unfold totalWater.
    rewrite (sumQ_pointwise _ (water state)
               (flowPass state (Qmax 0 (flowRate params))
                  (Qmax (1 # 10000) (dt params))
                  (repeat 0 (length (water state))))); auto.
    - rewrite F1, sumQ_zeros. ring.
    - congruence.
    - intros k Hk. rewrite <- !aget_nth. apply Hget.
      destruct Hwf as (_ & _ & Hw). rewrite Hlen in Hk. lia. }
  split; [exact E|]. rewrite E.
  setoid_replace (totalWater state - totalWater state) with 0 by ring.
  reflexivity.
Qed.

Lemma stepWater_conserves_mass_witness :
  cache_ok emptyScratch /\ well_formed pond /\ nonneg (water pond) /\
  totalWater (fst (stepWater emptyScratch pond flowOnly)) == totalWater pond.
Proof.
  split; [intros n a H; discriminate H|].
  split; [unfold well_formed; simpl; lia|].
  split; [unfold nonneg; simpl; repeat constructor; conc_Q|].
  apply (stepWater_conserves_mass emptyScratch pond flowOnly).
  - intros n a H; discriminate H.
  - unfold well_formed; simpl; lia.
  - unfold nonneg; simpl; repeat constructor; conc_Q.
  - constructor.
  - reflexivity.
  - reflexivity.
  - reflexivity.
  - reflexivity.
Defined.

(** Non-negativity in exact arithmetic: from a well-formed state with
    non-negative water, after any number of steps, each with parameters
    of its own and computed without rounding and overflow, every water
    cell is non-negative.  The parameters need not even be non-negative:
    the step clamps them.  What holds on the machine, where a cell can
    turn [NaN], is stated in [MachineFacts]. *)
Theorem stepWater_nonnegative ticks : forall cache state,
  well_formed state -> nonneg (water state) ->
  Forall (fun v => 0 <= v) (water (fst (stepMany cache state ticks))).
Proof.
  induction ticks as [|p ticks IH]; intros cache state Hwf Hnn; simpl.
  - exact Hnn.
  - pose proof (stepWaterWith_well_formed true cache state p Hwf) as Hwf'.
    pose proof (stepWater_keeps_nonneg cache state p Hnn) as Hnn'.
    fold stepWater in Hwf'.
    destruct (stepWater cache state p) as [s c]. now apply IH.
Qed.

Lemma stepWater_nonnegative_witness :
  well_formed pond /\ nonneg (water pond) /\
  Forall (fun v => 0 <= v)
         (water (fst (stepMany emptyScratch pond
                        [flowOnly; mkParams 1 2 (1 # 2) (1 # 10) (Some (1 # 5)) (Some 3)]))).
Proof.
  split; [unfold well_formed; simpl; lia|].
  split; [unfold nonneg; simpl; repeat constructor; conc_Q|].
  apply (stepWater_nonnegative _ emptyScratch pond).
  - unfold well_formed; simpl; lia.
  - unfold nonneg; simpl; repeat constructor; conc_Q.
Defined.

(** C10.  Frame: a step changes no field of the state but [water]; the
    terrain array, the source list (with every source's id, coordinates,
    rate and active flag), [size], the two seeds, [time] and [version]
    are those of the state it was given. *)
Theorem stepWater_frame cache state params :
  let state' := fst (stepWater cache state params) in
  terrain state' = terrain state /\
  sources state' = sources state /\
  size state' = size state /\
  terrainSeed state' = terrainSeed state /\
  vegetationSeed state' = vegetationSeed state /\
  time state' = time state /\
  version state' = version state.
Proof.
  pose proof (stepWaterWith_frame true cache state params) as
      (H1 & H2 & H3 & H4 & H5 & H6 & H7).
  cbv zeta. unfold stepWater. repeat split; assumption.
Qed.

(** The floor at 0 absorbs every value that is not positive. *)
Lemma Qmax_0_nonpos a : a <= 0 -> Qmax 0 a = 0.
Proof.
  intros H. unfold Qmax, GenericMinMax.gmax.
  destruct (0 ?= a) eqn:E; auto.
  apply Qlt_alt in E. exfalso. apply (Qlt_not_le _ _ E H).
Qed.

Lemma lossCell_guard g size delta df el sp ed dt y w x :
  0 <= ed * dt ->
  lossCell g size delta df el sp ed dt y w x
  = lossCell false size delta df el sp ed dt y w x.
Proof.
  intros H. destruct g; [|reflexivity]. unfold lossCell. f_equal.
  destruct ((x =? 0)%Z || (y =? 0)%Z || (x =? size - 1)%Z || (y =? size - 1)%Z);
    [|reflexivity].
  simpl. destruct (Qgtb _ 0) eqn:E; [reflexivity|].
  apply Qgtb_false in E.
  rewrite (Qmax_0_nonpos _ E). symmetry. apply Qmax_0_nonpos. lra.
Qed.

(** C7.  The guard [next > 0] on the edge-drain term is redundant with the
    floor at 0: the step as coded and the step that subtracts
    [edgeDrain * dt] on every border cell before the floor return the
    same state (hence the same water array) and the same scratch cache,
    for every state and all parameters. *)
Theorem edge_drain_guard_redundant cache state params :
  stepWater cache state params = stepWater_unguarded cache state params.
Proof.
  unfold stepWater, stepWater_unguarded, stepWaterWith.
  destruct (getScratch _ _) as [delta cache']. f_equal. f_equal.
  unfold lossPass.
  apply fold_left_pointwise. intros w y.
  apply fold_left_pointwise. intros w' x.
  apply lossCell_guard.
  apply Qmult_le_0_compat; [apply Qmax_nonneg|].
  apply Qlt_le_weak, dt_positive.
Qed.

(** The floor on the tick, in exact arithmetic: with a tick of 0.00005 s,
    shorter than the floor of 0.0001 s the step puts on [dt], the source
    cell of [spring] receives 0.0001, not [1 * 0.00005]. *)
Lemma source_injection_short_tick :
  well_formed spring /\
  filter active (sources spring) = [springCell] /\
  inBounds (size spring) 0 0 = true /\
  0 <= rate springCell /\ 0 < 1 # 20000 /\
  aget (water (fst (stepWater emptyScratch spring (still (1 # 20000))))) 0
  == 1 # 10000 /\
  ~ aget (water (fst (stepWater emptyScratch spring (still (1 # 20000))))) 0
    == rate springCell * (1 # 20000).
Proof.
  repeat split; try (simpl; lia); try (vm_compute; congruence).
Qed.

(** The source scenario in exact arithmetic: one active source at the
    in-bounds cell [(x0, y0)] with rate [r >= 0], all water zero, one
    step with a tick of [tick] seconds and flow rate, damping,
    evaporation, seepage and edge drain at zero, computed without
    rounding: the source cell holds [r * max(0.0001, tick)], which is
    [r * tick] for every tick of at least 0.0001 s, and every other cell
    holds 0.  What the float32 cell of the machine holds is stated in
    [MachineFacts]. *)
Theorem source_injection_scenario cache state params s0 x0 y0 r tick :
  cache_ok cache -> well_formed state ->
  Forall (fun v => v == 0) (water state) ->
  filter active (sources state) = [s0] ->
  src_x s0 == inject_Z x0 -> src_y s0 == inject_Z y0 ->
  inBounds (size state) x0 y0 = true ->
  rate s0 == r -> 0 <= r ->
  dt params == tick ->
  flowRate params == 0 -> damping params == 0 -> evaporation params == 0 ->
  orZero (seepage params) == 0 -> orZero (edgeDrain params) == 0 ->
  let water' := water (fst (stepWater cache state params)) in
  let i0 := toIndex (size state) x0 y0 in
  aget water' i0 == r * Qmax (1 # 10000) tick /\
  ((1 # 10000) <= tick -> aget water' i0 == r * tick) /\
  (forall k, (0 <= k < size state * size state)%Z -> k <> i0 ->
             aget water' k == 0).
Proof.
  intros Hc Hwf Hzero Hsrc Ex Ey Hin Er Hr Edt Efr Ed Ee Es Eg water' i0.
  assert (Hz : forall k, aget (water state) k == 0).
  { intros k. unfold aget. destruct (k <? 0)%Z; [reflexivity|].
    generalize (Z.to_nat k). induction Hzero as [|v t Hv _ IH];
      intros [|n]; simpl; auto; reflexivity. }
  assert (Hi0 : (0 <= i0 < Z.of_nat (length (water state)))%Z).
  { destruct Hwf as (_ & _ & ->). unfold inBounds in Hin.
    apply toIndex_bounds; lia. }
  pose proof (stepWater_no_loss cache state params Hc Hwf Ed Ee Es Eg) as H.
  cbv zeta in H. rewrite inject_inactive, Hsrc in H. simpl fold_left in H.
  rewrite (flowPass_no_flow _ _ _ _ (Qmax_0_of_zero _ Efr)) in H.
  assert (Est : injectSource (Qmax (1 # 10000) (dt params)) state s0
                = set_water state
                    (aset (water state) i0
                       (aget (water state) i0
                        + Qmax 0 (rate s0) * Qmax (1 # 10000) (dt params)))).
  { unfold injectSource.
    assert (Ha : active s0 = true).
    { assert (In s0 (filter active (sources state))) by (rewrite Hsrc; now left).
      apply filter_In in H0. tauto. }
    rewrite Ha, (Math_round_integer _ _ Ex), (Math_round_integer _ _ Ey), Hin.
    reflexivity. }
  rewrite Est in H. simpl water in H.
  assert (Eamount : aget (water state) i0
                    + Qmax 0 (rate s0) * Qmax (1 # 10000) (dt params)
                    == r * Qmax (1 # 10000) tick).
  { rewrite Hz, (Qmax_0_of_nonneg (rate s0)) by (rewrite Er; exact Hr).
    rewrite Er. rewrite (Q.max_compat _ _ (Qeq_refl (1 # 10000)) _ _ Edt). ring. }
  destruct H as [_ Hget].
  { apply nonneg_aset.
    - unfold nonneg. clear - Hzero. induction Hzero as [|v t Hv _ IH];
        constructor; auto. rewrite Hv. apply Qle_refl.
    - rewrite Eamount. apply Qmult_le_0_compat; [exact Hr|].
      apply Qlt_le_weak. apply Qlt_le_trans with (1 # 10000);
        [reflexivity | apply Q.le_max_l]. }
  assert (Hself : aget water' i0 == r * Qmax (1 # 10000) tick).
  { unfold water'. rewrite Hget.
    - rewrite aget_aset_same by exact Hi0. rewrite aget_zeros, Eamount. ring.
    - destruct Hwf as (_ & _ & Hw). rewrite <- Hw. exact Hi0. }
  split; [exact Hself|]. split.
  - intros Htick. rewrite Hself, (Q.max_r _ _ Htick). reflexivity.
  - intros k Hk Hne. unfold water'. rewrite Hget by exact Hk.
    rewrite aget_aset_other by congruence. rewrite aget_zeros, Hz. ring.
Qed.

Lemma source_injection_scenario_witness :
  well_formed spring /\
  aget (water (fst (stepWater emptyScratch spring (still (1 # 30))))) 0
  == 1 * (1 # 30).
Proof.
  split; [unfold well_formed; simpl; lia|].
  refine (proj1 (proj2 (source_injection_scenario emptyScratch spring
                   (still (1 # 30)) springCell 0 0 1 (1 # 30)
                   _ _ _ _ _ _ _ _ _ _ _ _ _ _ _)) _);
    try reflexivity; try conc_Q.
  - intros n a H; discriminate H.
  - unfold well_formed; simpl; lia.
  - repeat constructor.
Defined.

End WaterFacts.

(** ** The flatten brush *)

Module TerrainFacts.
Import Terrain.

Lemma in_rangeFrom lo hi x : In x (rangeFrom lo hi) <-> (lo <= x <= hi)%Z.
Proof.
  unfold rangeFrom. rewrite in_map_iff. split.
  - intros [k [<- Hk]]. apply in_seq in Hk. lia.
  - intros H. exists (Z.to_nat (x - lo)). split; [lia|]. apply in_seq. lia.
Qed.

Lemma NoDup_rangeFrom lo hi : NoDup (rangeFrom lo hi).
Proof.
  unfold rangeFrom. apply NoDup_map_NoDup_ForallPairs; [|apply seq_NoDup].
  intros a b _ _ H. lia.
Qed.

(** The cells of a rectangle of columns inside the grid have distinct
    indices. *)
Lemma NoDup_cellIndex_rect size ys xs :
  NoDup ys -> NoDup xs -> (forall x, In x xs -> (0 <= x < size)%Z) ->
  NoDup (map (cellIndex size) (list_prod ys xs)).
Proof.
  intros Hys Hxs Hb. apply NoDup_map_NoDup_ForallPairs.
  - intros [y x] [y' x'] H H' E.
    apply in_prod_iff in H, H'. destruct H as [_ H], H' as [_ H'].
    unfold cellIndex in E; simpl in E.
    destruct (toIndex_inj size x y x' y') as [-> ->]; auto.
  - now apply NoDup_list_prod.
Qed.

Lemma upd_nth_id n (l : list Q) : upd n (nth n l 0) l = l.
Proof.
  revert n. induction l as [|h t IH]; intros [|n]; simpl; auto.
  now rewrite IH.
Qed.

Lemma aset_aget_id a i : aset a i (aget a i) = a.
Proof.
  unfold aset, aget. destruct (i <? 0)%Z; [reflexivity | apply upd_nth_id].
Qed.

Lemma abs_diff_le x y : x <= y -> Qabs (x - y) == y - x.
Proof. intros H. rewrite Qabs_neg by lra. ring. Qed.

Lemma abs_diff_ge x y : y <= x -> Qabs (x - y) == x - y.
Proof. intros H. rewrite Qabs_pos by lra. ring. Qed.

Lemma clamp_cases v lo hi :
  lo <= hi ->
  (clamp v lo hi == v /\ lo <= v <= hi) \/
  (clamp v lo hi == lo /\ v <= lo) \/
  (clamp v lo hi == hi /\ hi <= v).
Proof.
  intros H. unfold clamp.
  destruct (Q.max_spec lo v) as [[H1 E1]|[H1 E1]];
    destruct (Q.min_spec hi (Qmax lo v)) as [[H2 E2]|[H2 E2]];
    rewrite E2, ?E1 in *.
  - right; right. split; [reflexivity | lra].
  - left. split; [reflexivity | lra].
  - right; right. split; [reflexivity|]. lra.
  - right; left. split; [reflexivity | lra].
Qed.

Lemma clamp_compat v v' lo hi : v == v' -> clamp v lo hi == clamp v' lo hi.
Proof.
  intros E. unfold clamp.
  apply Q.min_compat; [reflexivity|]. now apply Q.max_compat.
Qed.

Lemma clamp_in_range v lo hi : lo <= hi -> lo <= clamp v lo hi <= hi.
Proof.
  intros H. destruct (clamp_cases v lo hi H) as [[E ?]|[[E ?]|[E ?]]];
    rewrite E; lra.
Qed.

Lemma bounds_ordered : MIN_TERRAIN_HEIGHT <= MAX_TERRAIN_HEIGHT.
Proof. unfold MIN_TERRAIN_HEIGHT, MAX_TERRAIN_HEIGHT. lra. Qed.

(** The part of a gap a stroke closes. *)
Lemma stroke_part g s :
  (1 # 100) <= s -> s <= 1 -> 0 <= g ->
  0 <= g * s /\ g * s <= g /\ (0 < g -> 0 < g * s).
Proof. intros H1 H2 H3. repeat split; nra. Qed.

Lemma flattenStep_target_in_range target s h :
  (1 # 100) <= s -> s <= 1 ->
  MIN_TERRAIN_HEIGHT <= target -> target <= MAX_TERRAIN_HEIGHT ->
  Qabs (flattenStep target s h - target) <= Qabs (h - target) /\
  (~ h == target ->
   Qabs (flattenStep target s h - target) < Qabs (h - target)) /\
  (h <= target -> flattenStep target s h <= target) /\
  (target <= h -> target <= flattenStep target s h).
Proof.
  intros Hs1 Hs2 Hlo Hhi. unfold flattenStep.
  pose proof bounds_ordered as Hb.
  destruct (clamp_cases (h + (target - h) * s)
              MIN_TERRAIN_HEIGHT MAX_TERRAIN_HEIGHT Hb) as [[E ?]|[[E ?]|[E ?]]];
    set (c := clamp (h + (target - h) * s) MIN_TERRAIN_HEIGHT MAX_TERRAIN_HEIGHT) in *;
    destruct (Qlt_le_dec h target) as [Hlt | Hge].
  1,3,5: destruct (stroke_part (target - h) s Hs1 Hs2) as (P1 & P2 & P3); [lra|];
    assert (0 < (target - h) * s) by (apply P3; lra);
    rewrite (abs_diff_le c target), (abs_diff_le h target) by lra;
    repeat split; intros; lra.
  all: destruct (stroke_part (h - target) s Hs1 Hs2) as (P1 & P2 & P3); [lra|];
    assert (Ep : (target - h) * s == - ((h - target) * s)) by ring;
    rewrite (abs_diff_ge c target), (abs_diff_ge h target) by lra;
    repeat split; intros; try lra;
    assert (0 < (h - target) * s) by (apply P3; lra); lra.
Qed.

Lemma flattenStep_height_in_range target s h :
  (1 # 100) <= s -> s <= 1 ->
  MIN_TERRAIN_HEIGHT <= h -> h <= MAX_TERRAIN_HEIGHT ->
  Qabs (flattenStep target s h - target) <= Qabs (h - target) /\
  (h <= target -> flattenStep target s h <= target) /\
  (target <= h -> target <= flattenStep target s h).
Proof.
  intros Hs1 Hs2 Hlo Hhi. unfold flattenStep.
  pose proof bounds_ordered as Hb.
  destruct (clamp_cases (h + (target - h) * s)
              MIN_TERRAIN_HEIGHT MAX_TERRAIN_HEIGHT Hb) as [[E ?]|[[E ?]|[E ?]]];
    set (c := clamp (h + (target - h) * s) MIN_TERRAIN_HEIGHT MAX_TERRAIN_HEIGHT) in *;
    destruct (Qlt_le_dec h target) as [Hlt | Hge].
  1,3,5: destruct (stroke_part (target - h) s Hs1 Hs2) as (P1 & P2 & P3); [lra|];
    rewrite (abs_diff_le c target), (abs_diff_le h target) by lra;
    repeat split; intros; lra.
  all: destruct (stroke_part (h - target) s Hs1 Hs2) as (P1 & P2 & P3); [lra|];
    assert (Ep : (target - h) * s == - ((h - target) * s)) by ring;
    rewrite (abs_diff_ge c target), (abs_diff_ge h target) by lra;
    repeat split; intros; lra.
Qed.

Lemma sqrtApprox_zero q : q == 0 -> sqrtApprox q == 0.
Proof.
  intros E. unfold sqrtApprox.
  assert (E' : q * 1000000000000 == 0) by (rewrite E; ring).
  rewrite (Qfloor_comp _ _ E'). reflexivity.
Qed.

Section Flatten.

Variable Math_sqrt : Q -> Q.
Hypothesis Math_sqrt_zero : forall q, q == 0 -> Math_sqrt q == 0.

Lemma brushCell_form size cx cy radius strength tool brush t c :
  brushCell Math_sqrt size cx cy radius strength tool brush (fst c) t (snd c)
  = aset t (cellIndex size c)
         (brushValue Math_sqrt cx cy radius strength tool brush c (aget t (cellIndex size c))).
Proof.
  unfold brushCell, brushValue, cellIndex.
  destruct (Qgtb _ radius); [symmetry; apply aset_aget_id | reflexivity].
Qed.

Lemma applyBrush_keeps state cx cy tool brush :
  size (applyBrush Math_sqrt state cx cy tool brush) = size state /\
  length (terrain (applyBrush Math_sqrt state cx cy tool brush))
  = length (terrain state) /\
  water (applyBrush Math_sqrt state cx cy tool brush) = water state.
Proof.
  unfold applyBrush. destruct tool; simpl; repeat split; auto;
    rewrite nested_fold;
    apply (fold_left_keeps (fun t => length t = length (terrain state))); auto;
    intros t c Ht; rewrite brushCell_form, aset_length; exact Ht.
Qed.

Lemma applyBrush_well_formed state cx cy tool brush :
  well_formed state -> well_formed (applyBrush Math_sqrt state cx cy tool brush).
Proof.
  intros (H0 & H1 & H2).
  destruct (applyBrush_keeps state cx cy tool brush) as (E1 & E2 & E3).
  unfold well_formed. now rewrite E1, E2, E3.
Qed.

Lemma strokes_well_formed n state cx cy brush :
  well_formed state ->
  well_formed (strokes Math_sqrt n state cx cy brush) /\
  size (strokes Math_sqrt n state cx cy brush) = size state.
Proof.
  intros Hwf. induction n as [|n [IH1 IH2]]; cbn [strokes]; [now split|].
  split; [now apply applyBrush_well_formed|].
  destruct (applyBrush_keeps (strokes Math_sqrt n state cx cy brush)
                             cx cy flatten brush) as (E & _). congruence.
Qed.

(** One flatten stroke, seen from the centre cell. *)
Lemma applyBrush_center state x0 y0 brush :
  well_formed state -> inBounds (size state) x0 y0 = true ->
  aget (terrain (applyBrush Math_sqrt state (inject_Z x0) (inject_Z y0)
                            flatten brush))
       (toIndex (size state) x0 y0)
  == flattenStep (flattenHeight brush) (clamp (strength brush) (1 # 100) 1)
                 (aget (terrain state) (toIndex (size state) x0 y0)).
Proof.
  intros (Hs & Ht & _) Hin. unfold inBounds in Hin.
  assert (Hx : (0 <= x0 < size state)%Z) by lia.
  assert (Hy : (0 <= y0 < size state)%Z) by lia.
  unfold applyBrush, set_terrain. cbn [terrain]. rewrite nested_fold.
  set (r := Qmax 1 (radius brush)).
  assert (Hr : 1 <= r) by apply Q.le_max_l.
  set (minX := Z.max 0 (Qfloor (inject_Z x0 - r))).
  set (maxX := Z.min (size state - 1) (Qceiling (inject_Z x0 + r))).
  set (minY := Z.max 0 (Qfloor (inject_Z y0 - r))).
  set (maxY := Z.min (size state - 1) (Qceiling (inject_Z y0 + r))).
  assert (Hfloor : forall z, (Qfloor (inject_Z z - r) <= z)%Z).
  { intros z. rewrite Zle_Qle. pose proof (Qfloor_le (inject_Z z - r)). lra. }
  assert (Hceil : forall z, (z <= Qceiling (inject_Z z + r))%Z).
  { intros z. rewrite Zle_Qle. pose proof (Qle_ceiling (inject_Z z + r)). lra. }
  destruct (inplace_fold (cellIndex (size state))
              (brushValue Math_sqrt (inject_Z x0) (inject_Z y0) r
                          (clamp (strength brush) (1 # 100) 1) flatten brush)
              (fun t c => brushCell Math_sqrt (size state) (inject_Z x0) (inject_Z y0)
                                    r (clamp (strength brush) (1 # 100) 1)
                                    flatten brush (fst c) t (snd c))
              (list_prod (rangeFrom minY maxY) (rangeFrom minX maxX)))
    with (w := terrain state) as (_ & H & _).
  - intros w c. apply brushCell_form.
  - apply NoDup_cellIndex_rect; try apply NoDup_rangeFrom.
    intros x Hx'. apply in_rangeFrom in Hx'. lia.
  - intros [y x] Hc. apply in_prod_iff in Hc.
    rewrite !in_rangeFrom in Hc. rewrite Ht.
    unfold cellIndex; simpl. apply toIndex_bounds; lia.
  - specialize (H (y0, x0)). unfold cellIndex in H; simpl fst in H; simpl snd in H.
    rewrite H.
    + unfold brushValue, flattenStep. simpl fst; simpl snd.
      set (d := Math_sqrt _).
      assert (Hd : d == 0) by (apply Math_sqrt_zero; ring).
      assert (Egt : Qgtb d r = false) by (apply Qgtb_false; lra).
      rewrite Egt. apply clamp_compat. rewrite Hd. unfold Qdiv. ring.
    + apply in_prod_iff. rewrite !in_rangeFrom.
      pose proof (Hfloor x0). pose proof (Hfloor y0).
      pose proof (Hceil x0). pose proof (Hceil y0). lia.
Qed.

Lemma centreHeight_step state x0 y0 brush k :
  well_formed state -> inBounds (size state) x0 y0 = true ->
  centreHeight Math_sqrt state x0 y0 brush (S k)
  == flattenStep (flattenHeight brush) (clamp (strength brush) (1 # 100) 1)
                 (centreHeight Math_sqrt state x0 y0 brush k).
Proof.
  intros Hwf Hin. unfold centreHeight. cbn [strokes].
  destruct (strokes_well_formed k state (inject_Z x0) (inject_Z y0) brush Hwf)
    as [Hwf' Esz].
  rewrite <- Esz. apply applyBrush_center; [exact Hwf' | now rewrite Esz].
Qed.

Lemma centreHeight_in_range state x0 y0 brush k :
  well_formed state -> inBounds (size state) x0 y0 = true ->
  MIN_TERRAIN_HEIGHT <= centreHeight Math_sqrt state x0 y0 brush 0 <= MAX_TERRAIN_HEIGHT ->
  MIN_TERRAIN_HEIGHT <= centreHeight Math_sqrt state x0 y0 brush k <= MAX_TERRAIN_HEIGHT.
Proof.
  intros Hwf Hin H0. destruct k as [|k]; [exact H0|].
  rewrite centreHeight_step by assumption.
  apply clamp_in_range, bounds_ordered.
Qed.

End Flatten.

(** The height bounds stop a flatten stroke, in exact arithmetic too: on
    [plateau], whose cell is at 24, a flatten stroke towards 30 is
    clamped back to 24, so the distance to the target stays 6 although
    the height is not the target. *)
Lemma flatten_stalls_at_bound :
  well_formed plateau /\ inBounds (size plateau) 0 0 = true /\
  ~ aget (terrain plateau) 0 == 30 /\
  ~ Qabs (aget (terrain (applyBrush sqrtApprox plateau 0 0 flatten
                                    (mkBrush 1 (1 # 2) 30))) 0 - 30)
    < Qabs (aget (terrain plateau) 0 - 30).
Proof.
  repeat split; try (simpl; lia); vm_compute; congruence.
Qed.

(** C6, amended.  In exact arithmetic: repeated flatten strokes at a
    fixed in-bounds centre with the same settings, computed without
    rounding and seen from the centre cell.  When the target lies within
    the height bounds [-12, 24]: the distance to the target decreases
    with each stroke, strictly while the height is not the target, and
    the height never passes the target.  When the target lies outside the
    bounds and the terrain starts within them: the distance never
    increases and the height never passes the target (it stops at the
    bound).  On the float32 cells of the machine a stroke can pass the
    target by the rounding of the store, or stop short of it (see
    [MachineFacts]). *)
Theorem flatten_converges (Math_sqrt : Q -> Q) state x0 y0 brush n :
  (forall q, q == 0 -> Math_sqrt q == 0) ->
  well_formed state -> inBounds (size state) x0 y0 = true ->
  let h := centreHeight Math_sqrt state x0 y0 brush in
  let target := flattenHeight brush in
  (MIN_TERRAIN_HEIGHT <= target <= MAX_TERRAIN_HEIGHT \/
   MIN_TERRAIN_HEIGHT <= h O <= MAX_TERRAIN_HEIGHT) ->
  Qabs (h (S n) - target) <= Qabs (h n - target) /\
  (h n <= target -> h (S n) <= target) /\
  (target <= h n -> target <= h (S n)) /\
  (MIN_TERRAIN_HEIGHT <= target <= MAX_TERRAIN_HEIGHT ->
   ~ h n == target -> Qabs (h (S n) - target) < Qabs (h n - target)).
Proof.
  intros Hsqrt Hwf Hin h target Hrange.
  pose proof (centreHeight_step Math_sqrt Hsqrt state x0 y0 brush n Hwf Hin) as E.
  fold h in E. fold target in E.
  set (s := clamp (strength brush) (1 # 100) 1) in E.
  assert (Hs : (1 # 100) <= s <= 1) by (apply clamp_in_range; lra).
  assert (Hstrict : MIN_TERRAIN_HEIGHT <= target <= MAX_TERRAIN_HEIGHT ->
                    ~ h n == target ->
                    Qabs (h (S n) - target) < Qabs (h n - target)).
  { intros [T1 T2] Hne. rewrite E.
    now apply (flattenStep_target_in_range target s (h n)). }
  destruct Hrange as [[T1 T2] | H0].
  - destruct (flattenStep_target_in_range target s (h n)) as (A & _ & C & D);
      try tauto.
    refine (conj _ (conj _ (conj _ Hstrict))); rewrite E; tauto.
  - pose proof (centreHeight_in_range Math_sqrt Hsqrt state x0 y0 brush n
                  Hwf Hin H0) as Hn. fold h in Hn.
    destruct (flattenStep_height_in_range target s (h n)) as (A & C & D);
      try tauto.
    refine (conj _ (conj _ (conj _ Hstrict))); rewrite E; tauto.
Qed.

Lemma flatten_converges_witness :
  well_formed mesa /\ inBounds (size mesa) 1 1 = true /\
  Qabs (centreHeight sqrtApprox mesa 1 1 (mkBrush 4 (1 # 2) 0) 3 - 0)
  <= Qabs (centreHeight sqrtApprox mesa 1 1 (mkBrush 4 (1 # 2) 0) 2 - 0).
Proof.
  split; [unfold well_formed; simpl; lia|].
  split; [reflexivity|].
  refine (proj1 (flatten_converges sqrtApprox mesa 1 1 (mkBrush 4 (1 # 2) 0) 2
                   sqrtApprox_zero _ _ _)).
  - unfold well_formed; simpl; lia.
  - reflexivity.
  - left. simpl. unfold MIN_TERRAIN_HEIGHT, MAX_TERRAIN_HEIGHT. split; conc_Q.
Defined.

End TerrainFacts.

(** ** Rain and cloud cover *)

Module ClimateFacts.
Import Climate.

Lemma saturate_nonpos v : v <= 0 -> saturate v == 0.
Proof.
  intros H. unfold saturate.
  destruct (Q.min_spec 1 v) as [[H1 E]|[H1 E]];
    rewrite (Q.max_compat _ _ (Qeq_refl 0) _ _ E); apply Q.max_l; lra.
Qed.

(** [smoothstep] is 0 up to the lower edge. *)
Lemma smoothstep_below edge0 edge1 value :
  edge0 < edge1 -> value <= edge0 -> smoothstep edge0 edge1 value == 0.
Proof.
  intros He Hv. unfold smoothstep.
  destruct (Qeq_bool edge0 edge1) eqn:E.
  - apply Qeq_bool_iff in E. lra.
  - assert (Hq : (value - edge0) / (edge1 - edge0) <= 0).
    { unfold Qdiv.
      assert (0 < / (edge1 - edge0)) by (apply Qinv_lt_0_compat; lra).
      assert (value - edge0 <= 0) by lra. nra. }
    rewrite (saturate_nonpos _ Hq). ring.
Qed.

(** C8.  In simulation mode (no weather override) the rain intensity of
    [createClimateState] is 0 whenever the cloudiness it computes is at
    or below 0.6; so rain is positive only once cloudiness exceeds 0.6. *)
Theorem rain_needs_clouds (Math_sin : Q -> Q) (Math_PI : Q)
        (time seed phase : Q) (windOverride : option WindOverride) :
  let climate :=
    createClimateState Math_sin Math_PI time seed phase None windOverride in
  (cloudiness climate <= 6 # 10 -> rainIntensity climate == 0) /\
  (0 < rainIntensity climate -> 6 # 10 < cloudiness climate).
Proof.
  cbv zeta.
  assert (H : cloudiness (createClimateState Math_sin Math_PI time seed phase
                                             None windOverride) <= 6 # 10 ->
              rainIntensity (createClimateState Math_sin Math_PI time seed phase
                                                None windOverride) == 0).
  { unfold createClimateState. cbn [cloudiness rainIntensity]. intros Hc.
    assert (He : (6 # 10) < (92 # 100)) by reflexivity.
    apply saturate_nonpos.
    rewrite (smoothstep_below _ _ _ He Hc). lra. }
  split; [exact H|].
  intros Hr. apply Qnot_le_lt. intros Hc. apply H in Hc.
  rewrite Hc in Hr. inversion Hr.
Qed.

Lemma rain_needs_clouds_witness :
  cloudiness (createClimateState sinApprox piApprox 0 0 0 None None) <= 6 # 10 /\
  rainIntensity (createClimateState sinApprox piApprox 0 0 0 None None) == 0.
Proof.
  split; [vm_compute; congruence|].
  apply (rain_needs_clouds sinApprox piApprox 0 0 0 None).
  vm_compute; congruence.
Defined.

End ClimateFacts.

(** ** Terrain generation *)

Module WorldFacts.
Import World.

Section Generator.

Variables Math_sin Math_sqrt Math_exp : Q -> Q.
Variable Math_pow : Q -> Q -> Q.
Variable Math_PI : Q.
Variable RandomState : Type.
Variable Math_random : RandomState -> Q * RandomState.

Local Abbreviation generate :=
  (generateBaseTerrain Math_sin Math_sqrt Math_exp Math_pow Math_PI).
Local Abbreviation create :=
  (createInitialWorld Math_sin Math_sqrt Math_exp Math_pow Math_PI
                      RandomState Math_random).

(** The world apart from the vegetation seed does not depend on the
    state of the random generator. *)
Lemma createInitialWorld_unfold size seed rng :
  fst (create size seed rng)
  = mkWorld WORLD_VERSION size seed (generate size seed)
            (repeat (Fin 0) (Z.to_nat (size * size)))
            (generateInitialSources (generate size seed) size)
            (inject_Z (Qfloor (fst (Math_random rng) * 10000000))) 0.
Proof.
  unfold create, createInitialWorld. destruct (Math_random rng); reflexivity.
Qed.

(** Finite operands give finite results. *)
Lemma lift1_fin f a : isFin a -> isFin (lift1 f a).
Proof. destruct a; simpl; auto. Qed.

Lemma lift2_fin f a b : isFin a -> isFin b -> isFin (lift2 f a b).
Proof. destruct a, b; simpl; auto. Qed.

Lemma ndiv_fin a b y :
  isFin a -> b = Fin y -> ~ y == 0 -> isFin (ndiv a b).
Proof.
  intros Ha -> Hy. destruct a as [x|]; simpl in *; [|contradiction].
  destruct (Qeq_bool y 0) eqn:E; [|exact I].
  apply Qeq_bool_iff in E. contradiction.
Qed.

Create HintDb fin.
#[local] Hint Resolve lift1_fin lift2_fin : fin.

Lemma Fin_fin q : isFin (Fin q).
Proof. exact I. Qed.

#[local] Hint Resolve Fin_fin : fin.

Lemma hash2D_fin x y seed : isFin x -> isFin y -> isFin (hash2D Math_sin x y seed).
Proof.
  intros Hx Hy. unfold hash2D, fract, nmul, nadd, nsub, nfloor. auto 10 with fin.
Qed.

Lemma smoothstep_fin t : isFin t -> isFin (smoothstep t).
Proof. intros Ht. unfold smoothstep, nmul, nsub. auto 10 with fin. Qed.

Lemma valueNoise_fin x y seed :
  isFin x -> isFin y -> isFin (valueNoise Math_sin x y seed).
Proof.
  intros Hx Hy. unfold valueNoise.
  assert (Hx0 : isFin (nfloor x)) by (apply lift1_fin; exact Hx).
  assert (Hy0 : isFin (nfloor y)) by (apply lift1_fin; exact Hy).
  assert (Hx1 : isFin (nadd (nfloor x) (Fin 1))) by (apply lift2_fin; auto with fin).
  assert (Hy1 : isFin (nadd (nfloor y) (Fin 1))) by (apply lift2_fin; auto with fin).
  pose proof (hash2D_fin _ _ seed Hx0 Hy0).
  pose proof (hash2D_fin _ _ seed Hx1 Hy0).
  pose proof (hash2D_fin _ _ seed Hx0 Hy1).
  pose proof (hash2D_fin _ _ seed Hx1 Hy1).
  assert (isFin (smoothstep (nsub x (nfloor x))))
    by (apply smoothstep_fin, lift2_fin; assumption).
  assert (isFin (smoothstep (nsub y (nfloor y))))
    by (apply smoothstep_fin, lift2_fin; assumption).
  unfold nadd, nmul, nsub in *. auto 10 with fin.
Qed.

Lemma fractalNoise_fin x y seed octaves lacunarity gain :
  isFin x -> isFin y ->
  isFin (fractalNoise Math_sin x y seed octaves lacunarity gain).
Proof.
  intros Hx Hy. unfold fractalNoise.
  match goal with |- context [fold_left ?F ?l ?a] =>
    assert (Ht : isFin (total (fold_left F l a))) end.
  { apply (fold_left_keeps (fun st => isFin (total st))); [|exact I].
    intros st octave Hst. cbn [total].
    apply lift2_fin; [exact Hst|]. apply lift2_fin; [|exact I].
    apply valueNoise_fin; apply lift2_fin; auto with fin. }
  match goal with |- context [fold_left ?F ?l ?a] =>
    set (final := fold_left F l a) in * end.
  destruct (Qgtb (weight final) 0) eqn:E; [|exact I].
  apply Qgtb_true in E.
  apply (ndiv_fin _ _ (weight final)); auto. intros E0. rewrite E0 in E.
  inversion E.
Qed.

(** Off the one-cell grid every height is a finite number. *)
Lemma heightAt_fin size seed x y :
  size <> 1%Z ->
  isFin (heightAt Math_sin Math_sqrt Math_exp Math_pow Math_PI size seed x y).
Proof.
  intros Hs.
  assert (Hd : ~ inject_Z (size - 1) == 0).
  { intros E. unfold Qeq in E. simpl in E. lia. }
  assert (Hnx : isFin (ndiv (Fin (inject_Z x)) (Fin (inject_Z (size - 1)))))
    by (eapply ndiv_fin; eauto; exact I).
  assert (Hny : isFin (ndiv (Fin (inject_Z y)) (Fin (inject_Z (size - 1)))))
    by (eapply ndiv_fin; eauto; exact I).
  unfold heightAt.
  set (nx := ndiv (Fin (inject_Z x)) _) in *.
  set (ny := ndiv (Fin (inject_Z y)) _) in *.
  assert (Hnoise : forall a b c d s o l g,
             isFin (fractalNoise Math_sin (nadd (nmul nx (Fin a)) (Fin b))
                                 (nadd (nmul ny (Fin c)) (Fin d)) s o l g)).
  { intros. apply fractalNoise_fin; unfold nadd, nmul; auto with fin. }
  repeat lazymatch goal with
    | |- isFin (Fin _) => exact I
    | |- isFin nx => exact Hnx
    | |- isFin ny => exact Hny
    | |- isFin (fractalNoise _ _ _ _ _ _ _) => apply Hnoise
    | |- isFin (lift1 _ _) => apply lift1_fin
    | |- isFin (lift2 _ _ _) => apply lift2_fin
    | |- isFin (nadd _ _) => apply lift2_fin
    | |- isFin (nsub _ _) => apply lift2_fin
    | |- isFin (nmul _ _) => apply lift2_fin
    | |- isFin (nmax _ _) => apply lift2_fin
    | |- isFin (nneg _) => apply lift1_fin
    | |- isFin (nabs _) => apply lift1_fin
    end.
Qed.

Lemma Forall_upd {A} (P : A -> Prop) n v l :
  Forall P l -> P v -> Forall P (upd n v l).
Proof.
  intros Hl Hv. revert n.
  induction Hl as [|h t Hh Ht IH]; intros [|n]; simpl; constructor; auto.
Qed.

Lemma Forall_nset P a i v : Forall P a -> P v -> Forall P (nset a i v).
Proof.
  intros Ha Hv. unfold nset. destruct (i <? 0)%Z; auto using Forall_upd.
Qed.

Lemma nset_length a i v : length (nset a i v) = length a.
Proof. unfold nset. destruct (i <? 0)%Z; auto using upd_length. Qed.

Lemma Forall_nget (P : num -> Prop) a i :
  Forall P a -> (0 <= i < Z.of_nat (length a))%Z -> P (nget a i).
Proof.
  intros Ha Hi. unfold nget. destruct (Z.ltb_spec i 0); [lia|].
  rewrite Forall_forall in Ha. apply Ha, nth_In. lia.
Qed.

Lemma nclamp_inRange n :
  isFin n -> inRange (nclamp n (Fin MIN_TERRAIN_HEIGHT) (Fin MAX_TERRAIN_HEIGHT)).
Proof.
  destruct n as [h|]; simpl; [|contradiction]. intros _.
  apply (TerrainFacts.clamp_in_range h), TerrainFacts.bounds_ordered.
Qed.

(** The sum and the count of a neighbourhood of in-range cells. *)
Definition boundedSum (acc : num * Z) : Prop :=
  match fst acc with
  | Fin t => (0 <= snd acc)%Z /\
             inject_Z (snd acc) * MIN_TERRAIN_HEIGHT <= t
             /\ t <= inject_Z (snd acc) * MAX_TERRAIN_HEIGHT
  | NaN => False
  end.

Lemma neighbourhood_bounded source size x y :
  (0 <= size)%Z -> Z.of_nat (length source) = (size * size)%Z ->
  Forall inRange source ->
  boundedSum (neighbourhood source size x y).
Proof.
  intros Hs Hlen Hsrc. unfold neighbourhood.
  apply (fold_left_keeps boundedSum).
  - intros acc oy Hacc. apply (fold_left_keeps boundedSum); [|exact Hacc].
    clear acc Hacc. intros [t c] ox Hacc.
    destruct ((x + ox <? 0)%Z || (size <=? x + ox)%Z
              || (y + oy <? 0)%Z || (size <=? y + oy)%Z) eqn:E; [exact Hacc|].
    apply orb_false_elim in E. destruct E as [E E4].
    apply orb_false_elim in E. destruct E as [E E3].
    apply orb_false_elim in E. destruct E as [E1 E2].
    assert (Hc : inRange (nget source (toIndex size (x + ox) (y + oy)))).
    { apply Forall_nget; [exact Hsrc|]. rewrite Hlen.
      apply toIndex_bounds; lia. }
    unfold boundedSum in *. cbn [fst snd] in *.
    destruct t as [t|]; [|contradiction].
    destruct (nget source _) as [h|]; [|contradiction]. simpl in Hc. simpl.
    unfold MIN_TERRAIN_HEIGHT, MAX_TERRAIN_HEIGHT in *.
    rewrite inject_Z_plus. change (inject_Z 1) with 1.
    destruct Hacc as (H0 & H1 & H2). split; [lia|]. split; lra.
  - unfold boundedSum; simpl. unfold MIN_TERRAIN_HEIGHT, MAX_TERRAIN_HEIGHT.
    change (inject_Z 0) with 0. split; [lia|]. split; lra.
Qed.

(** The blend of a cell with the mean of its neighbourhood stays within
    the bounds. *)
Lemma smoothCell_inRange source size blend y terrain x :
  0 <= blend <= 1 ->
  (0 <= size)%Z -> Z.of_nat (length source) = (size * size)%Z ->
  Forall inRange source ->
  (0 <= x < size)%Z -> (0 <= y < size)%Z ->
  Forall inRange terrain ->
  Forall inRange (smoothCell source size blend y terrain x).
Proof.
  intros Hb Hs Hlen Hsrc Hx Hy Hter. unfold smoothCell.
  pose proof (neighbourhood_bounded source size x y Hs Hlen Hsrc) as Hn.
  destruct (neighbourhood source size x y) as [t c].
  unfold boundedSum in Hn. cbn [fst snd] in Hn.
  destruct t as [t|]; [|contradiction]. destruct Hn as (Hc & Ht1 & Ht2).
  apply Forall_nset; [exact Hter|].
  assert (Hcell : inRange (nget source (toIndex size x y))).
  { apply Forall_nget; [exact Hsrc|]. rewrite Hlen. apply toIndex_bounds; lia. }
  destruct (nget source (toIndex size x y)) as [h|]; [|contradiction].
  simpl in Hcell.
  set (m := inject_Z (Z.max 1 c)).
  assert (Hm : 1 <= m).
  { unfold m. change 1 with (inject_Z 1). rewrite <- Zle_Qle. lia. }
  assert (Hm1 : m * MIN_TERRAIN_HEIGHT <= t /\ t <= m * MAX_TERRAIN_HEIGHT).
  { unfold m. destruct (Z.max_spec 1 c) as [[H1 ->]|[H1 ->]]; [tauto|].
    assert (Hc01 : c = 0%Z \/ c = 1%Z) by lia.
    unfold MIN_TERRAIN_HEIGHT, MAX_TERRAIN_HEIGHT in *.
    destruct Hc01 as [-> | ->]; [|tauto].
    change (inject_Z 0) with 0 in *. change (inject_Z 1) with 1. lra. }
  unfold ndiv. destruct (Qeq_bool m 0) eqn:E.
  { apply Qeq_bool_iff in E. lra. }
  simpl. unfold MIN_TERRAIN_HEIGHT, MAX_TERRAIN_HEIGHT in *.
  assert (Hq : -12 <= t / m /\ t / m <= 24).
  { split.
    - apply Qle_shift_div_l; lra.
    - apply Qle_shift_div_r; lra. }
  set (a := t / m) in *. destruct Hb as [Hb0 Hb1]. nra.
Qed.

Lemma smoothTerrain_inRange terrain size blend :
  0 <= blend <= 1 ->
  (0 <= size)%Z -> Z.of_nat (length terrain) = (size * size)%Z ->
  Forall inRange terrain ->
  Forall inRange (smoothTerrain terrain size blend) /\
  length (smoothTerrain terrain size blend) = length terrain.
Proof.
  intros Hb Hs Hlen Hter. unfold smoothTerrain. rewrite nested_fold.
  match goal with |- context [fold_left ?F ?l ?a] =>
    assert (H : Forall (fun c => In c (cells size)) l ->
                Forall inRange (fold_left F l a) /\
                length (fold_left F l a) = length a) end.
  { generalize terrain at 2 4 5 as t0, Hter.
    intros t0 Ht0 Hl. revert t0 Ht0.
    induction Hl as [|c l Hc _ IH]; intros t0 Ht0; simpl; [now split|].
    apply in_cells in Hc.
    destruct (IH (smoothCell terrain size blend (fst c) t0 (snd c))) as [I1 I2].
    - apply smoothCell_inRange; tauto.
    - split; [exact I1|]. rewrite I2. unfold smoothCell.
      destruct (neighbourhood _ _ _ _). apply nset_length. }
  apply H. apply Forall_forall. intros c Hc. exact Hc.
Qed.

(** Off the one-cell grid the generated terrain is finite and within the
    height bounds, through the clamp and the two smoothing passes. *)
Lemma generateBaseTerrain_inRange size seed :
  (0 <= size)%Z -> size <> 1%Z -> Forall inRange (generate size seed).
Proof.
  intros Hs H1. unfold generateBaseTerrain.
  match goal with |- context [smoothTerrain (smoothTerrain ?t _ _) _ _] =>
    assert (Ht : Forall inRange t /\ Z.of_nat (length t) = (size * size)%Z) end.
  { rewrite nested_fold.
    apply (fold_left_keeps
             (fun t => Forall inRange t
                       /\ Z.of_nat (length t) = (size * size)%Z)).
    - intros t c [Ht Hl]. split.
      + apply Forall_nset; [exact Ht|]. apply nclamp_inRange, heightAt_fin, H1.
      + now rewrite nset_length.
    - split.
      + apply Forall_forall. intros n Hn. apply repeat_spec in Hn. subst n.
        simpl. unfold MIN_TERRAIN_HEIGHT, MAX_TERRAIN_HEIGHT. split; lra.
      + rewrite repeat_length. nia. }
  destruct Ht as [Ht Hl].
  destruct (smoothTerrain_inRange _ size (16 # 100) ltac:(split; lra) Hs Hl Ht)
    as [S1 L1].
  apply smoothTerrain_inRange; auto; [split; lra | congruence].
Qed.

(** On a grid of one cell the normalised coordinates are [0 / 0]. *)
Lemma heightAt_one_cell seed :
  heightAt Math_sin Math_sqrt Math_exp Math_pow Math_PI 1 seed 0 0 = NaN.
Proof. reflexivity. Qed.

(** Lengths through the generator and the smoothing passes. *)
Lemma smoothTerrain_length terrain size blend :
  length (smoothTerrain terrain size blend) = length terrain.
Proof.
  unfold smoothTerrain. rewrite nested_fold.
  apply (fold_left_keeps (fun t => length t = length terrain)); [|reflexivity].
  intros t c Ht. unfold smoothCell. destruct (neighbourhood _ _ _ _).
  now rewrite nset_length.
Qed.

Lemma generateBaseTerrain_length size seed :
  (0 <= size)%Z -> Z.of_nat (length (generate size seed)) = (size * size)%Z.
Proof.
  intros Hs. unfold generateBaseTerrain. rewrite !smoothTerrain_length.
  rewrite nested_fold.
  apply (fold_left_keeps (fun t => Z.of_nat (length t) = (size * size)%Z)).
  - intros t c Ht. now rewrite nset_length.
  - rewrite repeat_length. nia.
Qed.

Lemma generateBaseTerrain_one_cell seed : generate 1 seed = [NaN].
Proof. reflexivity. Qed.

End Generator.



(** C4 fails on the grid of one cell: [x / (size - 1)] is [0 / 0] there,
    every term of the height is [NaN], the clamp and the two smoothing
    passes keep it, and the terrain of the world is the single value
    [NaN], which lies in no interval. *)
Theorem one_cell_terrain_is_NaN
        (Math_sin Math_sqrt Math_exp : Q -> Q) (Math_pow : Q -> Q -> Q)
        (Math_PI : Q) (RandomState : Type)
        (Math_random : RandomState -> Q * RandomState)
        (seed : Q) (rng : RandomState) :
  terrain (fst (createInitialWorld Math_sin Math_sqrt Math_exp Math_pow
                  Math_PI RandomState Math_random 1 seed rng)) = [NaN] /\
  ~ (exists h, nget (generateBaseTerrain Math_sin Math_sqrt Math_exp Math_pow
                                         Math_PI 1 seed) 0 = Fin h /\
               MIN_TERRAIN_HEIGHT <= h <= MAX_TERRAIN_HEIGHT).
Proof.
  split.
  - rewrite createInitialWorld_unfold. cbn [terrain].
    apply generateBaseTerrain_one_cell.
  - rewrite generateBaseTerrain_one_cell. intros [h [E _]]. discriminate E.
Qed.

End WorldFacts.

(** ** Payload validation *)

Module PersistenceFacts.
Import Persistence.



Section Conversion.

Variable StringToNumber : string -> number.
Variable ArrayToString : list json -> string.



End Conversion.



End PersistenceFacts.

(** ** Further laws of the water step *)

Module WaterLaws.
Import Water WaterFacts WaterDiagnostics.

Lemma sumQ_pointwise_le (a b c : list Q) :
  length a = length b -> length a = length c ->
  (forall k, (k < length a)%nat -> nth k a 0 <= nth k b 0 + nth k c 0) ->
  sumQ a <= sumQ b + sumQ c.
Proof.
  revert b c; induction a as [|x a IH]; intros [|y b] [|z c] Hb Hc H;
    simpl in *; try discriminate.
  rewrite !sumQ_cons.
  assert (H0 := H O ltac:(lia)). simpl in H0.
  assert (IH' : sumQ a <= sumQ b + sumQ c).
  { apply IH; try lia. intros k Hk. apply (H (S k)). lia. }
  lra.
Qed.

Lemma fold_left_id_on {S X : Type} (F : S -> X -> S) (l : list X) (s : S) :
  (forall x, In x l -> F s x = s) -> fold_left F l s = s.
Proof.
  induction l as [|x l IH]; intros H; simpl; [reflexivity|].
  rewrite (H x) by now left. apply IH. intros x' Hx'. apply H. now right.
Qed.

Lemma stepWater_length cache state params :
  length (water (fst (stepWater cache state params))) = length (water state).
Proof.
  unfold stepWater, stepWaterWith.
  destruct (getScratch _ _) as [delta cache']. simpl.
  now rewrite lossPass_length, inject_length.
Qed.

(** The water a step leaves in a cell, in terms of the water after the
    sources and of the deltas of the outflow pass. *)
Lemma stepWater_get cache state params k :
  cache_ok cache -> well_formed state ->
  (0 <= k < size state * size state)%Z ->
  let dt' := Qmax (1 # 10000) (dt params) in
  let state1 := fold_left (injectSource dt') (sources state) state in
  let delta := flowPass state1 (Qmax 0 (flowRate params)) dt'
                        (repeat 0 (length (water state1))) in
  exists c, In c (cells (size state)) /\ cellIndex (size state) c = k /\
    aget (water (fst (stepWater cache state params))) k
    = lossValue true (size state) delta
        (clamp (1 - Qmax 0 (damping params) * dt') 0 1)
        (Qmax 0 (evaporation params) * dt')
        (Qmax 0 (orZero (seepage params)))
        (Qmax 0 (orZero (edgeDrain params))) dt' c (aget (water state1) k).
Proof.
  intros Hc (H0 & H1 & H2) Hk dt' state1 delta.
  pose proof (inject_frame dt' (sources state) state) as (_ & Esz & _).
  fold state1 in Esz.
  destruct (index_is_cell (size state) k H0 Hk) as (c & Hin & Ec).
  exists c. split; [exact Hin|]. split; [exact Ec|].
  unfold stepWater, stepWaterWith. fold dt'. fold state1.
  pose proof (getScratch_zeros cache (length (water state1)) Hc) as Hz.
  destruct (getScratch cache (length (water state1))) as [d0 cache'].
  simpl in Hz. subst d0. fold delta. simpl. rewrite Esz, <- Ec.
  apply lossPass_get; auto.
  unfold state1. rewrite inject_length. exact H2.
Qed.

(** What the loss pass leaves is at most the water that flowed in. *)
Lemma lossValue_le g size delta df el sp ed dt c wk :
  0 <= df -> df <= 1 -> 0 <= el -> 0 <= sp -> 0 <= ed -> 0 <= dt ->
  0 <= wk + aget delta (cellIndex size c) ->
  lossValue g size delta df el sp ed dt c wk
  <= wk + aget delta (cellIndex size c).
Proof.
  intros Hdf0 Hdf1 Hel Hsp Hed Hdt H. unfold lossValue, cellIndex in *.
  set (wf := wk + aget delta (toIndex size (snd c) (fst c))) in *.
  assert (Hspdt : 0 <= sp * dt) by now apply Qmult_le_0_compat.
  assert (Heddt : 0 <= ed * dt) by now apply Qmult_le_0_compat.
  assert (H1 : wf * df <= wf) by nra.
  assert (H2 : 0 <= wf * sp * dt).
  { setoid_replace (wf * sp * dt) with (wf * (sp * dt)) by ring.
    now apply Qmult_le_0_compat. }
  destruct (_ && _); apply Q.max_lub; lra.
Qed.

Lemma dampingFactor_range damping dt :
  0 <= clamp (1 - Qmax 0 damping * dt) 0 1 <= 1.
Proof. apply TerrainFacts.clamp_in_range. lra. Qed.

Lemma no_sources_inject dt state :
  Forall (fun s => active s = false) (sources state) ->
  fold_left (injectSource dt) (sources state) state = state.
Proof.
  intros H. now rewrite inject_inactive, (no_active_sources _ H).
Qed.

(** X1.  In exact arithmetic a step without an active source never adds
    water: on a well-formed state with non-negative water, [totalWater]
    after the step, computed without rounding, is at most [totalWater]
    before it, for all parameters.  (The float32 rounding of the cells
    can add to the total on the machine, see [MachineFacts].) *)
Theorem stepWater_no_gain cache state params :
  cache_ok cache -> well_formed state -> nonneg (water state) ->
  Forall (fun s => active s = false) (sources state) ->
  totalWater (fst (stepWater cache state params)) <= totalWater state.
Proof.
  intros Hc Hwf Hnn Hsrc.
  set (dt' := Qmax (1 # 10000) (dt params)).
  assert (Hdt : 0 <= dt') by apply Qlt_le_weak, dt_positive.
  destruct (flowPass_spec state (Qmax 0 (flowRate params)) dt' Hwf Hnn
              (Qmax_nonneg _) Hdt (repeat 0 (length (water state))))
    as (F0 & F1 & F2).
  { apply repeat_length. }
  { intros k. now rewrite aget_zeros. }
  set (delta := flowPass state (Qmax 0 (flowRate params)) dt'
                         (repeat 0 (length (water state)))) in *.
  assert (Hlen : length (water (fst (stepWater cache state params)))
                 = length (water state)).
  { apply stepWater_length. }
  unfold totalWater.
  apply Qle_trans with (sumQ (water state) + sumQ delta);
    [|rewrite F1, sumQ_zeros; lra].
  apply sumQ_pointwise_le; [exact Hlen | congruence |].
  intros k Hk. rewrite <- !aget_nth.
  destruct (stepWater_get cache state params (Z.of_nat k) Hc Hwf)
    as (c & Hin & Ec & E).
  { destruct Hwf as (_ & _ & Hw). lia. }
  cbv zeta in E. rewrite (no_sources_inject _ _ Hsrc) in E.
  fold dt' in E. fold delta in E. rewrite E, <- Ec.
  pose proof (dampingFactor_range (damping params) dt') as [D0 D1].
  apply lossValue_le; auto using Qmax_nonneg.
  - apply Qmult_le_0_compat; [apply Qmax_nonneg | exact Hdt].
  - pose proof (F2 (cellIndex (size state) c)). lra.
Qed.

Lemma stepWater_no_gain_witness :
  well_formed pond /\ nonneg (water pond) /\
  totalWater (fst (stepWater emptyScratch pond
                     (mkParams 1 2 (1 # 2) (1 # 10) (Some (1 # 5)) (Some 3))))
  <= totalWater pond.
Proof.
  split; [unfold well_formed; simpl; lia|].
  split; [unfold nonneg; simpl; repeat constructor; conc_Q|].
  apply (stepWater_no_gain emptyScratch pond).
  - intros n a H; discriminate H.
  - unfold well_formed; simpl; lia.
  - unfold nonneg; simpl; repeat constructor; conc_Q.
  - constructor.
Defined.

(** X2.  What a step returns does not depend on what earlier steps left
    in the scratch cache: two caches that store each array under its
    length give the same state. *)
Theorem stepWater_ignores_scratch cache1 cache2 state params :
  cache_ok cache1 -> cache_ok cache2 ->
  fst (stepWater cache1 state params) = fst (stepWater cache2 state params).
Proof.
  intros H1 H2. unfold stepWater, stepWaterWith.
  match goal with |- context [getScratch cache1 ?n] =>
    pose proof (getScratch_zeros cache1 n H1) as Z1;
    pose proof (getScratch_zeros cache2 n H2) as Z2;
    destruct (getScratch cache1 n) as [d1 c1];
    destruct (getScratch cache2 n) as [d2 c2] end.
  simpl in *. now subst.
Qed.

Lemma stepWater_ignores_scratch_witness :
  cache_ok emptyScratch /\
  cache_ok (snd (stepWater emptyScratch pond flowOnly)) /\
  fst (stepWater emptyScratch pond flowOnly)
  = fst (stepWater (snd (stepWater emptyScratch pond flowOnly)) pond flowOnly).
Proof.
  assert (H0 : cache_ok emptyScratch) by (intros n a H; discriminate H).
  split; [exact H0|].
  split; [apply stepWater_cache_ok; exact H0|].
  apply (stepWater_ignores_scratch emptyScratch _ pond flowOnly).
  - exact H0.
  - apply stepWater_cache_ok; exact H0.
Defined.

(** One step without losses and without sources keeps the total. *)
Lemma step_total_no_loss cache state params :
  cache_ok cache -> well_formed state -> nonneg (water state) ->
  Forall (fun s => active s = false) (sources state) ->
  damping params == 0 -> evaporation params == 0 ->
  orZero (seepage params) == 0 -> orZero (edgeDrain params) == 0 ->
  totalWater (fst (stepWater cache state params)) == totalWater state.
Proof.
  intros Hc Hwf Hnn Hsrc Ed Ee Es Eg.
  pose proof (stepWater_no_loss cache state params Hc Hwf Ed Ee Es Eg) as H.
  cbv zeta in H. rewrite (no_sources_inject _ _ Hsrc) in H.
  destruct (H Hnn) as [Hlen Hget]. clear H.
  destruct (flowPass_spec state (Qmax 0 (flowRate params))
              (Qmax (1 # 10000) (dt params)) Hwf Hnn (Qmax_nonneg _)
              (Qlt_le_weak _ _ (dt_positive _))
              (repeat 0 (length (water state)))) as (F0 & F1 & _).
  { apply repeat_length. }
  { intros k. now rewrite aget_zeros. }
  unfold totalWater.
  rewrite (sumQ_pointwise _ (water state)
             (flowPass state (Qmax 0 (flowRate params))
                (Qmax (1 # 10000) (dt params))
                (repeat 0 (length (water state))))); auto.
  - rewrite F1, sumQ_zeros. ring.
  - congruence.
  - intros k Hk. rewrite <- !aget_nth. apply Hget.
    destruct Hwf as (_ & _ & Hw). rewrite Hlen in Hk. lia.
Qed.

(** X3.  Mass conservation over any number of steps: without an active
    source, a run of steps whose parameters all have damping,
    evaporation, seepage and edge drain at zero ends with the total water
    it started with, whatever the flow rates and tick lengths. *)
Theorem stepMany_conserves_mass ticks : forall cache state,
  cache_ok cache -> well_formed state -> nonneg (water state) ->
  Forall (fun s => active s = false) (sources state) ->
  Forall lossless ticks ->
  totalWater (fst (stepMany cache state ticks)) == totalWater state.
Proof.
  induction ticks as [|p ticks IH]; intros cache state Hc Hwf Hnn Hsrc Hp; simpl.
  - reflexivity.
  - inversion Hp as [|? ? (Ed & Ee & Es & Eg) Hp']; subst.
    pose proof (step_total_no_loss cache state p Hc Hwf Hnn Hsrc Ed Ee Es Eg) as E.
    pose proof (stepWaterWith_well_formed true cache state p Hwf) as Hwf'.
    pose proof (stepWater_keeps_nonneg cache state p Hnn) as Hnn'.
    pose proof (stepWater_cache_ok cache state p Hc) as Hc'.
    pose proof (stepWaterWith_frame true cache state p) as (_ & _ & _ & _ & Es' & _).
    fold stepWater in Hwf', Es'.
    destruct (stepWater cache state p) as [s c]. simpl in *.
    rewrite IH; auto. now rewrite Es'.
Qed.

Lemma stepMany_conserves_mass_witness :
  well_formed pond /\ nonneg (water pond) /\
  totalWater (fst (stepMany emptyScratch pond
                     [flowOnly; mkParams 1 3 0 0 (Some 0) None; flowOnly]))
  == totalWater pond.
Proof.
  split; [unfold well_formed; simpl; lia|].
  split; [unfold nonneg; simpl; repeat constructor; conc_Q|].
  apply (stepMany_conserves_mass _ emptyScratch pond).
  - intros n a H; discriminate H.
  - unfold well_formed; simpl; lia.
  - unfold nonneg; simpl; repeat constructor; conc_Q.
  - constructor.
  - repeat constructor; reflexivity.
Defined.

Lemma potentialTo_level state th n fr dt :
  th - (aget (terrain state) n + aget (water state) n) <= 0 ->
  potentialTo state th n fr dt = 0.
Proof.
  intros H. unfold potentialTo. apply Qgtb_false in H. now rewrite H.
Qed.

Lemma flowCell_level state fr dt c d :
  well_formed state -> level state -> In c (cells (size state)) ->
  flowCell state fr dt (fst c) d (snd c) = d.
Proof.
  intros (H0 & H1 & H2) Hl Hc. apply in_cells in Hc. destruct Hc as [Hy Hx].
  unfold flowCell.
  destruct (Qle_bool (aget (water state) _) 0); [reflexivity|].
  assert (Hi : (0 <= toIndex (size state) (snd c) (fst c)
                < size state * size state)%Z) by (apply toIndex_bounds; lia).
  assert (Hn : forall x' y', (0 <= x' < size state)%Z -> (0 <= y' < size state)%Z ->
             potentialTo state
               (aget (terrain state) (toIndex (size state) (snd c) (fst c))
                + aget (water state) (toIndex (size state) (snd c) (fst c)))
               (toIndex (size state) x' y') fr dt = 0).
  { intros x' y' Hx' Hy'. apply potentialTo_level.
    rewrite (Hl _ (toIndex (size state) x' y') Hi); [lra|].
    apply toIndex_bounds; lia. }
  destruct (Z.ltb_spec (snd c + 1) (size state));
    destruct (Z.leb_spec 0 (snd c - 1));
    destruct (Z.ltb_spec (fst c + 1) (size state));
    destruct (Z.leb_spec 0 (fst c - 1));
    rewrite ?Hn by lia; reflexivity.
Qed.

Lemma flowPass_level state fr dt d :
  well_formed state -> level state -> flowPass state fr dt d = d.
Proof.
  intros Hwf Hl. unfold flowPass. rewrite nested_fold.
  assert (H : forall l, (forall c, In c l -> In c (cells (size state))) ->
                        fold_left (fun s c => flowCell state fr dt (fst c) s (snd c)) l d
                        = d).
  { induction l as [|c l IH]; intros Hin; simpl; [reflexivity|].
    rewrite flowCell_level; auto.
    - apply IH. intros c' Hc'. apply Hin. now right.
    - apply Hin. now left. }
  apply H. auto.
Qed.

(** X4.  A level water surface is stationary: when terrain plus water is
    the same in every cell, no source is active and the four loss
    coefficients are zero, a step leaves every water cell as it was. *)
Theorem level_surface_stationary cache state params k :
  cache_ok cache -> well_formed state -> nonneg (water state) ->
  Forall (fun s => active s = false) (sources state) ->
  lossless params -> level state ->
  (0 <= k < size state * size state)%Z ->
  aget (water (fst (stepWater cache state params))) k == aget (water state) k.
Proof.
  intros Hc Hwf Hnn Hsrc (Ed & Ee & Es & Eg) Hl Hk.
  pose proof (stepWater_no_loss cache state params Hc Hwf Ed Ee Es Eg) as H.
  cbv zeta in H. rewrite (no_sources_inject _ _ Hsrc) in H.
  rewrite (flowPass_level _ _ _ _ Hwf Hl) in H.
  destruct (H Hnn) as [_ Hget]. rewrite (Hget k Hk), aget_zeros. ring.
Qed.

Lemma level_surface_stationary_witness :
  well_formed basin /\ nonneg (water basin) /\ level basin /\
  aget (water (fst (stepWater emptyScratch basin flowOnly))) 3
  == aget (water basin) 3.
Proof.
  assert (Hwf : well_formed basin) by (unfold well_formed; simpl; lia).
  assert (Hnn : nonneg (water basin))
    by (unfold nonneg; simpl; repeat constructor; conc_Q).
  assert (Hl : level basin).
  { intros k k' Hk Hk'. simpl in Hk, Hk'.
    assert (Ek : (k = 0 \/ k = 1 \/ k = 2 \/ k = 3)%Z) by lia.
    assert (Ek' : (k' = 0 \/ k' = 1 \/ k' = 2 \/ k' = 3)%Z) by lia.
    destruct Ek as [->|[->|[->| ->]]]; destruct Ek' as [->|[->|[->| ->]]];
      reflexivity. }
  split; [exact Hwf|]. split; [exact Hnn|]. split; [exact Hl|].
  apply (level_surface_stationary emptyScratch basin flowOnly 3).
  - intros n a H; discriminate H.
  - exact Hwf.
  - exact Hnn.
  - constructor.
  - repeat split; reflexivity.
  - exact Hl.
  - simpl; lia.
Defined.

(** The outflow loop of [stepWater] at a cell, in terms of the four
    potentials. *)
Lemma flowCell_potentials state fr dt y d x :
  flowCell state fr dt y d x
  = let i := toIndex (size state) x y in
    let p := solverPotentials state fr dt x y in
    if Qle_bool (aget (water state) i) 0 then d
    else if Qle_bool (right p + left p + up p + down p) 0 then d
    else
      let scale := Qmin 1 (aget (water state) i
                           / (right p + left p + up p + down p)) in
      transfers i scale d
        [(if (x + 1 <? size state)%Z then toIndex (size state) (x + 1) y else (-1)%Z,
          right p);
         (if (0 <=? x - 1)%Z then toIndex (size state) (x - 1) y else (-1)%Z,
          left p);
         (if (y + 1 <? size state)%Z then toIndex (size state) x (y + 1) else (-1)%Z,
          up p);
         (if (0 <=? y - 1)%Z then toIndex (size state) x (y - 1) else (-1)%Z,
          down p)].
Proof.
  unfold flowCell, solverPotentials. cbv zeta. cbn [right left up down].
  destruct (x + 1 <? size state)%Z, (0 <=? x - 1)%Z,
    (y + 1 <? size state)%Z, (0 <=? y - 1)%Z; reflexivity.
Qed.



(** *** One wet cell on flat ground *)

Lemma fold_single {S X : Type} (F : S -> X -> S) (l : list X) (x0 : X) (s : S) :
  NoDup l -> In x0 l ->
  (forall x s', In x l -> x <> x0 -> F s' x = s') ->
  fold_left F l s = F s x0.
Proof.
  intros Hnd. revert s. induction Hnd as [|x l Hx Hnd IH]; intros s Hin Hid;
    [destruct Hin|].
  simpl. destruct Hin as [-> | Hin].
  - apply fold_left_id_on. intros x Hx'. apply Hid; [now right|].
    intros ->. contradiction.
  - rewrite (Hid x s) by (try (now left); intros ->; contradiction).
    apply IH; auto. intros x' s' Hx' Hne. apply Hid; auto. now right.
Qed.

(** The array after a transfer, cell by cell. *)
Lemma transfer_get d i n p s k :
  (0 <= i < Z.of_nat (length d))%Z -> (0 <= n < Z.of_nat (length d))%Z ->
  n <> i -> 0 < p ->
  aget (transfer d i n p s) k
  == aget d k + (if (k =? n)%Z then p * s else 0)
     - (if (k =? i)%Z then p * s else 0).
Proof.
  intros Hi Hn Hne Hp. unfold transfer.
  apply Qgtb_true in Hp. rewrite Hp.
  destruct (Z.leb_spec 0 n); [|lia]. simpl andb. cbv iota.
  destruct (Z.eqb_spec k n) as [->|Hkn].
  - rewrite aget_aset_same by (rewrite aset_length; lia).
    rewrite aget_aset_other by congruence.
    destruct (Z.eqb_spec n i); [contradiction|]. ring.
  - rewrite aget_aset_other by congruence.
    destruct (Z.eqb_spec k i) as [->|Hki].
    + rewrite aget_aset_same by lia. ring.
    + rewrite aget_aset_other by congruence. ring.
Qed.

Ltac decide_eqb :=
  repeat match goal with
  | |- context [(?a =? ?a)%Z] => rewrite (Z.eqb_refl a)
  | H : ?a <> ?b |- context [(?a =? ?b)%Z] =>
      rewrite (proj2 (Z.eqb_neq a b) H)
  | H : ?a <> ?b |- context [(?b =? ?a)%Z] =>
      rewrite (proj2 (Z.eqb_neq b a) (not_eq_sym H))
  end.

(** Four transfers of positive amounts to four distinct neighbours. *)
Lemma four_transfers d i s nR pR nL pL nU pU nD pD :
  (0 <= i < Z.of_nat (length d))%Z ->
  (0 <= nR < Z.of_nat (length d))%Z -> (0 <= nL < Z.of_nat (length d))%Z ->
  (0 <= nU < Z.of_nat (length d))%Z -> (0 <= nD < Z.of_nat (length d))%Z ->
  nR <> i -> nL <> i -> nU <> i -> nD <> i ->
  nR <> nL -> nR <> nU -> nR <> nD -> nL <> nU -> nL <> nD -> nU <> nD ->
  0 < pR -> 0 < pL -> 0 < pU -> 0 < pD ->
  let d' := transfers i s d [(nR, pR); (nL, pL); (nU, pU); (nD, pD)] in
  aget d' nR == aget d nR + pR * s /\
  aget d' nL == aget d nL + pL * s /\
  aget d' nU == aget d nU + pU * s /\
  aget d' nD == aget d nD + pD * s /\
  aget d' i == aget d i - (pR + pL + pU + pD) * s.
Proof.
  intros Hi HR HL HU HD Ri Li Ui Di RL RU RD LU LD UD PR PL PU PD.
  unfold transfers. cbn [fold_left fst snd].
  assert (E : forall k,
             aget (transfer (transfer (transfer (transfer d i nR pR s)
                                                i nL pL s) i nU pU s) i nD pD s) k
             == aget d k
                + (if (k =? nR)%Z then pR * s else 0) - (if (k =? i)%Z then pR * s else 0)
                + (if (k =? nL)%Z then pL * s else 0) - (if (k =? i)%Z then pL * s else 0)
                + (if (k =? nU)%Z then pU * s else 0) - (if (k =? i)%Z then pU * s else 0)
                + (if (k =? nD)%Z then pD * s else 0) - (if (k =? i)%Z then pD * s else 0)).
  { intros k.
    rewrite transfer_get by (rewrite ?transfer_length; auto).
    rewrite transfer_get by (rewrite ?transfer_length; auto).
    rewrite transfer_get by (rewrite ?transfer_length; auto).
    rewrite transfer_get by auto. reflexivity. }
  cbv zeta. repeat split; rewrite E; decide_eqb; ring.
Qed.

(** The share of a neighbour: the potential, capped at a quarter of the
    water. *)
Lemma even_share w P :
  0 < w -> 0 < P ->
  P * Qmin 1 (w / (4 * P)) == Qmin P (w / 4).
Proof.
  intros Hw HP.
  assert (Hq : w / (4 * P) * (4 * P) == w) by (field; lra).
  destruct (Q.min_spec 1 (w / (4 * P))) as [[H1 E1]|[H1 E1]];
    destruct (Q.min_spec P (w / 4)) as [[H2 E2]|[H2 E2]];
    rewrite E1, E2.
  - ring.
  - assert (P * 4 < w) by nra.
    assert (w / 4 * 4 == w) by (field; lra). nra.
  - assert (w <= 4 * P) by nra.
    assert (w / 4 * 4 == w) by (field; lra). nra.
  - field. lra.
Qed.

Lemma nonneg_pointwise (l : list Q) :
  (forall k, (0 <= k < Z.of_nat (length l))%Z -> 0 <= aget l k) -> nonneg l.
Proof.
  intros H. unfold nonneg. apply Forall_nth. intros i d Hi.
  rewrite (nth_indep l d 0 Hi), <- aget_nth. apply H. lia.
Qed.

(** X6.  Symmetry: on flat terrain with water [w] in one interior cell
    only, no active source and no losses, one step gives each of the four
    neighbours the same share, [min(w * flowRate * dt, w / 4)], and
    leaves the cell with [w] minus the four shares. *)
Theorem single_cell_spreads_evenly cache state params x0 y0 w h :
  cache_ok cache -> well_formed state ->
  Forall (fun s => active s = false) (sources state) ->
  lossless params ->
  (0 < x0)%Z -> (x0 + 1 < size state)%Z ->
  (0 < y0)%Z -> (y0 + 1 < size state)%Z ->
  (forall k, (0 <= k < size state * size state)%Z ->
             aget (terrain state) k == h) ->
  aget (water state) (toIndex (size state) x0 y0) == w -> 0 < w ->
  (forall k, (0 <= k < size state * size state)%Z ->
             k <> toIndex (size state) x0 y0 -> aget (water state) k == 0) ->
  let share := Qmin (w * Qmax 0 (flowRate params)
                     * Qmax (1 # 10000) (dt params)) (w / 4) in
  let water' := water (fst (stepWater cache state params)) in
  aget water' (toIndex (size state) (x0 + 1) y0) == share /\
  aget water' (toIndex (size state) (x0 - 1) y0) == share /\
  aget water' (toIndex (size state) x0 (y0 + 1)) == share /\
  aget water' (toIndex (size state) x0 (y0 - 1)) == share /\
  aget water' (toIndex (size state) x0 y0) == w - 4 * share.
Proof.
  intros Hc Hwf Hsrc (Ed & Ee & Es & Eg) Hx0 Hx1 Hy0 Hy1 Hflat Ew Hw Hdry
         share water'.
  set (fr := Qmax 0 (flowRate params)) in *.
  set (dt' := Qmax (1 # 10000) (dt params)) in *.
  assert (Hfr : 0 <= fr) by apply Qmax_nonneg.
  assert (Hdt : 0 < dt') by apply dt_positive.
  destruct Hwf as (H0 & H1 & H2).
  assert (Hwf : well_formed state) by (repeat split; assumption).
  set (i0 := toIndex (size state) x0 y0) in *.
  set (iR := toIndex (size state) (x0 + 1) y0).
  set (iL := toIndex (size state) (x0 - 1) y0).
  set (iU := toIndex (size state) x0 (y0 + 1)).
  set (iD := toIndex (size state) x0 (y0 - 1)).
  assert (B0 : (0 <= i0 < size state * size state)%Z) by (apply toIndex_bounds; lia).
  assert (BR : (0 <= iR < size state * size state)%Z) by (apply toIndex_bounds; lia).
  assert (BL : (0 <= iL < size state * size state)%Z) by (apply toIndex_bounds; lia).
  assert (BU : (0 <= iU < size state * size state)%Z) by (apply toIndex_bounds; lia).
  assert (BD : (0 <= iD < size state * size state)%Z) by (apply toIndex_bounds; lia).
  assert (Ri : iR <> i0) by (unfold iR, i0, toIndex; lia).
  assert (Li : iL <> i0) by (unfold iL, i0, toIndex; lia).
  assert (Ui : iU <> i0) by (unfold iU, i0, toIndex; nia).
  assert (Di : iD <> i0) by (unfold iD, i0, toIndex; nia).
  assert (RL : iR <> iL) by (unfold iR, iL, toIndex; lia).
  assert (RU : iR <> iU) by (unfold iR, iU, toIndex; nia).
  assert (RD : iR <> iD) by (unfold iR, iD, toIndex; nia).
  assert (LU : iL <> iU) by (unfold iL, iU, toIndex; nia).
  assert (LD : iL <> iD) by (unfold iL, iD, toIndex; nia).
  assert (UD : iU <> iD) by (unfold iU, iD, toIndex; nia).
  assert (Hnn : nonneg (water state)).
  { apply nonneg_pointwise. intros k Hk. rewrite H2 in Hk.
    destruct (Z.eq_dec k i0) as [->|Hne]; [rewrite Ew; lra|].
    rewrite (Hdry k Hk Hne). lra. }
  pose proof (stepWater_no_loss cache state params Hc Hwf Ed Ee Es Eg) as H.
  cbv zeta in H. rewrite (no_sources_inject _ _ Hsrc) in H.
  fold fr in H. fold dt' in H.
  destruct (H Hnn) as [_ Hget]. clear H.
  set (zeros := repeat 0 (length (water state))) in *.
  (* the outflow pass acts at the wet cell only *)
  assert (Epass : flowPass state fr dt' zeros
                  = flowCell state fr dt' y0 zeros x0).
  { unfold flowPass. rewrite nested_fold.
    rewrite (fold_single _ (cells (size state)) (y0, x0)); [reflexivity | | | ].
    - apply NoDup_list_prod; apply NoDup_range.
    - apply in_cells; simpl; lia.
    - intros [y x] d Hin Hne. apply in_cells in Hin. simpl in Hin.
      unfold flowCell. simpl fst; simpl snd.
      assert (Hk : toIndex (size state) x y <> i0).
      { intros E. apply toIndex_inj in E; try lia.
        destruct E; subst. now apply Hne. }
      assert (E0 : Qle_bool (aget (water state) (toIndex (size state) x y)) 0 = true).
      { apply Qle_bool_iff. rewrite Hdry; [lra | apply toIndex_bounds; lia | exact Hk]. }
      now rewrite E0. }
  rewrite Epass in Hget. clear Epass.
  (* the four potentials are w * flowRate * dt *)
  set (P := w * fr * dt').
  assert (HP0 : 0 <= P).
  { unfold P. apply Qmult_le_0_compat; [apply Qmult_le_0_compat|]; lra. }
  assert (Epot : forall n, (0 <= n < size state * size state)%Z -> n <> i0 ->
            potentialTo state (aget (terrain state) i0 + aget (water state) i0)
                        n fr dt' == P).
  { intros n Hn Hne. unfold potentialTo.
    assert (Ediff : aget (terrain state) i0 + aget (water state) i0
                    - (aget (terrain state) n + aget (water state) n) == w).
    { rewrite (Hflat i0 B0), (Hflat n Hn), Ew, (Hdry n Hn Hne). ring. }
    assert (Egt : Qgtb (aget (terrain state) i0 + aget (water state) i0
                        - (aget (terrain state) n + aget (water state) n)) 0 = true)
      by (apply Qgtb_true; rewrite Ediff; exact Hw).
    rewrite Egt, Ediff. reflexivity. }
  rewrite flowCell_potentials in Hget. cbv zeta in Hget. fold i0 in Hget.
  unfold solverPotentials in Hget. cbn [right left up down] in Hget.
  fold i0 iR iL iU iD in Hget.
  destruct (Z.ltb_spec (x0 + 1) (size state)); [|lia].
  destruct (Z.leb_spec 0 (x0 - 1)); [|lia].
  destruct (Z.ltb_spec (y0 + 1) (size state)); [|lia].
  destruct (Z.leb_spec 0 (y0 - 1)); [|lia].
  set (pR := potentialTo state _ iR fr dt') in *.
  set (pL := potentialTo state _ iL fr dt') in *.
  set (pU := potentialTo state _ iU fr dt') in *.
  set (pD := potentialTo state _ iD fr dt') in *.
  assert (ER : pR == P) by (apply Epot; assumption).
  assert (EL : pL == P) by (apply Epot; assumption).
  assert (EU : pU == P) by (apply Epot; assumption).
  assert (ED : pD == P) by (apply Epot; assumption).
  assert (Ecw : Qle_bool (aget (water state) i0) 0 = false)
    by (apply Qle_bool_false; rewrite Ew; exact Hw).
  rewrite Ecw in Hget.
  assert (Hdry' : forall k, (0 <= k < size state * size state)%Z -> k <> i0 ->
                            aget (water state) k + 0 == 0).
  { intros k Hk Hne. rewrite (Hdry k Hk Hne). ring. }
  destruct (Qle_bool (pR + pL + pU + pD) 0) eqn:Etp.
  - (* no flow rate: nothing moves *)
    apply Qle_bool_iff in Etp.
    assert (EP : P == 0) by lra.
    assert (Eshare : share == 0).
    { unfold share. fold P. rewrite (Q.min_compat _ _ EP _ _ (Qeq_refl (w / 4))).
      apply Q.min_l. apply Qle_shift_div_l; lra. }
    repeat split; unfold water'; rewrite Hget by assumption;
      unfold zeros; rewrite aget_zeros, Eshare, ?Ew; try (apply Hdry'; assumption).
    ring.
  - apply Qle_bool_false in Etp.
    assert (HP : 0 < P) by lra.
    set (scale := Qmin 1 (aget (water state) i0 / (pR + pL + pU + pD))) in *.
    assert (Escale : P * scale == share).
    { unfold share. fold P. rewrite <- (even_share w P Hw HP).
      unfold scale.
      assert (Eq : aget (water state) i0 / (pR + pL + pU + pD) == w / (4 * P)).
      { rewrite Ew, ER, EL, EU, ED.
        setoid_replace (P + P + P + P) with (4 * P) by ring. reflexivity. }
      rewrite (Q.min_compat _ _ (Qeq_refl 1) _ _ Eq). reflexivity. }
    assert (Hlen : Z.of_nat (length zeros) = (size state * size state)%Z)
      by (unfold zeros; rewrite repeat_length; exact H2).
    destruct (four_transfers zeros i0 scale iR pR iL pL iU pU iD pD)
      as (TR & TL & TU & TD & T0); rewrite ?Hlen; auto; try lra.
    unfold zeros in TR, TL, TU, TD, T0. rewrite aget_zeros in TR, TL, TU, TD, T0.
    fold zeros in TR, TL, TU, TD, T0.
    repeat split; unfold water'; rewrite Hget by assumption.
    + rewrite TR, (Hdry iR BR Ri), ER, Escale. ring.
    + rewrite TL, (Hdry iL BL Li), EL, Escale. ring.
    + rewrite TU, (Hdry iU BU Ui), EU, Escale. ring.
    + rewrite TD, (Hdry iD BD Di), ED, Escale. ring.
    + rewrite T0, Ew, ER, EL, EU, ED, <- Escale. ring.
Qed.

Lemma single_cell_spreads_evenly_witness :
  well_formed mound /\
  aget (water (fst (stepWater emptyScratch mound (mkParams 1 1 0 0 None None)))) 5
  == aget (water (fst (stepWater emptyScratch mound (mkParams 1 1 0 0 None None)))) 1.
Proof.
  split; [unfold well_formed; simpl; lia|].
  destruct (single_cell_spreads_evenly emptyScratch mound
              (mkParams 1 1 0 0 None None) 1 1 1 0) as (A & B & C & D & _).
  - intros n a H; discriminate H.
  - unfold well_formed; simpl; lia.
  - constructor.
  - repeat split; reflexivity.
  - lia.
  - simpl; lia.
  - lia.
  - simpl; lia.
  - intros k Hk. simpl in Hk.
    assert (Ek : (k = 0 \/ k = 1 \/ k = 2 \/ k = 3 \/ k = 4 \/ k = 5
                  \/ k = 6 \/ k = 7 \/ k = 8)%Z) by lia.
    repeat (destruct Ek as [-> | Ek]; [reflexivity|]). subst; reflexivity.
  - reflexivity.
  - reflexivity.
  - intros k Hk Hne. simpl in Hk. change (toIndex (size mound) 1 1) with 4%Z in Hne.
    assert (Ek : (k = 0 \/ k = 1 \/ k = 2 \/ k = 3 \/ k = 5
                  \/ k = 6 \/ k = 7 \/ k = 8)%Z) by lia.
    repeat (destruct Ek as [-> | Ek]; [reflexivity|]). subst; reflexivity.
  - change (toIndex (size mound) (1 + 1) 1) with 5%Z in A.
    change (toIndex (size mound) 1 (1 - 1)) with 1%Z in D.
    rewrite A, D. reflexivity.
Defined.

Lemma injectSource_skipped dt s src :
  skipped (size s) src = true -> injectSource dt s src = s.
Proof.
  unfold skipped, injectSource. intros H.
  destruct (negb (active src)); [reflexivity|]. simpl in H. now rewrite H.
Qed.

Lemma injectSource_size dt s src : size (injectSource dt s src) = size s.
Proof. apply (injectSource_frame dt s src). Qed.

Lemma injectSource_agree dt s1 s2 src :
  size s1 = size s2 -> water s1 = water s2 ->
  water (injectSource dt s1 src) = water (injectSource dt s2 src).
Proof.
  intros Hs Hw. unfold injectSource. rewrite Hs.
  destruct (negb (active src)); [exact Hw|].
  destruct (negb (inBounds _ _ _)); [exact Hw|].
  cbn [set_water water]. now rewrite Hw.
Qed.

Lemma inject_live dt srcs : forall s1 s2,
  size s1 = size s2 -> water s1 = water s2 ->
  water (fold_left (injectSource dt) srcs s1)
  = water (fold_left (injectSource dt)
                     (filter (fun s => negb (skipped (size s1) s)) srcs) s2).
Proof.
  induction srcs as [|src srcs IH]; intros s1 s2 Hs Hw; simpl; [exact Hw|].
  destruct (skipped (size s1) src) eqn:E; simpl.
  - rewrite (injectSource_skipped dt s1 src E). now apply IH.
  - rewrite <- (injectSource_size dt s1 src).
    apply IH.
    + now rewrite !injectSource_size.
    + now apply injectSource_agree.
Qed.

Lemma flowPass_agree s1 s2 fr dt d :
  size s1 = size s2 -> terrain s1 = terrain s2 -> water s1 = water s2 ->
  flowPass s1 fr dt d = flowPass s2 fr dt d.
Proof.
  destruct s1 as [v1 n1 sd1 t1 w1 l1 vs1 tm1], s2 as [v2 n2 sd2 t2 w2 l2 vs2 tm2].
  cbn [size terrain water]. intros -> -> ->. reflexivity.
Qed.

(** X27.  Sources the injection loop passes over have no effect: a step
    leaves the same water whether or not the source list still holds the
    sources that are switched off or whose position rounds to a cell off
    the grid. *)
Theorem skipped_sources_have_no_effect cache state params :
  water (fst (stepWater cache state params))
  = water (fst (stepWater cache
                  (set_sources state
                     (filter (fun s => negb (skipped (size state) s))
                             (sources state)))
                  params)).
Proof.
  unfold stepWater, stepWaterWith. cbv zeta.
  cbn [set_sources sources].
  set (tick := Qmax (1 # 10000) (dt params)).
  set (s1 := fold_left (injectSource tick) (sources state) state).
  set (s2 := fold_left (injectSource tick) _ _).
  assert (water s1 = water s2) as Hw by (apply inject_live; reflexivity).
  assert (size s1 = size s2) as Hs.
  { transitivity (size state); [apply inject_frame|].
    symmetry. apply (inject_frame tick _ (set_sources state _)). }
  assert (terrain s1 = terrain s2) as Ht.
  { transitivity (terrain state); [apply inject_frame|].
    symmetry. apply (inject_frame tick _ (set_sources state _)). }
  rewrite <- Hw.
  destruct (getScratch cache (length (water s1))) as [delta cache'].
  cbn [fst set_water water].
  now rewrite <- Hs, (flowPass_agree s1 s2 _ _ _ Hs Ht Hw).
Qed.

End WaterLaws.

(** ** Further laws of the terrain brush *)

Module TerrainLaws.
Import Terrain TerrainFacts Slope.

Lemma nth_upd_either {A} n m (v : A) l d :
  nth m (upd n v l) d = nth m l d \/ (m = n /\ nth m (upd n v l) d = v).
Proof.
  revert n m. induction l as [|h t IH]; intros [|n] [|m]; simpl; auto.
  destruct (IH n m) as [E | [-> E]]; auto.
Qed.

Lemma aget_aset_either a i v k :
  aget (aset a i v) k = aget a k \/ (k = i /\ aget (aset a i v) k = v).
Proof.
  unfold aget, aset. destruct (Z.ltb_spec k 0); [now left|].
  destruct (Z.ltb_spec i 0); [now left|].
  destruct (nth_upd_either (Z.to_nat i) (Z.to_nat k) v a 0) as [E | [E1 E2]];
    [now left|]. right. split; [lia | exact E2].
Qed.

Lemma withinBounds_aset t i v :
  withinBounds t -> MIN_TERRAIN_HEIGHT <= v <= MAX_TERRAIN_HEIGHT ->
  withinBounds (aset t i v).
Proof.
  intros Ht Hv. unfold aset. destruct (i <? 0)%Z; [exact Ht|].
  now apply WorldFacts.Forall_upd.
Qed.

Lemma withinBounds_aget t i :
  withinBounds t -> (0 <= i < Z.of_nat (length t))%Z ->
  MIN_TERRAIN_HEIGHT <= aget t i <= MAX_TERRAIN_HEIGHT.
Proof.
  intros Ht Hi. unfold aget. destruct (Z.ltb_spec i 0); [lia|].
  unfold withinBounds in Ht. rewrite Forall_forall in Ht.
  apply Ht, nth_In. lia.
Qed.

Section Brush.

Variable Math_sqrt : Q -> Q.

Lemma brushCell_withinBounds size cx cy r s tool brush y t x :
  withinBounds t ->
  withinBounds (brushCell Math_sqrt size cx cy r s tool brush y t x).
Proof.
  intros Ht. unfold brushCell. destruct (Qgtb _ r); [exact Ht|].
  apply withinBounds_aset; [exact Ht|]. apply clamp_in_range, bounds_ordered.
Qed.

(** The influence of a stroke on a cell it reaches is not negative. *)
Lemma influence_nonneg d r s :
  1 <= r -> (1 # 100) <= s -> Qgtb d r = false -> 0 <= (1 - d / r) * s.
Proof.
  intros Hr Hs Hd. apply Qgtb_false in Hd.
  assert (d / r <= 1) by (apply Qle_shift_div_r; lra).
  apply Qmult_le_0_compat; lra.
Qed.

End Brush.

(** X7.  The brush keeps the terrain within the height bounds and the
    state well formed, and does not touch the water: for every tool,
    centre and settings, a terrain within [-12, 24] stays within
    [-12, 24]. *)
Theorem applyBrush_within_bounds (Math_sqrt : Q -> Q) state cx cy tool brush :
  well_formed state -> withinBounds (terrain state) ->
  withinBounds (terrain (applyBrush Math_sqrt state cx cy tool brush)) /\
  well_formed (applyBrush Math_sqrt state cx cy tool brush) /\
  water (applyBrush Math_sqrt state cx cy tool brush) = water state.
Proof.
  intros Hwf Ht.
  split; [|split; [now apply applyBrush_well_formed
                  | apply (applyBrush_keeps Math_sqrt state cx cy tool brush)]].
  unfold applyBrush. destruct tool; try exact Ht;
    unfold set_terrain; cbn [terrain]; rewrite nested_fold;
    apply fold_left_keeps; auto; intros t c Hc;
    now apply brushCell_withinBounds.
Qed.

Lemma applyBrush_within_bounds_witness :
  well_formed mesa /\ withinBounds (terrain mesa) /\
  withinBounds (terrain (applyBrush sqrtApprox mesa 0 0 raise (mkBrush 8 (6 # 10) 0))).
Proof.
  assert (Hwf : well_formed mesa) by (unfold well_formed; simpl; lia).
  assert (Ht : withinBounds (terrain mesa)).
  { unfold withinBounds, MIN_TERRAIN_HEIGHT, MAX_TERRAIN_HEIGHT; simpl.
    repeat constructor; conc_Q. }
  split; [exact Hwf|]. split; [exact Ht|].
  apply (applyBrush_within_bounds sqrtApprox mesa 0 0 raise); assumption.
Defined.

(** What a raise or lower stroke does to every cell of a terrain within
    the bounds. *)
Lemma applyBrush_monotone (Math_sqrt : Q -> Q) state cx cy tool brush :
  withinBounds (terrain state) ->
  forall k,
    match tool with
    | raise => aget (terrain state) k
               <= aget (terrain (applyBrush Math_sqrt state cx cy tool brush)) k
    | lower => aget (terrain (applyBrush Math_sqrt state cx cy tool brush)) k
               <= aget (terrain state) k
    | _ => True
    end.
Proof.
  intros Ht k. destruct tool; try exact I.
  - unfold applyBrush, set_terrain. cbn [terrain]. rewrite nested_fold.
    match goal with |- _ <= aget (fold_left ?F ?l ?a) k =>
      assert (H : withinBounds (fold_left F l a)
                  /\ aget (terrain state) k <= aget (fold_left F l a) k) end.
    { apply (fold_left_keeps
               (fun t => withinBounds t /\ aget (terrain state) k <= aget t k));
        [|split; [exact Ht | apply Qle_refl]].
      intros t c [Hb Hle]. split; [now apply brushCell_withinBounds|].
      unfold brushCell. destruct (Qgtb _ (Qmax 1 (radius brush))) eqn:Ed;
        [exact Hle|].
      destruct (aget_aset_either t (toIndex (size state) (snd c) (fst c))
                  (clamp (aget t (toIndex (size state) (snd c) (fst c))
                          + (1 - Math_sqrt
                                   ((inject_Z (snd c) - cx) * (inject_Z (snd c) - cx)
                                    + (inject_Z (fst c) - cy) * (inject_Z (fst c) - cy))
                                 / Qmax 1 (radius brush))
                            * clamp (strength brush) (1 # 100) 1)
                         MIN_TERRAIN_HEIGHT MAX_TERRAIN_HEIGHT) k)
        as [E | [-> E]]; rewrite E; [exact Hle|].
      pose proof (influence_nonneg _ _ (clamp (strength brush) (1 # 100) 1)
                    (Q.le_max_l 1 (radius brush))
                    (proj1 (clamp_in_range (strength brush) (1 # 100) 1
                                           ltac:(lra))) Ed) as Hinf.
      set (inf := (1 - _ / _) * _) in *.
      set (cur := aget t _) in *.
      assert (Hcur : MIN_TERRAIN_HEIGHT <= cur <= MAX_TERRAIN_HEIGHT).
      { unfold cur, aget. destruct (_ <? 0)%Z.
        - unfold MIN_TERRAIN_HEIGHT, MAX_TERRAIN_HEIGHT; lra.
        - destruct (Nat.lt_ge_cases (Z.to_nat (toIndex (size state) (snd c) (fst c)))
                                    (length t)) as [Hin | Hout].
          + unfold withinBounds in Hb. rewrite Forall_forall in Hb.
            apply Hb, nth_In, Hin.
          + rewrite nth_overflow by exact Hout.
            unfold MIN_TERRAIN_HEIGHT, MAX_TERRAIN_HEIGHT; lra. }
      apply Qle_trans with cur; [exact Hle|].
      destruct (clamp_cases (cur + inf) MIN_TERRAIN_HEIGHT MAX_TERRAIN_HEIGHT
                            bounds_ordered) as [[Ec ?]|[[Ec ?]|[Ec ?]]];
        rewrite Ec; lra. }
    apply H.
  - unfold applyBrush, set_terrain. cbn [terrain]. rewrite nested_fold.
    match goal with |- aget (fold_left ?F ?l ?a) k <= _ =>
      assert (H : withinBounds (fold_left F l a)
                  /\ aget (fold_left F l a) k <= aget (terrain state) k) end.
    { apply (fold_left_keeps
               (fun t => withinBounds t /\ aget t k <= aget (terrain state) k));
        [|split; [exact Ht | apply Qle_refl]].
      intros t c [Hb Hle]. split; [now apply brushCell_withinBounds|].
      unfold brushCell. destruct (Qgtb _ (Qmax 1 (radius brush))) eqn:Ed;
        [exact Hle|].
      destruct (aget_aset_either t (toIndex (size state) (snd c) (fst c))
                  (clamp (aget t (toIndex (size state) (snd c) (fst c))
                          - (1 - Math_sqrt
                                   ((inject_Z (snd c) - cx) * (inject_Z (snd c) - cx)
                                    + (inject_Z (fst c) - cy) * (inject_Z (fst c) - cy))
                                 / Qmax 1 (radius brush))
                            * clamp (strength brush) (1 # 100) 1)
                         MIN_TERRAIN_HEIGHT MAX_TERRAIN_HEIGHT) k)
        as [E | [-> E]]; rewrite E; [exact Hle|].
      pose proof (influence_nonneg _ _ (clamp (strength brush) (1 # 100) 1)
                    (Q.le_max_l 1 (radius brush))
                    (proj1 (clamp_in_range (strength brush) (1 # 100) 1
                                           ltac:(lra))) Ed) as Hinf.
      set (inf := (1 - _ / _) * _) in *.
      set (cur := aget t _) in *.
      assert (Hcur : MIN_TERRAIN_HEIGHT <= cur <= MAX_TERRAIN_HEIGHT).
      { unfold cur, aget. destruct (_ <? 0)%Z.
        - unfold MIN_TERRAIN_HEIGHT, MAX_TERRAIN_HEIGHT; lra.
        - destruct (Nat.lt_ge_cases (Z.to_nat (toIndex (size state) (snd c) (fst c)))
                                    (length t)) as [Hin | Hout].
          + unfold withinBounds in Hb. rewrite Forall_forall in Hb.
            apply Hb, nth_In, Hin.
          + rewrite nth_overflow by exact Hout.
            unfold MIN_TERRAIN_HEIGHT, MAX_TERRAIN_HEIGHT; lra. }
      apply Qle_trans with cur; [|exact Hle].
      destruct (clamp_cases (cur - inf) MIN_TERRAIN_HEIGHT MAX_TERRAIN_HEIGHT
                            bounds_ordered) as [[Ec ?]|[[Ec ?]|[Ec ?]]];
        rewrite Ec; lra. }
    apply H.
Qed.

(** X8.  On a terrain within the bounds a raise stroke lowers no cell and
    a lower stroke raises no cell, whatever the centre, the radius and
    the strength. *)
Theorem raise_and_lower_are_monotone (Math_sqrt : Q -> Q) state cx cy brush k :
  withinBounds (terrain state) ->
  aget (terrain state) k
  <= aget (terrain (applyBrush Math_sqrt state cx cy raise brush)) k /\
  aget (terrain (applyBrush Math_sqrt state cx cy lower brush)) k
  <= aget (terrain state) k.
Proof.
  intros Ht. split.
  - apply (applyBrush_monotone Math_sqrt state cx cy raise brush Ht k).
  - apply (applyBrush_monotone Math_sqrt state cx cy lower brush Ht k).
Qed.

Lemma raise_and_lower_are_monotone_witness :
  withinBounds (terrain mesa) /\
  aget (terrain mesa) 4
  <= aget (terrain (applyBrush sqrtApprox mesa 1 1 raise (mkBrush 2 (1 # 2) 0))) 4.
Proof.
  assert (Ht : withinBounds (terrain mesa)).
  { unfold withinBounds, MIN_TERRAIN_HEIGHT, MAX_TERRAIN_HEIGHT; simpl.
    repeat constructor; conc_Q. }
  split; [exact Ht|].
  apply (raise_and_lower_are_monotone sqrtApprox mesa 1 1 (mkBrush 2 (1 # 2) 0) 4 Ht).
Defined.

Lemma rangeFrom_empty lo hi : (hi < lo)%Z -> rangeFrom lo hi = [].
Proof.
  intros H. unfold rangeFrom.
  replace (Z.to_nat (hi - lo + 1)) with O by lia. reflexivity.
Qed.

Lemma nested_empty {S : Type} (F : Z -> S -> Z -> S) (ys xs : list Z) (s : S) :
  ys = [] \/ xs = [] ->
  fold_left (fun s y => fold_left (F y) xs s) ys s = s.
Proof.
  intros [-> | ->]; [reflexivity|].
  induction ys as [|y ys IH]; simpl; auto.
Qed.

Lemma set_terrain_same {A} (s : WorldState A) : set_terrain s (terrain s) = s.
Proof. destruct s; reflexivity. Qed.

(** X9.  A stroke whose bounding box lies off the grid changes nothing:
    when the centre is at least the radius plus one cell to the left of
    or below the grid, or at least the radius beyond its last row or
    column, [applyBrush] returns the state it was given. *)
Theorem applyBrush_off_grid (Math_sqrt : Q -> Q) state cx cy tool brush :
  cx + Qmax 1 (radius brush) <= -1 \/
  inject_Z (size state) <= cx - Qmax 1 (radius brush) \/
  cy + Qmax 1 (radius brush) <= -1 \/
  inject_Z (size state) <= cy - Qmax 1 (radius brush) ->
  applyBrush Math_sqrt state cx cy tool brush = state.
Proof.
  intros H.
  set (r := Qmax 1 (radius brush)) in *.
  assert (Hempty : rangeFrom (Z.max 0 (Qfloor (cy - r)))
                             (Z.min (size state - 1) (Qceiling (cy + r))) = []
                   \/ rangeFrom (Z.max 0 (Qfloor (cx - r)))
                                (Z.min (size state - 1) (Qceiling (cx + r))) = []).
  { destruct H as [H | [H | [H | H]]].
    - right. apply rangeFrom_empty.
      pose proof (Qceiling_resp_le _ _ H) as Hc.
      change (-1) with (inject_Z (-1)) in Hc. rewrite Qceiling_Z in Hc. lia.
    - right. apply rangeFrom_empty.
      pose proof (Qfloor_resp_le _ _ H) as Hf. rewrite Qfloor_Z in Hf. lia.
    - left. apply rangeFrom_empty.
      pose proof (Qceiling_resp_le _ _ H) as Hc.
      change (-1) with (inject_Z (-1)) in Hc. rewrite Qceiling_Z in Hc. lia.
    - left. apply rangeFrom_empty.
      pose proof (Qfloor_resp_le _ _ H) as Hf. rewrite Qfloor_Z in Hf. lia. }
  unfold applyBrush. fold r.
  destruct tool; try reflexivity;
    rewrite nested_empty by exact Hempty; apply set_terrain_same.
Qed.

Lemma applyBrush_off_grid_witness :
  (-5) + Qmax 1 (radius (mkBrush 2 (1 # 2) 0)) <= -1 /\
  applyBrush sqrtApprox mesa (-5) 1 raise (mkBrush 2 (1 # 2) 0) = mesa.
Proof.
  split; [vm_compute; congruence|].
  apply (applyBrush_off_grid sqrtApprox mesa (-5) 1 raise (mkBrush 2 (1 # 2) 0)).
  left. vm_compute; congruence.
Defined.

(** X10.  The slope of flat terrain is zero: when every cell of a
    terrain array of [size * size] cells has the same height,
    [computeSlopeAt] is 0 at every position, on the grid or off it; of
    [Math.sqrt] only [sqrt 0 = 0] is used. *)
Theorem flat_terrain_has_no_slope (Math_sqrt : Q -> Q) terrain size x y h :
  (forall q, q == 0 -> Math_sqrt q == 0) ->
  (0 <= size)%Z -> Z.of_nat (length terrain) = (size * size)%Z ->
  (forall k, (0 <= k < size * size)%Z -> aget terrain k == h) ->
  computeSlopeAt Math_sqrt terrain size x y == 0.
Proof.
  intros Hsqrt Hs Hlen Hflat. unfold computeSlopeAt.
  destruct (inBounds size x y) eqn:Hin; simpl negb; cbv iota; [|reflexivity].
  unfold inBounds in Hin. apply Hsqrt.
  rewrite !Hflat by (apply toIndex_bounds; lia). ring.
Qed.

Lemma flat_terrain_has_no_slope_witness :
  Z.of_nat (length (terrain mesa)) = (size mesa * size mesa)%Z /\
  computeSlopeAt sqrtApprox (terrain mesa) (size mesa) 1 1 == 0.
Proof.
  split; [reflexivity|].
  apply (flat_terrain_has_no_slope sqrtApprox (terrain mesa) (size mesa) 1 1 10).
  - exact sqrtApprox_zero.
  - simpl; lia.
  - reflexivity.
  - intros k Hk. simpl in Hk.
    assert (Ek : (k = 0 \/ k = 1 \/ k = 2 \/ k = 3 \/ k = 4 \/ k = 5
                  \/ k = 6 \/ k = 7 \/ k = 8)%Z) by lia.
    repeat (destruct Ek as [-> | Ek]; [reflexivity|]). subst; reflexivity.
Defined.

End TerrainLaws.

(** ** Further laws of terrain generation *)

Module WorldLaws.
Import World WorldFacts WorldSamples.

Section Generator.

Variables Math_sin Math_sqrt Math_exp : Q -> Q.
Variable Math_pow : Q -> Q -> Q.
Variable Math_PI : Q.
Variable RandomState : Type.
Variable Math_random : RandomState -> Q * RandomState.

Local Abbreviation generate :=
  (generateBaseTerrain Math_sin Math_sqrt Math_exp Math_pow Math_PI).
Local Abbreviation create :=
  (createInitialWorld Math_sin Math_sqrt Math_exp Math_pow Math_PI
                      RandomState Math_random).

(** X11.  [createInitialWorld] returns a well-formed world: the terrain
    and the water array have [size * size] cells, every water cell is 0,
    the clock is at 0 and the size and seed are the arguments. *)
Theorem createInitialWorld_well_formed n seed rng :
  (0 <= n)%Z ->
  let world := fst (create n seed rng) in
  well_formed world /\
  Forall (fun w => w = Fin 0) (water world) /\
  time world = 0 /\ size world = n /\ terrainSeed world = seed.
Proof.
  intros Hs. cbv zeta. rewrite createInitialWorld_unfold.
  unfold well_formed. cbn [size terrain water time terrainSeed].
  repeat split; auto.
  - now apply generateBaseTerrain_length.
  - rewrite repeat_length. nia.
  - apply Forall_forall. intros w Hw. now apply repeat_spec in Hw.
Qed.

(** *** The initial source *)

Lemma margin_bounds size :
  (0 <= size)%Z ->
  (2 <= interiorMargin size)%Z /\ (100 * interiorMargin size <= Z.max 200 (6 * size))%Z.
Proof.
  intros Hs. unfold interiorMargin.
  pose proof (Qfloor_le (inject_Z size * (6 # 100))) as Hf.
  set (f := Qfloor _) in *. unfold Qle in Hf. simpl in Hf. lia.
Qed.

(** X12.  A grid too small to have an interior gets no initial source:
    for every size up to 4, whatever the terrain, the source list of
    [generateInitialSources] is empty. *)
Theorem tiny_grid_has_no_source (terrain : list num) size :
  (size <= 4)%Z -> generateInitialSources terrain size = [].
Proof.
  intros Hs. unfold generateInitialSources, findHighestInteriorCell.
  set (margin := Z.max 2 (Qfloor (inject_Z size * (6 # 100)))).
  assert (Hm : (2 <= margin)%Z) by (unfold margin; lia).
  rewrite (TerrainLaws.rangeFrom_empty margin (size - margin - 1)) by lia.
  reflexivity.
Qed.

Lemma scan_found terrain size cs : forall seen best,
  found terrain size seen best ->
  found terrain size (seen ++ cs) (scan terrain size cs best).
Proof.
  induction cs as [|c cs IH]; intros seen best Hb; simpl.
  - now rewrite app_nil_r.
  - replace (seen ++ c :: cs) with ((seen ++ [c]) ++ cs)
      by (rewrite <- app_assoc; reflexivity).
    apply IH. fold (cellIndex size c).
    destruct (nget terrain (cellIndex size c)) as [h|] eqn:Ec.
    + destruct best as [[i bh]|].
      * destruct Hb as ((c0 & Hc0 & Ei) & Hi & Hmax).
        destruct (Qgtb h bh) eqn:Eg.
        -- apply Qgtb_true in Eg. split; [|split].
           ++ exists c. split; [apply in_or_app; right; now left | reflexivity].
           ++ exact Ec.
           ++ intros c' h' Hin Hc'. apply in_app_or in Hin.
              destruct Hin as [Hin | [<- | []]].
              ** pose proof (Hmax c' h' Hin Hc'). lra.
              ** rewrite Ec in Hc'. inversion Hc'. apply Qle_refl.
        -- apply Qgtb_false in Eg. split; [|split].
           ++ exists c0. split; [apply in_or_app; now left | exact Ei].
           ++ exact Hi.
           ++ intros c' h' Hin Hc'. apply in_app_or in Hin.
              destruct Hin as [Hin | [<- | []]].
              ** exact (Hmax c' h' Hin Hc').
              ** rewrite Ec in Hc'. inversion Hc'; subst. exact Eg.
      * split; [|split].
        -- exists c. split; [apply in_or_app; right; now left | reflexivity].
        -- exact Ec.
        -- intros c' h' Hin Hc'. apply in_app_or in Hin.
           destruct Hin as [Hin | [<- | []]].
           ++ rewrite (Hb c' Hin) in Hc'. discriminate.
           ++ rewrite Ec in Hc'. inversion Hc'. apply Qle_refl.
    + destruct best as [[i bh]|].
      * destruct Hb as ((c0 & Hc0 & Ei) & Hi & Hmax). split; [|split].
        -- exists c0. split; [apply in_or_app; now left | exact Ei].
        -- exact Hi.
        -- intros c' h' Hin Hc'. apply in_app_or in Hin.
           destruct Hin as [Hin | [<- | []]].
           ++ exact (Hmax c' h' Hin Hc').
           ++ rewrite Ec in Hc'. discriminate.
      * intros c' Hin. apply in_app_or in Hin.
        destruct Hin as [Hin | [<- | []]]; [now apply Hb | exact Ec].
Qed.

Lemma findHighestInteriorCell_scan terrain size margin :
  findHighestInteriorCell terrain size margin
  = match scan terrain size
            (list_prod (rangeFrom margin (size - margin - 1))
                       (rangeFrom margin (size - margin - 1))) None with
    | None => None
    | Some (bestIndex, bestHeight) =>
        Some (Z.rem bestIndex size, (bestIndex / size)%Z, bestHeight)
    end.
Proof.
  unfold findHighestInteriorCell, scan. now rewrite nested_fold.
Qed.

(** The rate of the initial source lies between 1.1 and 2.05. *)
Lemma toFixed2_rate n :
  0 <= n -> n <= 1 ->
  (11 # 10) <= toFixed2 ((11 # 10) + n * (95 # 100)) <= (205 # 100).
Proof.
  intros H0 H1. unfold toFixed2.
  set (q := (11 # 10) + n * (95 # 100)).
  assert (Hq : (11 # 10) <= q /\ q <= (205 # 100)) by (unfold q; split; lra).
  assert (E : Qltb q 0 = false) by (apply Qgtb_false; lra).
  rewrite E.
  assert (Hlo : (110 <= Qfloor (q * 100 + (1 # 2)))%Z).
  { change 110%Z with (Qfloor (inject_Z 110)). apply Qfloor_resp_le.
    change (inject_Z 110) with 110. lra. }
  assert (Hhi : (Qfloor (q * 100 + (1 # 2)) <= 205)%Z).
  { change 205%Z with (Qfloor (411 # 2)). apply Qfloor_resp_le. lra. }
  set (f := Qfloor _) in *.
  rewrite Zle_Qle in Hlo, Hhi.
  change (inject_Z 110) with 110 in Hlo. change (inject_Z 205) with 205 in Hhi.
  split.
  - apply Qle_shift_div_l; lra.
  - apply Qle_shift_div_r; lra.
Qed.

(** X13.  On a grid of size 5 or more [createInitialWorld] places
    exactly one source: it is active, it sits on an interior cell (at
    least the margin [max(2, floor(0.06 * size))] away from every edge,
    so inside the grid) whose height no interior cell exceeds, and its
    rate lies between 1.1 and 2.05. *)
Theorem initial_source_on_highest_interior_cell size seed rng :
  (5 <= size)%Z ->
  let world := fst (create size seed rng) in
  exists s x y h,
    sources world = [s] /\ active s = true /\
    src_x s = inject_Z x /\ src_y s = inject_Z y /\
    interior size x y /\ inBounds size x y = true /\
    nget (terrain world) (toIndex size x y) = Fin h /\
    (forall x' y', interior size x' y' ->
       exists h', nget (terrain world) (toIndex size x' y') = Fin h' /\ h' <= h) /\
    (11 # 10) <= rate s <= (205 # 100).
Proof.
  intros Hs. cbv zeta. rewrite createInitialWorld_unfold. cbn [sources terrain].
  assert (Hs0 : (0 <= size)%Z) by lia.
  pose proof (generateBaseTerrain_inRange Math_sin Math_sqrt Math_exp Math_pow
                Math_PI size seed Hs0 ltac:(lia)) as Hrange.
  pose proof (generateBaseTerrain_length Math_sin Math_sqrt Math_exp Math_pow
                Math_PI size seed Hs0) as Hlen.
  set (t := generate size seed) in *.
  destruct (margin_bounds size Hs0) as [Hm2 Hm100].
  unfold generateInitialSources. fold (interiorMargin size).
  set (m := interiorMargin size) in *.
  rewrite findHighestInteriorCell_scan.
  set (cs := list_prod (rangeFrom m (size - m - 1)) (rangeFrom m (size - m - 1))).
  assert (Hcs : forall c, In c cs <-> interior size (snd c) (fst c)).
  { intros [y x]. unfold cs, interior. fold m. rewrite in_prod_iff.
    rewrite !TerrainFacts.in_rangeFrom. simpl. lia. }
  assert (Hfin : forall c, In c cs ->
                   exists h, nget t (cellIndex size c) = Fin h
                             /\ MIN_TERRAIN_HEIGHT <= h <= MAX_TERRAIN_HEIGHT).
  { intros c Hc. apply Hcs in Hc. destruct Hc as [Hx Hy].
    assert (Hr : inRange (nget t (cellIndex size c))).
    { apply Forall_nget; [exact Hrange|]. rewrite Hlen.
      apply toIndex_bounds; lia. }
    destruct (nget t (cellIndex size c)) as [h|]; [|contradiction].
    now exists h. }
  pose proof (scan_found t size cs [] None (fun c H => match H with end)) as Hscan.
  simpl app in Hscan.
  destruct (scan t size cs None) as [[i h]|].
  - destruct Hscan as (([y x] & Hc & Ei) & Hi & Hmax).
    pose proof (proj1 (Hcs _) Hc) as [Hx Hy]. simpl in Hx, Hy.
    unfold cellIndex in Ei; simpl in Ei. unfold toIndex in Ei.
    assert (Ex : Z.rem i size = x).
    { rewrite Z.rem_mod_nonneg by nia. symmetry.
      apply (Z.mod_unique_pos i size y x); lia. }
    assert (Ey : (i / size)%Z = y).
    { symmetry. apply (Z.div_unique_pos i size y x); lia. }
    rewrite Ex, Ey.
    destruct (Hfin (y, x) Hc) as (h0 & Eh0 & Hh0).
    unfold cellIndex in Eh0; simpl in Eh0. unfold toIndex in Eh0 at 1.
    rewrite Ei, Hi in Eh0. inversion Eh0; subst h0.
    eexists; exists x, y, h. split; [reflexivity|]. cbn [active src_x src_y rate].
    split; [reflexivity|]. split; [reflexivity|]. split; [reflexivity|].
    split; [split; assumption|].
    split; [unfold inBounds; lia|].
    split; [unfold toIndex; rewrite Ei; exact Hi|].
    split.
    + intros x' y' Hint.
      assert (Hc' : In (y', x') cs) by (apply Hcs; exact Hint).
      destruct (Hfin _ Hc') as (h' & Eh' & _).
      exists h'. split; [exact Eh'|]. exact (Hmax _ _ Hc' Eh').
    + apply toFixed2_rate; apply (TerrainFacts.clamp_in_range _ 0 1); lra.
  - exfalso.
    assert (Hc : In (m, m) cs).
    { apply Hcs. unfold interior. fold m. simpl. lia. }
    destruct (Hfin _ Hc) as (h & Eh & _). rewrite (Hscan _ Hc) in Eh. discriminate.
Qed.

End Generator.

Lemma initial_source_on_highest_interior_cell_witness :
  (5 <= 6)%Z /\
  exists s, sources (sampleWorld 6 0) = [s] /\ active s = true.
Proof.
  split; [lia|].
  destruct (initial_source_on_highest_interior_cell
              Climate.sinApprox Terrain.sqrtApprox expApprox powApprox
              Climate.piApprox Z lcg 6 0 1%Z ltac:(lia))
    as (s & x & y & h & Hs & Ha & _).
  exists s. split; [exact Hs | exact Ha].
Defined.

Lemma createInitialWorld_well_formed_witness :
  (0 <= 3)%Z /\ well_formed (sampleWorld 3 0).
Proof.
  split; [lia|].
  apply (createInitialWorld_well_formed
           Climate.sinApprox Terrain.sqrtApprox expApprox powApprox
           Climate.piApprox Z lcg 3 0 1%Z). lia.
Defined.

Lemma tiny_grid_has_no_source_witness :
  (4 <= 4)%Z /\ generateInitialSources (terrain (sampleWorld 4 0)) 4 = [].
Proof.
  split; [lia|]. apply tiny_grid_has_no_source. lia.
Defined.

(** X14.  Off the one-cell grid the generated terrain is finite and
    within the height bounds: for every size other than 1 and every
    seed, each of the [size * size] cells of the terrain of
    [createInitialWorld] is a number in [-12, 24]. *)
Theorem terrain_within_bounds_off_one_cell
        (Math_sin Math_sqrt Math_exp : Q -> Q) (Math_pow : Q -> Q -> Q)
        (Math_PI : Q) (RandomState : Type)
        (Math_random : RandomState -> Q * RandomState)
        (size : Z) (seed : Q) (rng : RandomState) (i : Z) :
  (0 <= size)%Z -> size <> 1%Z -> (0 <= i < size * size)%Z ->
  exists h,
    nget (terrain (fst (createInitialWorld Math_sin Math_sqrt Math_exp Math_pow
                          Math_PI RandomState Math_random size seed rng))) i
    = Fin h /\
    MIN_TERRAIN_HEIGHT <= h <= MAX_TERRAIN_HEIGHT.
Proof.
  intros Hs H1 Hi. rewrite createInitialWorld_unfold. cbn [terrain].
  pose proof (generateBaseTerrain_inRange Math_sin Math_sqrt Math_exp Math_pow
                Math_PI size seed Hs H1) as Hrange.
  pose proof (generateBaseTerrain_length Math_sin Math_sqrt Math_exp Math_pow
                Math_PI size seed Hs) as Hlen.
  assert (Hr : inRange (nget (generateBaseTerrain Math_sin Math_sqrt Math_exp
                                Math_pow Math_PI size seed) i)).
  { apply Forall_nget; [exact Hrange | now rewrite Hlen]. }
  destruct (nget _ i) as [h|]; [|contradiction]. now exists h.
Qed.

Lemma terrain_within_bounds_off_one_cell_witness :
  (0 <= 2)%Z /\ 2%Z <> 1%Z /\
  exists h, nget (terrain (sampleWorld 2 0)) 3 = Fin h /\
            MIN_TERRAIN_HEIGHT <= h <= MAX_TERRAIN_HEIGHT.
Proof.
  split; [lia|]. split; [lia|].
  apply (terrain_within_bounds_off_one_cell
           Climate.sinApprox Terrain.sqrtApprox expApprox powApprox
           Climate.piApprox Z lcg 2 0 1%Z 3); lia.
Defined.

End WorldLaws.

(** ** Saving and loading *)

Module StorageLaws.
Import Persistence Storage.

Lemma validateSource_jsonSource s : validateSource (jsonSource s) = Ok s.
Proof. destruct s; reflexivity. Qed.

Lemma validateSources_jsonSource l :
  mapResult validateSource (map jsonSource l) = Ok l.
Proof.
  induction l as [|s l IH]; [reflexivity|].
  cbn [map mapResult]. now rewrite validateSource_jsonSource, IH.
Qed.

Section RoundTrip.

Variable StringToNumber : string -> number.
Variable ArrayToString : list json -> string.

Lemma from_jsonNumber l :
  Float32Array_from StringToNumber ArrayToString (map jsonNumber l)
  = Ok (map reloaded l).
Proof.
  unfold Float32Array_from.
  induction l as [|n l IH]; [reflexivity|].
  cbn [map mapResult]. rewrite IH. destruct n; reflexivity.
Qed.

Lemma reloaded_finite l :
  Forall isFinite l -> map reloaded l = map fround l.
Proof.
  induction 1 as [|n l Hn _ IH]; [reflexivity|].
  cbn [map]. rewrite IH. destruct n; try contradiction; reflexivity.
Qed.

Lemma fround_float32 l : Forall float32 l -> map fround l = l.
Proof.
  induction 1 as [|n l Hn _ IH]; [reflexivity|].
  cbn [map]. now rewrite IH, Hn.
Qed.

Lemma deserialize_serialize state :
  deserializeWorld StringToNumber ArrayToString (serializeWorld state)
  = if sized state
    then Ok (mkWorldState 1 (size state) (terrainSeed state)
                          (map reloaded (terrain state))
                          (map reloaded (water state))
                          (sources state) (vegetationSeed state) (time state))
    else Throw "Corrupted world dimensions".
Proof.
  unfold deserializeWorld, serializeWorld.
  cbn [notAnObject prop lookup field String.eqb Ascii.eqb Bool.eqb
       isFiniteNumber isArray finite negb orb numberOf itemsOf lengthOf].
  unfold lengthOf. cbn [itemsOf]. rewrite !length_map. unfold sized.
  destruct (sameNumber (Finite (inject_Z (Z.of_nat (length (terrain state))))) _);
    [|reflexivity].
  destruct (sameNumber (Finite (inject_Z (Z.of_nat (length (water state))))) _);
    [|reflexivity].
  cbn [negb orb andb]. rewrite !from_jsonNumber. cbn [bind].
  unfold validateSources. cbn [isArray negb itemsOf].
  now rewrite validateSources_jsonSource.
Qed.

(** X15.  What a save followed by a load returns, for every state with
    finite scalar fields: when the two arrays have as many cells as the
    machine's product [size * size] says, the state with version 1 and
    every cell read back (0 for a cell that is not a finite number: the
    text holds [null] for it) and stored as float32; otherwise the error
    'Corrupted world dimensions'. *)
Theorem load_after_save state :
  deserializeWorld StringToNumber ArrayToString (serializeWorld state)
  = if sized state
    then Ok (mkWorldState 1 (size state) (terrainSeed state)
                          (map reloaded (terrain state))
                          (map reloaded (water state))
                          (sources state) (vegetationSeed state) (time state))
    else Throw "Corrupted world dimensions".
Proof. exact (deserialize_serialize state). Qed.

(** X16.  Round trip: a state of version 1 whose arrays have
    [size * size] cells, all finite, is loaded back from its save as it
    was, each cell stored as float32 once more; its cells being float32
    values, as the cells of a [Float32Array] are, it is loaded back
    exactly as it was. *)
Theorem save_load_round_trip state :
  version state = 1%Z -> sized state = true ->
  Forall isFinite (terrain state) -> Forall isFinite (water state) ->
  deserializeWorld StringToNumber ArrayToString (serializeWorld state)
  = Ok (mkWorldState (version state) (size state) (terrainSeed state)
                     (map fround (terrain state)) (map fround (water state))
                     (sources state) (vegetationSeed state) (time state)) /\
  (Forall float32 (terrain state) -> Forall float32 (water state) ->
   deserializeWorld StringToNumber ArrayToString (serializeWorld state)
   = Ok state).
Proof.
  intros Hv Hsz Ht Hw. rewrite deserialize_serialize, Hsz.
  rewrite (reloaded_finite _ Ht), (reloaded_finite _ Hw), <- Hv.
  split; [reflexivity|]. intros Ft Fw.
  rewrite (fround_float32 _ Ft), (fround_float32 _ Fw).
  destruct state; reflexivity.
Qed.

End RoundTrip.

Lemma save_load_round_trip_witness :
  version testWorld = 1%Z /\ sized testWorld = true /\
  Forall float32 (terrain testWorld) /\ Forall float32 (water testWorld) /\
  deserializeWorld notNumeric noText (serializeWorld testWorld) = Ok testWorld.
Proof.
  assert (Ft : Forall float32 (terrain testWorld))
    by (repeat constructor; vm_compute; reflexivity).
  assert (Fw : Forall float32 (water testWorld))
    by (repeat constructor; vm_compute; reflexivity).
  split; [reflexivity|]. split; [vm_compute; reflexivity|].
  split; [exact Ft|]. split; [exact Fw|].
  refine (proj2 (save_load_round_trip notNumeric noText testWorld
                   _ _ _ _) Ft Fw).
  - reflexivity.
  - vm_compute; reflexivity.
  - repeat constructor.
  - repeat constructor.
Defined.

End StorageLaws.

Module SimulationLaws.
Import Climate Simulation.

Lemma Qltb_true a b : Qltb a b = true <-> a < b.
Proof. apply (Qgtb_true b a). Qed.

Lemma Qltb_false a b : Qltb a b = false <-> b <= a.
Proof. apply (Qgtb_false b a). Qed.

(** The fractional part [q - Math.floor(q)]. *)
Lemma frac_range q : 0 <= q - inject_Z (Qfloor q) < 1.
Proof.
  pose proof (Qfloor_le q). pose proof (Qlt_floor q) as H1.
  rewrite inject_Z_plus in H1. change (inject_Z 1) with 1 in H1. lra.
Qed.

Lemma Qfloor_unique q z :
  inject_Z z <= q -> q < inject_Z (z + 1) -> Qfloor q = z.
Proof.
  intros Hlo Hhi.
  pose proof (Qfloor_resp_le _ _ Hlo) as H1. rewrite Qfloor_Z in H1.
  pose proof (Qfloor_le q) as H2.
  assert (inject_Z (Qfloor q) < inject_Z (z + 1)) as H3 by lra.
  rewrite <- Zlt_Qlt in H3. lia.
Qed.

Lemma Qfloor_succ q : Qfloor (q + 1) = (Qfloor q + 1)%Z.
Proof.
  apply Qfloor_unique.
  - rewrite inject_Z_plus. change (inject_Z 1) with 1.
    pose proof (Qfloor_le q). lra.
  - pose proof (Qlt_floor q) as H.
    rewrite !inject_Z_plus in *. change (inject_Z 1) with 1 in *. lra.
Qed.

(** The truncated quotient is less than one away from the quotient. *)
Lemma quot_close q :
  -1 < q - inject_Z (Z.quot (Qnum q) (Zpos (Qden q))) < 1.
Proof.
  destruct q as [n d]. cbn [Qnum Qden].
  pose proof (Z.quot_rem' n (Zpos d)) as E.
  assert (- Zpos d < Z.rem n (Zpos d) < Zpos d)%Z as B.
  { destruct (Z.le_gt_cases 0 n) as [Hn | Hn].
    - pose proof (Z.rem_bound_pos n (Zpos d) Hn). lia.
    - pose proof (Z.rem_bound_pos_neg n (Zpos d)). lia. }
  set (z := Z.quot n (Zpos d)) in *.
  unfold Qlt, Qminus, Qplus, Qopp, inject_Z; cbn [Qnum Qden].
  split; nia.
Qed.

(** The sign of the truncated remainder is the sign of the dividend. *)
Lemma quot_side q :
  (0 <= q -> 0 <= q - inject_Z (Z.quot (Qnum q) (Zpos (Qden q)))) /\
  (q <= 0 -> q - inject_Z (Z.quot (Qnum q) (Zpos (Qden q))) <= 0).
Proof.
  destruct q as [n d]. cbn [Qnum Qden].
  pose proof (Z.quot_rem' n (Zpos d)) as E.
  set (z := Z.quot n (Zpos d)) in *.
  unfold Qle, Qminus, Qplus, Qopp, inject_Z; cbn [Qnum Qden].
  split; intros Hn.
  - assert (0 <= n)%Z as Hn' by lia.
    pose proof (Z.rem_bound_pos n (Zpos d) Hn'). nia.
  - assert (n <= 0)%Z as Hn' by lia.
    pose proof (Z.rem_bound_pos_neg n (Zpos d)). nia.
Qed.

Lemma Qrem_range a b : 0 < b -> - b < Qrem a b < b.
Proof.
  intros Hb. unfold Qrem. cbv zeta.
  pose proof (quot_close (a / b)) as H.
  set (z := inject_Z _) in *.
  assert (a == b * (a / b)) as E by (field; lra).
  assert (a - b * z == b * (a / b - z)) as -> by (rewrite E at 1; ring).
  split; nra.
Qed.

(** [value % m], moved up by [m] when negative, lies in [0, m). *)
Lemma wrapped_range a b :
  0 < b ->
  0 <= (if Qltb (Qrem a b) 0 then Qrem a b + b else Qrem a b) < b.
Proof.
  intros Hb. pose proof (Qrem_range a b Hb).
  destruct (Qltb (Qrem a b) 0) eqn:E.
  - apply Qltb_true in E. lra.
  - apply Qltb_false in E. lra.
Qed.

Lemma Qrem_small a b : 0 < b -> 0 <= a -> a < b -> Qrem a b == a.
Proof.
  intros Hb Ha Hab. unfold Qrem. cbv zeta.
  assert (0 <= a / b) as Hq by (apply Qle_shift_div_l; lra).
  assert (a / b < 1) as Hq1 by (apply Qlt_shift_div_r; lra).
  pose proof (quot_close (a / b)) as [H1 H2].
  pose proof (proj1 (quot_side (a / b)) Hq) as H3.
  set (z := Z.quot _ _) in *.
  assert (z = 0%Z) as ->.
  { assert (inject_Z (-1) < inject_Z z) as A by (change (inject_Z (-1)) with (-1); lra).
    assert (inject_Z z < inject_Z 1) as B by (change (inject_Z 1) with 1; lra).
    rewrite <- Zlt_Qlt in A, B. lia. }
  change (inject_Z 0) with 0. ring.
Qed.

(** X18.  In exact arithmetic the simulated day phase is a fraction of a
    day, at least 0 and less than 1 for every time (negative ones too),
    and the day repeats every [DAY_CYCLE_SECONDS] = 1440 seconds of
    simulated time.  (In doubles the phase can round to 1 and the period
    holds up to the last place, see [MachineFacts].) *)
Theorem day_phase_cycle time :
  0 <= getSimulatedDayPhase time < 1 /\
  getSimulatedDayPhase (time + DAY_CYCLE_SECONDS) == getSimulatedDayPhase time.
Proof.
  split; [apply frac_range|].
  unfold getSimulatedDayPhase. cbv zeta.
  set (p := time / DAY_CYCLE_SECONDS + DAY_START_HOUR / 24).
  assert ((time + DAY_CYCLE_SECONDS) / DAY_CYCLE_SECONDS + DAY_START_HOUR / 24
          == p + 1) as E.
  { unfold p, DAY_CYCLE_SECONDS. field. }
  rewrite (Qfloor_comp _ _ E), Qfloor_succ, E, inject_Z_plus.
  change (inject_Z 1) with 1. ring.
Qed.

(** X19.  In exact arithmetic the simulated hour is 24 times the day
    phase and lies in [0, 24): the [wrapHour] call of [getSimulatedHour]
    never changes its argument.  (In doubles a phase rounded to 1 is
    wrapped to the hour 0, see [MachineFacts].) *)
Theorem simulated_hour time :
  getSimulatedHour time == getSimulatedDayPhase time * 24 /\
  0 <= getSimulatedHour time < 24.
Proof.
  pose proof (frac_range (time / DAY_CYCLE_SECONDS + DAY_START_HOUR / 24)) as H.
  unfold getSimulatedHour, wrapHour. cbv zeta.
  fold (getSimulatedDayPhase time) in H.
  set (p := getSimulatedDayPhase time) in *.
  assert (Qrem (p * 24) 24 == p * 24) as E by (apply Qrem_small; lra).
  destruct (Qltb (Qrem (p * 24) 24) 0) eqn:C.
  - apply Qltb_true in C. lra.
  - lra.
Qed.

Lemma saturate_range v : 0 <= saturate v <= 1.
Proof.
  unfold saturate.
  destruct (Q.max_spec 0 (Qmin 1 v)) as [[? ->] | [? ->]];
    destruct (Q.min_spec 1 v) as [[? E] | [? E]]; rewrite ?E in *; lra.
Qed.


Lemma saturate_floor lo v : 0 <= lo <= 1 -> lo <= v -> lo <= saturate v.
Proof.
  intros H Hv. unfold saturate.
  destruct (Q.max_spec 0 (Qmin 1 v)) as [[? ->] | [? ->]];
    destruct (Q.min_spec 1 v) as [[? E] | [? E]]; rewrite ?E in *; lra.
Qed.

Lemma wrapRadians_range Math_PI v :
  0 < Math_PI -> 0 <= wrapRadians Math_PI v < TAU Math_PI.
Proof.
  intros H. unfold wrapRadians. cbv zeta. apply wrapped_range.
  unfold TAU. lra.
Qed.

Section ClimateRanges.

Variable Math_sin : Q -> Q.
Variable Math_PI : Q.

(** X20.  In exact arithmetic every field of a climate state lies in its
    range, whatever the time, the seed, the day phase passed in, the
    overrides and the values of [Math.sin]: the day phase in [0, 1), the
    daylight in [0.18, 1], cloudiness, rain, wind strength and gustiness
    in [0, 1] and the wind direction in [0, 2 pi).  (In doubles the two
    wrapped fields can round up to 1 and to 2 pi, see [MachineFacts].) *)
Theorem climate_in_range time seed dayPhase weatherOverride windOverride :
  0 < Math_PI ->
  let c := createClimateState Math_sin Math_PI time seed dayPhase
                              weatherOverride windOverride in
  0 <= Climate.dayPhase c < 1 /\
  18 # 100 <= daylight c <= 1 /\
  0 <= cloudiness c <= 1 /\
  0 <= rainIntensity c <= 1 /\
  0 <= windStrength c <= 1 /\
  0 <= windDirection c < TAU Math_PI /\
  0 <= windGustiness c <= 1.
Proof.
  intros Hpi c. subst c. unfold createClimateState. cbv zeta.
  cbn [Climate.dayPhase daylight cloudiness rainIntensity windStrength
       windDirection windGustiness].
  split; [apply frac_range|].
  split.
  { split; [|apply saturate_range].
    apply saturate_floor; [lra|].
    pose proof (Qmax_nonneg (Math_sin ((dayPhase - inject_Z (Qfloor dayPhase)
                                        - (25 # 100)) * TAU Math_PI))).
    lra. }
  repeat split;
    try (destruct weatherOverride; apply saturate_range);
    try (destruct windOverride; apply saturate_range);
    destruct windOverride; apply wrapRadians_range; assumption.
Qed.

End ClimateRanges.

Lemma climate_in_range_witness :
  0 < piApprox /\
  18 # 100 <= daylight (createClimateState sinApprox piApprox 90 7 (3 # 2)
                                           None None) <= 1.
Proof.
  split; [reflexivity|].
  apply (climate_in_range sinApprox piApprox 90 7 (3 # 2) None None).
  reflexivity.
Defined.

(** A loop over every index that rewrites each cell from its old value. *)
Lemma each_index_fold (val : Z -> Q -> Q) (G : list Q -> Z -> list Q) w :
  (forall w i, G w i = aset w i (val i (aget w i))) ->
  let w' := fold_left G (range (Z.of_nat (length w))) w in
  length w' = length w /\
  forall i, (0 <= i < Z.of_nat (length w))%Z -> aget w' i = val i (aget w i).
Proof.
  intros HG w'.
  destruct (inplace_fold (fun i => i) val G (range (Z.of_nat (length w))) HG)
    with (w := w) as (Hlen & Hval & _).
  - rewrite map_id. apply NoDup_range.
  - intros c Hc. now apply in_range in Hc.
  - split; [exact Hlen|]. intros i Hi. apply Hval. now apply in_range.
Qed.

Lemma Forall_by_index (P : Q -> Prop) l :
  (forall i, (0 <= i < Z.of_nat (length l))%Z -> P (aget l i)) -> Forall P l.
Proof.
  intros H. apply Forall_forall. intros v Hv.
  destruct (In_nth l v 0 Hv) as (k & Hk & <-).
  rewrite <- aget_nth. apply H. lia.
Qed.

Lemma Forall_at_index (P : Q -> Prop) l i :
  Forall P l -> (0 <= i < Z.of_nat (length l))%Z -> P (aget l i).
Proof.
  intros Hl Hi. unfold aget. destruct (Z.ltb_spec i 0); [lia|].
  rewrite Forall_forall in Hl. apply Hl, nth_In. lia.
Qed.

Lemma applyRainfall_frame state rain dt :
  same_frame state (applyRainfall state rain dt).
Proof.
  unfold applyRainfall. destruct (Qle_bool rain (2 # 100)).
  - apply WaterFacts.same_frame_refl.
  - apply WaterFacts.set_water_frame.
Qed.

Lemma rainCell_form terrain baseRain w i :
  rainCell terrain baseRain w i
  = aset w i ((fun i old =>
                 old + baseRain
                       * ((72 # 100)
                          + saturate ((aget terrain i + 8) / 26) * (45 # 100)))
                i (aget w i)).
Proof. reflexivity. Qed.

Lemma applyRainfall_length state rain dt :
  length (water (applyRainfall state rain dt)) = length (water state).
Proof.
  unfold applyRainfall. destruct (Qle_bool rain (2 # 100)); [reflexivity|].
  destruct state as [v n sd t w srcs vs tm]. cbn [set_water water terrain].
  apply (each_index_fold _ _ w (rainCell_form t _)).
Qed.

Lemma applyRainfall_get state rain dt i :
  (0 <= i < Z.of_nat (length (water state)))%Z ->
  aget (water (applyRainfall state rain dt)) i
  == aget (water state) i
     + (if Qle_bool rain (2 # 100) then 0
        else rain * dt * (8 # 100000)
             * ((72 # 100)
                + saturate ((aget (terrain state) i + 8) / 26) * (45 # 100))).
Proof.
  intros Hi. unfold applyRainfall.
  destruct (Qle_bool rain (2 # 100)); [ring|].
  destruct state as [v n sd t w srcs vs tm].
  cbn [set_water water terrain] in *.
  rewrite (proj2 (each_index_fold _ _ w (rainCell_form t _)) i Hi).
  reflexivity.
Qed.

(** X21.  In exact arithmetic, rain on one cell of a well-formed world,
    for a time step that is not negative: at an intensity of 0.02 or less
    the cell is left as it is, and above it the cell gains at least 0.72
    and at most 1.17 times [rainIntensity * dt * 0.00008], so rain never
    removes water.  (A float32 cell gains the rounded sum, which can be
    nothing or more than the upper bound, see [MachineFacts].) *)
Theorem rainfall_per_cell state rain dt i :
  well_formed state -> 0 <= dt ->
  (0 <= i < size state * size state)%Z ->
  let fallen :=
    aget (water (applyRainfall state rain dt)) i - aget (water state) i in
  (rain <= 2 # 100 -> fallen == 0) /\
  (2 # 100 < rain ->
   (72 # 100) * (rain * dt * (8 # 100000)) <= fallen
   /\ fallen <= (117 # 100) * (rain * dt * (8 # 100000))).
Proof.
  intros (_ & _ & Hw) Hdt Hi fallen. subst fallen.
  rewrite <- Hw in Hi.
  rewrite (applyRainfall_get state rain dt i Hi).
  pose proof (saturate_range ((aget (terrain state) i + 8) / 26)) as Ha.
  set (a := saturate _) in *.
  destruct (Qle_bool rain (2 # 100)) eqn:E.
  - apply Qle_bool_iff in E. split; intros H; [ring | lra].
  - apply Qle_bool_false in E. split; intros H; [lra|].
    assert (0 <= rain * dt) by nra.
    set (b := rain * dt) in *. split; nra.
Qed.

Lemma rainfall_per_cell_witness :
  well_formed Water.pond /\
  (72 # 100) * ((1 # 2) * (1 # 60) * (8 # 100000))
  <= aget (water (applyRainfall Water.pond (1 # 2) (1 # 60))) 2
     - aget (water Water.pond) 2.
Proof.
  split; [unfold well_formed; simpl; lia|].
  apply (rainfall_per_cell Water.pond (1 # 2) (1 # 60) 2).
  - unfold well_formed; simpl; lia.
  - conc_Q.
  - simpl; lia.
  - reflexivity.
Defined.




Lemma humidityCell_form state dt rain w i :
  humidityCell state dt rain w i
  = aset w i
      ((fun i current =>
          let waterWet := saturate (aget (water state) i * (32 # 10)) in
          let rainWet := rain * (45 # 100) in
          let altitude := saturate ((aget (terrain state) i + 8) / 26) in
          let retainedMoisture := (12 # 100) + (1 - altitude) * (24 # 100) in
          let wetTarget :=
            Qmax waterWet (retainedMoisture + rainWet * (35 # 100)) in
          let gain := if Qgtb wetTarget current then 21 # 10 else 7 # 10 in
          let next := current + (wetTarget - current) * gain * dt in
          let next :=
            next - ((22 # 1000) + altitude * (2 # 100)) * (1 - waterWet)
                   * (1 - rain * (5 # 10)) * dt in
          saturate next) i (aget w i)).
Proof. reflexivity. Qed.

Lemma humidity_pass state dt rain w :
  let w' := fold_left (humidityCell state dt rain)
                      (range (Z.of_nat (length w))) w in
  length w' = length w /\ unitRange w'.
Proof.
  intros w'.
  destruct (each_index_fold _ _ w (humidityCell_form state dt rain))
    as [Hl Hv].
  fold w' in Hl, Hv. split; [exact Hl|].
  apply Forall_by_index. intros i Hi. rewrite Hl in Hi.
  rewrite (Hv i Hi). cbv zeta. apply saturate_range.
Qed.

Lemma diffuseCell_form size map s c :
  diffuseCell size map (fst c) s (snd c)
  = aset s (cellIndex size c)
      ((fun (c : Z * Z) (_ : Q) =>
          let y := fst c in
          let x := snd c in
          let index := (y * size + x)%Z in
          let total := aget map index in
          let count := 1%Z in
          let total :=
            if (0 <? x)%Z then total + aget map (index - 1) else total in
          let count := if (0 <? x)%Z then (count + 1)%Z else count in
          let total :=
            if (x + 1 <? size)%Z then total + aget map (index + 1) else total in
          let count := if (x + 1 <? size)%Z then (count + 1)%Z else count in
          let total :=
            if (0 <? y)%Z then total + aget map (index - size) else total in
          let count := if (0 <? y)%Z then (count + 1)%Z else count in
          let total :=
            if (y + 1 <? size)%Z then total + aget map (index + size)
            else total in
          let count := if (y + 1 <? size)%Z then (count + 1)%Z else count in
          let avg := total / inject_Z count in
          aget map index + (avg - aget map index) * HUMIDITY_DIFFUSION_RATE)
         c (aget s (cellIndex size c))).
Proof. destruct c; reflexivity. Qed.

Lemma diffusion_pass size map s :
  (0 <= size)%Z ->
  Z.of_nat (length map) = (size * size)%Z ->
  Z.of_nat (length s) = (size * size)%Z ->
  unitRange map ->
  let s' :=
    fold_left (fun scratch y =>
                 fold_left (diffuseCell size map y) (range size) scratch)
              (range size) s in
  length s' = length s /\ unitRange s'.
Proof.
  intros Hsize Hmap Hs Hu s'. subst s'.
  rewrite (nested_fold (fun y scratch x => diffuseCell size map y scratch x)).
  fold (cells size).
  destruct (inplace_fold (cellIndex size) _
              (fun scratch c => diffuseCell size map (fst c) scratch (snd c))
              (cells size)
              (diffuseCell_form size map)
              (NoDup_cellIndex size) s) as (Hl & Hv & _).
  { intros [y x] Hc. apply in_cells in Hc. simpl in Hc.
    rewrite Hs. unfold cellIndex. simpl. apply toIndex_bounds; lia. }
  split; [exact Hl|].
  apply Forall_by_index. intros k Hk. rewrite Hl, Hs in Hk.
  destruct (index_is_cell size k Hsize Hk) as ([y x] & Hc & <-).
  rewrite (Hv _ Hc). apply in_cells in Hc. simpl in Hc.
  cbv zeta. cbn [fst snd].
  assert (forall j, (0 <= j < size * size)%Z -> 0 <= aget map j <= 1) as Hget.
  { intros j Hj. apply (Forall_at_index _ map j Hu). lia. }
  unfold HUMIDITY_DIFFUSION_RATE.
  destruct (Z.ltb_spec 0 x), (Z.ltb_spec (x + 1) size), (Z.ltb_spec 0 y),
           (Z.ltb_spec (y + 1) size);
    cbn [Z.add Pos.add Pos.succ]; unfold inject_Z;
    repeat match goal with
           | |- context [aget map ?j] =>
               lazymatch goal with
               | _ : 0 <= aget map j <= 1 |- _ => fail
               | _ => pose proof (Hget j ltac:(nia))
               end
           end;
    match goal with
    | |- 0 <= ?h + (?t / ?n - ?h) * _ <= 1 =>
        assert (0 <= t / n <= 1)
          by (split; [apply Qle_shift_div_l | apply Qle_shift_div_r]; lra);
        set (avg := t / n) in *; lra
    end.
Qed.

Lemma updateHumidity_invariant h state dt rain :
  well_formed state ->
  Z.of_nat (length (humidityMap h)) = (size state * size state)%Z ->
  Z.of_nat (length (humidityScratch h)) = (size state * size state)%Z ->
  unitRange (humidityScratch h) ->
  let h' := updateHumidity h state dt rain in
  Z.of_nat (length (humidityMap h')) = (size state * size state)%Z /\
  Z.of_nat (length (humidityScratch h')) = (size state * size state)%Z /\
  unitRange (humidityMap h') /\ unitRange (humidityScratch h') /\
  humidityStepCounter h' = (humidityStepCounter h + 1)%Z.
Proof.
  intros (Hsize & _ & _) Hmap Hscratch Hu h'. subst h'.
  unfold updateHumidity. cbv zeta.
  destruct (humidity_pass state dt rain (humidityMap h)) as [Hl Hm].
  set (map := fold_left _ _ (humidityMap h)) in *.
  destruct (negb _).
  - cbn [humidityMap humidityScratch humidityStepCounter].
    rewrite Hl. auto.
  - cbn [humidityMap humidityScratch humidityStepCounter].
    destruct (diffusion_pass (size state) map (humidityScratch h))
      as [Hl' Hs']; auto; [now rewrite Hl|].
    rewrite Hl', Hl. auto.
Qed.



Lemma findIndex_None {A} (test : A -> bool) l :
  findIndex test l = None <-> Forall (fun a => test a = false) l.
Proof.
  induction l as [|a l IH]; simpl.
  - split; auto.
  - destruct (test a) eqn:E.
    + split; [discriminate|]. intros H. inversion H; congruence.
    + destruct (findIndex test l).
      * split; [discriminate|]. intros H. inversion H; subst.
        apply IH in H3. discriminate.
      * split; auto. intros _. constructor; [exact E | now apply IH].
Qed.

Lemma findIndex_last {A} (test : A -> bool) l a :
  Forall (fun b => test b = false) l -> test a = true ->
  findIndex test (l ++ [a]) = Some (length l).
Proof.
  intros Hl Ha. induction Hl as [|b l Hb Hl IH]; simpl.
  - now rewrite Ha.
  - now rewrite Hb, IH.
Qed.

Lemma removeAt_last {A} (l : list A) a : removeAt (length l) (l ++ [a]) = l.
Proof. induction l as [|b l IH]; simpl; [reflexivity | now rewrite IH]. Qed.

Lemma Forall_removeAt {A} (P : A -> Prop) k l :
  Forall P l -> Forall P (removeAt k l).
Proof.
  intros H. revert k. induction H as [|a l Ha Hl IH]; intros [|k]; simpl; auto.
Qed.

Lemma spaced_removeAt k l : spaced l -> spaced (removeAt k l).
Proof.
  revert k. induction l as [|a l IH]; intros [|k]; simpl; auto.
  - tauto.
  - intros [H1 H2]. split; [now apply Forall_removeAt | now apply IH].
Qed.

Lemma spaced_snoc l a :
  spaced l -> Forall (fun b => near (src_x b) (src_y b) a = false) l ->
  spaced (l ++ [a]).
Proof.
  induction l as [|b l IH]; simpl.
  - auto.
  - intros [H1 H2] H. inversion H; subst. split.
    + apply Forall_app. split; [exact H1 | now constructor].
    + now apply IH.
Qed.

(** Distance is symmetric: a source is near a point exactly when a source
    at that point is near it. *)
Lemma near_sym x y b i r act :
  near (src_x b) (src_y b) (mkSource i x y r act) = near x y b.
Proof.
  unfold near. cbn [src_x src_y].
  apply eq_true_iff_eq. rewrite !Qle_bool_iff.
  assert ((x - src_x b) * (x - src_x b) + (y - src_y b) * (y - src_y b)
          == (src_x b - x) * (src_x b - x) + (src_y b - y) * (src_y b - y))
    as -> by ring.
  reflexivity.
Qed.

Section SourceLaws.

Variable numberToString : Z -> string.

(** X24.  [toggleWaterSource] keeps the sources apart: when no two
    sources of the list lie within 1.5 cells of each other, the same
    holds after a click anywhere, whether it removes a source or adds
    one. *)
Theorem toggle_keeps_spacing book x y :
  spaced (book_sources book) ->
  spaced (book_sources (toggleWaterSource numberToString book x y)).
Proof.
  intros H. unfold toggleWaterSource, findNearbySourceIndex.
  destruct (findIndex (near x y) (book_sources book)) as [k|] eqn:E;
    cbn [book_sources].
  - now apply spaced_removeAt.
  - apply spaced_snoc; [exact H|].
    apply findIndex_None in E. revert E. apply Forall_impl.
    intros b Hb. now rewrite near_sym.
Qed.

(** X25.  Two clicks on a free spot cancel: when no source lies within
    1.5 cells of [(x, y)], the first [toggleWaterSource] adds one source
    and the second removes it again, which restores the list of sources;
    the id counter is one higher, so the id is not handed out again. *)
Theorem toggle_twice book x y :
  findNearbySourceIndex (book_sources book) x y = None ->
  let once := toggleWaterSource numberToString book x y in
  let twice := toggleWaterSource numberToString once x y in
  length (book_sources once) = S (length (book_sources book)) /\
  book_sources twice = book_sources book /\
  sourceIdCounter twice = (sourceIdCounter book + 1)%Z.
Proof.
  intros E once twice. subst twice.
  assert (once
          = mkSourceBook
              (book_sources book
               ++ [mkSource (String.append "source-"
                               (numberToString (sourceIdCounter book)))
                            x y (sourceRate book) true])
              (sourceIdCounter book + 1) (sourceRate book)) as ->.
  { subst once. unfold toggleWaterSource. now rewrite E. }
  set (source := mkSource _ x y _ true).
  unfold toggleWaterSource, findNearbySourceIndex. cbn [book_sources].
  unfold findNearbySourceIndex in E. apply findIndex_None in E.
  rewrite (findIndex_last _ _ source E).
  - cbn [book_sources sourceIdCounter]. rewrite removeAt_last, length_app.
    simpl. split; [lia | auto].
  - unfold near, source. cbn [src_x src_y]. apply Qle_bool_iff.
    assert ((x - x) * (x - x) + (y - y) * (y - y) == 0) as -> by ring.
    conc_Q.
Qed.

End SourceLaws.

Lemma toggle_keeps_spacing_witness :
  spaced [Water.springCell] /\
  spaced (book_sources
            (toggleWaterSource (fun _ => "2"%string)
                               (mkSourceBook [Water.springCell] 2 (12 # 10)) 3 4)).
Proof.
  split; [simpl; auto|].
  apply (toggle_keeps_spacing (fun _ => "2"%string)
           (mkSourceBook [Water.springCell] 2 (12 # 10)) 3 4).
  simpl; auto.
Defined.

Lemma toggle_twice_witness :
  book_sources
    (toggleWaterSource (fun _ => "2"%string)
       (toggleWaterSource (fun _ => "2"%string)
          (mkSourceBook [Water.springCell] 2 (12 # 10)) 3 4) 3 4)
  = [Water.springCell].
Proof.
  apply (toggle_twice (fun _ => "2"%string)
           (mkSourceBook [Water.springCell] 2 (12 # 10)) 3 4).
  reflexivity.
Defined.

Lemma applyRainfall_nonneg state rain dt :
  0 <= dt -> 0 <= rain -> nonneg (water state) ->
  nonneg (water (applyRainfall state rain dt)).
Proof.
  intros Hdt Hrain Hw. unfold applyRainfall.
  destruct (Qle_bool rain (2 # 100)); [exact Hw|].
  cbn [set_water water]. destruct state as [v n sd t w srcs vs tm].
  cbn [water terrain] in *.
  apply fold_left_keeps; [|exact Hw].
  intros s i Hs. unfold rainCell. cbv zeta. apply nonneg_aset; [exact Hs|].
  pose proof (nonneg_aget s i Hs).
  pose proof (saturate_range ((aget t i + 8) / 26)).
  set (a := saturate _) in *.
  assert (0 <= rain * dt) as Hb by nra.
  set (b := rain * dt) in *. nra.
Qed.

Lemma applyRainfall_well_formed state rain dt :
  well_formed state -> well_formed (applyRainfall state rain dt).
Proof.
  intros (Hs & Ht & Hw).
  pose proof (applyRainfall_frame state rain dt) as (_ & Esz & _ & Ete & _).
  unfold well_formed. now rewrite Esz, Ete, applyRainfall_length.
Qed.

Section TickLaws.

Variable Math_sin : Q -> Q.
Variable Math_PI : Q.

(** X26.  In exact arithmetic one pass of the fixed-step loop of
    [animate] (climate, rain, water step, humidity, clock) keeps the
    invariants of the simulation: from a well-formed world with no
    negative water, a time step that is not negative and humidity buffers
    of [size * size] cells with the scratch buffer within [0, 1], the
    world is well formed again, no cell holds negative water, size,
    terrain and sources are unchanged, the clock has advanced by [dt]
    and both humidity buffers lie within [0, 1]; whatever the debug panel
    is set to.  (Computed without rounding and overflow: on the machine a
    cell can turn [NaN] and the clock is the rounded sum.) *)
Theorem tick_keeps_invariants modes seed params sim :
  well_formed (world sim) ->
  nonneg (water (world sim)) ->
  0 <= dt params ->
  Z.of_nat (length (humidityMap (humidity sim)))
  = (size (world sim) * size (world sim))%Z ->
  Z.of_nat (length (humidityScratch (humidity sim)))
  = (size (world sim) * size (world sim))%Z ->
  unitRange (humidityScratch (humidity sim)) ->
  let sim' := simulationTick Math_sin Math_PI modes seed params sim in
  well_formed (world sim') /\
  nonneg (water (world sim')) /\
  size (world sim') = size (world sim) /\
  terrain (world sim') = terrain (world sim) /\
  sources (world sim') = sources (world sim) /\
  time (world sim') == time (world sim) + dt params /\
  unitRange (humidityMap (humidity sim')) /\
  unitRange (humidityScratch (humidity sim')).
Proof.
  intros Hwf Hnn Hdt Hmap Hscr Hu sim'. subst sim'.
  unfold simulationTick. cbv zeta.
  set (climate := createClimateState _ _ _ _ _ _ _).
  assert (0 <= rainIntensity climate <= 1) as Hrain.
  { unfold climate, createClimateState. cbv zeta. cbn [rainIntensity].
    destruct (getWeatherOverride modes); apply saturate_range. }
  set (rained := applyRainfall (world sim) (rainIntensity climate) (dt params)).
  pose proof (applyRainfall_well_formed (world sim) (rainIntensity climate)
                (dt params) Hwf) as Hwf1.
  pose proof (applyRainfall_nonneg (world sim) (rainIntensity climate)
                (dt params) Hdt (proj1 Hrain) Hnn) as Hnn1.
  pose proof (applyRainfall_frame (world sim) (rainIntensity climate)
                (dt params)) as (_ & Es1 & _ & Et1 & Eo1 & _ & Etime1).
  fold rained in Hwf1, Hnn1, Es1, Et1, Eo1, Etime1.
  pose proof (WaterFacts.stepWaterWith_well_formed true (scratch sim) rained
                params Hwf1) as Hwf2.
  pose proof (WaterFacts.stepWater_keeps_nonneg (scratch sim) rained params
                Hnn1) as Hnn2.
  pose proof (WaterFacts.stepWaterWith_frame true (scratch sim) rained params)
    as (_ & Es2 & _ & Et2 & Eo2 & _ & Etime2).
  fold Water.stepWater in Hwf2, Es2, Et2, Eo2, Etime2.
  destruct (Water.stepWater (scratch sim) rained params) as [stepped cache].
  cbn [fst] in *. cbn [world humidity].
  destruct (updateHumidity_invariant (humidity sim) stepped (dt params)
              (rainIntensity climate) Hwf2) as (_ & _ & Hm & Hs & _);
    try (rewrite Es2, Es1; assumption); [exact Hu|].
  destruct Hwf2 as (Hsz & Hte & Hwa).
  repeat split; cbn [size terrain water sources time]; auto;
    try congruence.
Qed.

End TickLaws.

Lemma tick_keeps_invariants_witness :
  well_formed (world pondSim) /\
  time (world (simulationTick sinApprox piApprox initialModes 0 simParams
                              pondSim))
  == time (world pondSim) + dt simParams.
Proof.
  split; [unfold well_formed; simpl; lia|].
  apply (tick_keeps_invariants sinApprox piApprox initialModes 0 simParams
                               pondSim).
  - unfold well_formed; simpl; lia.
  - unfold nonneg; simpl; repeat constructor; conc_Q.
  - conc_Q.
  - reflexivity.
  - reflexivity.
  - unfold unitRange; simpl; repeat constructor; conc_Q.
Defined.

End SimulationLaws.

Module GridLaws.

(** X17.  [toIndex] numbers the cells of the grid without gap or clash:
    for a size that is not negative, the index of a cell that [inBounds]
    accepts lies in [0, size * size), two such cells with the same index
    are the same cell, and every index of that range is the index of a
    cell that [inBounds] accepts. *)
Theorem toIndex_bijection size :
  (0 <= size)%Z ->
  (forall x y, inBounds size x y = true ->
               (0 <= toIndex size x y < size * size)%Z) /\
  (forall x y x' y',
      inBounds size x y = true -> inBounds size x' y' = true ->
      toIndex size x y = toIndex size x' y' -> x = x' /\ y = y') /\
  (forall k, (0 <= k < size * size)%Z ->
             exists x y, inBounds size x y = true /\ toIndex size x y = k).
Proof.
  intros Hs.
  assert (forall x y, inBounds size x y = true <->
                      (0 <= x < size)%Z /\ (0 <= y < size)%Z) as Hin.
  { intros x y. unfold inBounds.
    rewrite !andb_true_iff, !Z.leb_le, !Z.ltb_lt. tauto. }
  repeat split.
  - apply toIndex_bounds; apply Hin in H; tauto.
  - apply toIndex_bounds; apply Hin in H; tauto.
  - apply Hin in H, H0. now apply (toIndex_inj size x y x' y').
  - apply Hin in H, H0. now apply (toIndex_inj size x y x' y').
  - intros k Hk.
    destruct (index_is_cell size k Hs Hk) as ([y x] & Hc & E).
    exists x, y. apply in_cells in Hc. simpl in Hc.
    split; [apply Hin; tauto | exact E].
Qed.

Lemma toIndex_bijection_witness :
  (0 <= 3)%Z /\
  forall x y, inBounds 3 x y = true -> (0 <= toIndex 3 x y < 3 * 3)%Z.
Proof.
  split; [lia|]. apply (toIndex_bijection 3). lia.
Defined.

End GridLaws.

(** ** The machine's arithmetic: signs, rounding, overflow and NaN *)

Module MachineFacts.
Import Floats Double Machine.
Local Open Scope float_scope.

(** *** Numbers that are not negative stay so *)

Lemma Prim2SF_zero : Prim2SF 0 = S754_zero false.
Proof. reflexivity. Qed.

Lemma binary_round_signless p em m e :
  signless (binary_round p em false m e) = true.
Proof.
  unfold binary_round. destruct (shl_align _ _ _) as [mz ez].
  unfold binary_round_aux.
  destruct (shr_fexp p em (Zpos mz) ez loc_Exact) as [mrs e'].
  destruct (shr_fexp p em _ e' loc_Exact) as [mrs' e''].
  destruct (shr_m mrs'); [reflexivity| |reflexivity].
  destruct (Z.leb _ _); reflexivity.
Qed.

Lemma binary_round_aux_signless p em m e l :
  signless (binary_round_aux p em false (Zpos m) e l) = true.
Proof.
  unfold binary_round_aux.
  destruct (shr_fexp p em (Zpos m) e l) as [mrs e'].
  destruct (shr_fexp p em _ e' loc_Exact) as [mrs' e''].
  destruct (shr_m mrs'); [reflexivity| |reflexivity].
  destruct (Z.leb _ _); reflexivity.
Qed.

Lemma SFldexp_signless x e :
  signless x = true -> signless (SFldexp prec emax x e) = true.
Proof.
  destruct x as [s|s| |s m ex]; simpl; auto.
  destruct s; [discriminate|]. intros _. apply binary_round_signless.
Qed.

Lemma of_uint63_signless n : unsigned (of_uint63 n).
Proof.
  unfold unsigned. rewrite of_uint63_spec.
  pose proof (Uint63.to_Z_bounded n) as H.
  destruct (Uint63.to_Z n) as [|p|p] eqn:E.
  - reflexivity.
  - apply binary_round_signless.
  - lia.
Qed.

Lemma SF2Prim_signless x :
  signless x = true -> unsigned (SF2Prim x).
Proof.
  unfold unsigned.
  destruct x as [[]|[]| |[] m e]; simpl; try discriminate; try reflexivity.
  intros _. rewrite FloatLemmas.Z_ldexp_spec.
  apply SFldexp_signless, of_uint63_signless.
Qed.

Lemma fround_unsigned x : unsigned x -> unsigned (fround x).
Proof.
  unfold unsigned, fround. intros H.
  destruct (Prim2SF x) as [s|s| |s m e] eqn:E; try (rewrite E; exact H).
  apply SF2Prim_signless. destruct s; [discriminate|].
  apply binary_round_signless.
Qed.

Lemma mul_unsigned x y : unsigned x -> unsigned y -> unsigned (x * y).
Proof.
  unfold unsigned. rewrite mul_spec. unfold SF64mul.
  destruct (Prim2SF x) as [[]|[]| |[] mx ex], (Prim2SF y) as [[]|[]| |[] my ey];
    simpl; try discriminate; try reflexivity.
  intros _ _. apply binary_round_aux_signless.
Qed.

Lemma add_unsigned x y : unsigned x -> unsigned y -> unsigned (x + y).
Proof.
  unfold unsigned. rewrite add_spec. unfold SF64add.
  destruct (Prim2SF x) as [[]|[]| |[] mx ex], (Prim2SF y) as [[]|[]| |[] my ey];
    simpl; try discriminate; try reflexivity.
  intros _ _. apply binary_round_signless.
Qed.

Lemma Math_max_unsigned a b : unsigned a -> unsigned (Math_max a b).
Proof.
  unfold unsigned, Math_max. rewrite compare_spec. intros Ha.
  destruct (Prim2SF a) as [sa|sa| |sa ma ea] eqn:Ea,
           (Prim2SF b) as [sb|sb| |sb mb eb] eqn:Eb;
    try destruct sa; try destruct sb; try discriminate;
    cbn [SFcompare flatten_cmp_opt];
    repeat match goal with
           | |- context [Z.compare ?x ?y] => destruct (Z.compare x y)
           | |- context [Pos.compare_cont ?c ?x ?y] => destruct (Pos.compare_cont c x y)
           end;
    cbn [flatten_cmp_opt CompOpp];
    try destruct (get_sign a);
    rewrite ?Ea, ?Eb; reflexivity.
Qed.

Lemma unsigned_notNegative x : unsigned x -> notNegative x = true.
Proof.
  unfold unsigned, notNegative, is_nan. rewrite leb_spec, eqb_spec, Prim2SF_zero.
  destruct (Prim2SF x) as [[]|[]| |[] m e]; simpl; try discriminate; try reflexivity.
Qed.

Lemma notNegative_unsigned x : notNegative x = true -> unsigned x.
Proof.
  unfold unsigned, notNegative, is_nan. rewrite leb_spec, eqb_spec, Prim2SF_zero.
  destruct (Prim2SF x) as [[]|[]| |[] m e]; simpl; try discriminate; try reflexivity.
  unfold SFeqb. simpl. rewrite Z.compare_refl.
  assert (Pos.compare_cont Eq m m = Eq) as -> by apply Pos.compare_cont_refl.
  simpl. discriminate.
Qed.

Lemma aget_unsigned w i : Forall unsigned w -> unsigned (aget w i).
Proof.
  intros Hw. unfold aget. destruct (i <? 0)%Z; [reflexivity|].
  generalize (Z.to_nat i). induction Hw as [|h t Hh Ht IH]; intros [|n]; simpl;
    auto; reflexivity.
Qed.

Lemma upd_unsigned n v w : Forall unsigned w -> unsigned v -> Forall unsigned (upd n v w).
Proof.
  intros Hw Hv. revert n.
  induction Hw as [|h t Hh Ht IH]; intros [|n]; simpl; constructor; auto.
Qed.

Lemma aset_unsigned w i v : Forall unsigned w -> unsigned v -> Forall unsigned (aset w i v).
Proof.
  intros Hw Hv. unfold aset. destruct (i <? 0)%Z; [exact Hw|].
  apply upd_unsigned; [exact Hw|]. now apply fround_unsigned.
Qed.

Lemma injectSource_unsigned tick state source :
  unsigned tick -> Forall unsigned (water state) ->
  Forall unsigned (water (injectSource tick state source)).
Proof.
  intros Ht Hw. unfold injectSource.
  destruct (negb (active source)); [exact Hw|].
  destruct (roundZ (src_x source)) as [sx|]; [|exact Hw].
  destruct (roundZ (src_y source)) as [sy|]; [|exact Hw].
  destruct (negb (inBounds (size state) sx sy)); [exact Hw|].
  cbv zeta. simpl water. apply aset_unsigned; [exact Hw|].
  apply add_unsigned; [now apply aget_unsigned|].
  apply mul_unsigned; [|exact Ht]. now apply Math_max_unsigned.
Qed.

Lemma lossPass_unsigned n delta df el sp ed tick w :
  Forall unsigned w -> Forall unsigned (lossPass n delta df el sp ed tick w).
Proof.
  unfold lossPass. apply fold_left_keeps. intros w1 y H1.
  apply fold_left_keeps; [|exact H1]. intros w2 x H2.
  unfold lossCell. cbv zeta. apply aset_unsigned; [exact H2|].
  now apply Math_max_unsigned.
Qed.

Lemma stepWater_unsigned cache state params :
  Forall unsigned (water state) ->
  Forall unsigned (water (fst (stepWater cache state params))).
Proof.
  intros Hw. unfold stepWater. cbv zeta.
  destruct (getScratch cache _) as [delta cache'].
  simpl fst. simpl water. apply lossPass_unsigned.
  apply fold_left_keeps; [|exact Hw].
  intros s src Hs. apply injectSource_unsigned; [|exact Hs].
  now apply Math_max_unsigned.
Qed.

(** C2, amended.  No cell is ever negative, on the machine: from a state
    whose water cells are all [>= 0] (or [NaN]), after any number of
    steps, each with parameters of its own, every water cell is [>= 0] or
    [NaN].  The parameters need not be non-negative, nor the state well
    formed: every store of the step is a [Math.max(0, ...)] or a sum of
    numbers that are not negative, rounded to float32.  A cell can be
    [NaN], though, which is not [>= 0]: see the facts at given inputs
    below. *)
Theorem stepWater_never_negative ticks : forall cache state,
  Forall (fun w => notNegative w = true) (water state) ->
  Forall (fun w => notNegative w = true)
         (water (fst (stepMany cache state ticks))).
Proof.
  induction ticks as [|p ticks IH]; intros cache state Hw; simpl.
  - exact Hw.
  - pose proof (stepWater_unsigned cache state p) as H.
    destruct (stepWater cache state p) as [s c]. apply IH.
    simpl in H. eapply Forall_impl; [apply unsigned_notNegative|].
    apply H. eapply Forall_impl; [apply notNegative_unsigned|]. exact Hw.
Qed.

Lemma stepWater_never_negative_witness :
  Forall (fun w => notNegative w = true) (water pond) /\
  Forall (fun w => notNegative w = true)
         (water (fst (stepMany emptyScratch pond [torrent; simParams]))).
Proof.
  split; [repeat constructor|].
  apply (stepWater_never_negative [torrent; simParams] emptyScratch pond).
  repeat constructor.
Defined.

(** *** The source scenario on float32 cells *)

Lemma Prim2SF_one : Prim2SF 1 = S754_finite false 4503599627370496 (-52).
Proof. reflexivity. Qed.

Lemma is_finite_shape x :
  is_finite x = true ->
  match Prim2SF x with
  | S754_zero _ | S754_finite _ _ _ => True
  | _ => False
  end.
Proof.
  unfold is_finite, is_nan, is_infinity. rewrite !eqb_spec, abs_spec.
  change (Prim2SF infinity) with (S754_infinity false).
  destruct (Prim2SF x) as [s|[]| |s m e]; simpl; auto; discriminate.
Qed.

Lemma add_zero_r x : settled x -> x + 0 = x.
Proof.
  unfold settled. intros H. apply Prim2SF_inj. rewrite add_spec, Prim2SF_zero.
  destruct (Prim2SF x) as [s|s| |s m e]; try contradiction; subst; reflexivity.
Qed.

Lemma add_zero_l x : cleared x -> 0 + x = x.
Proof.
  unfold cleared. intros H. apply Prim2SF_inj. rewrite add_spec, Prim2SF_zero.
  destruct (Prim2SF x) as [s|s| |s m e]; try contradiction; subst; reflexivity.
Qed.

Lemma sub_zero_r x : settled x -> x - 0 = x.
Proof.
  unfold settled. intros H. apply Prim2SF_inj. rewrite sub_spec, Prim2SF_zero.
  destruct (Prim2SF x) as [s|s| |s m e]; try contradiction; subst; reflexivity.
Qed.

Lemma mul_zero_r x : settled x -> x * 0 = 0.
Proof.
  unfold settled. intros H. apply Prim2SF_inj. rewrite mul_spec, !Prim2SF_zero.
  destruct (Prim2SF x) as [s|s| |s m e]; try contradiction; subst; reflexivity.
Qed.

Lemma mul_zero_l x : positive x -> 0 * x = 0.
Proof.
  unfold positive. intros H. apply Prim2SF_inj. rewrite mul_spec, !Prim2SF_zero.
  destruct (Prim2SF x) as [s|s| |s m e]; try contradiction; subst; reflexivity.
Qed.

Lemma shifted_52 m :
  (4503599627370496 * m)%positive
  = (m~0~0~0~0~0~0~0~0~0~0~0~0~0~0~0~0~0~0~0~0~0~0~0~0~0~0
      ~0~0~0~0~0~0~0~0~0~0~0~0~0~0~0~0~0~0~0~0~0~0~0~0~0~0)%positive.
Proof. reflexivity. Qed.

Lemma iter_shr_52 m :
  iter_pos shr_1 52 (Build_shr_record (Zpos (4503599627370496 * m)) false false)
  = Build_shr_record (Zpos m) false false.
Proof. rewrite shifted_52. cbv. reflexivity. Qed.

Lemma digits_shift_52 m :
  Zpos (digits2_pos (4503599627370496 * m)) = (Zpos (digits2_pos m) + 52)%Z.
Proof. rewrite shifted_52. cbn [digits2_pos]. rewrite !Pos2Z.inj_succ. lia. Qed.

Lemma mul_one_r x : settled x -> x * 1 = x.
Proof.
  unfold settled. intros H. apply Prim2SF_inj.
  pose proof (Prim2SF_valid x) as V.
  rewrite mul_spec, Prim2SF_one.
  destruct (Prim2SF x) as [s|s| |s m e]; try contradiction; subst; [reflexivity|].
  unfold SF64mul, SFmul. cbn [xorb].
  unfold SpecFloat.valid_binary, bounded, canonical_mantissa in V.
  apply andb_prop in V. destruct V as [C B].
  apply Z.eqb_eq in C. apply Z.leb_le in B.
  rewrite Pos.mul_comm.
  unfold binary_round_aux, shr_fexp.
  cbn [Zdigits2]. rewrite digits_shift_52.
  replace (Z.pos (digits2_pos m) + 52 + (e + -52))%Z
    with (Z.pos (digits2_pos m) + e)%Z by lia.
  rewrite C.
  replace (e - (e + -52))%Z with 52%Z by lia.
  cbn [shr shr_record_of_loc]. rewrite iter_shr_52.
  cbn [shr_m loc_of_shr_record round_nearest_even Zdigits2].
  replace (Z.pos (digits2_pos m) + (e + -52 + 52))%Z
    with (Z.pos (digits2_pos m) + e)%Z by lia.
  rewrite C.
  replace (e - (e + -52 + 52))%Z with 0%Z by lia.
  cbn [shr shr_m].
  replace (e + -52 + 52)%Z with e by lia.
  apply Z.leb_le in B. rewrite B. reflexivity.
Qed.

Lemma settled_zero : settled 0.
Proof. reflexivity. Qed.

Lemma Math_max_zero_cleared r : cleared (Math_max 0 r).
Proof.
  unfold cleared, Math_max. rewrite compare_spec, Prim2SF_zero.
  change (get_sign 0) with false.
  destruct (Prim2SF r) as [s|s| |s m e] eqn:E; try destruct s;
    cbn [SFcompare flatten_cmp_opt]; rewrite ?E; reflexivity.
Qed.

Lemma Math_max_settled x : settled x -> Math_max 0 x = x.
Proof.
  unfold settled, Math_max. rewrite compare_spec, Prim2SF_zero.
  change (get_sign 0) with false. intros H.
  destruct (Prim2SF x) as [s|s| |s m e] eqn:E; try contradiction; subst;
    cbn [SFcompare flatten_cmp_opt]; [|reflexivity].
  apply Prim2SF_inj. now rewrite E.
Qed.

(** The tick the step computes with is a finite Number above 0. *)
Lemma tick_positive tick : is_finite tick = true -> positive (Math_max 0.0001 tick).
Proof.
  intros H. apply is_finite_shape in H.
  unfold positive, Math_max. rewrite compare_spec.
  change (Prim2SF 0.0001) with (S754_finite false 7378697629483821 (-66)).
  change (get_sign 0.0001) with false.
  destruct (Prim2SF tick) as [s|s| |s m e] eqn:E; try contradiction;
    try destruct s; cbn [SFcompare flatten_cmp_opt];
    repeat match goal with
           | |- context [Z.compare ?x ?y] => destruct (Z.compare x y)
           | |- context [Pos.compare_cont ?c ?x ?y] => destruct (Pos.compare_cont c x y)
           end;
    cbn [flatten_cmp_opt]; rewrite ?E; reflexivity.
Qed.

Lemma mul_cleared x y : cleared x -> positive y -> cleared (x * y).
Proof.
  unfold cleared, positive. rewrite mul_spec. unfold SF64mul. intros Hx Hy.
  destruct (Prim2SF x) as [sx|sx| |sx mx ex], (Prim2SF y) as [sy|sy| |sy my ey];
    try contradiction; subst; try reflexivity.
  cbn [SFmul xorb]. unfold binary_round_aux.
  destruct (shr_fexp _ _ _ _ _) as [mrs e'].
  destruct (shr_fexp _ _ _ e' loc_Exact) as [mrs' e''].
  destruct (shr_m mrs'); [reflexivity| |exact I].
  destruct (Z.leb _ _); reflexivity.
Qed.

Lemma binary_round_cleared p em m e :
  match binary_round p em false m e with
  | S754_zero s | S754_finite s _ _ | S754_infinity s => s = false
  | S754_nan => True
  end.
Proof.
  unfold binary_round. destruct (shl_align _ _ _) as [mz ez].
  unfold binary_round_aux.
  destruct (shr_fexp p em (Zpos mz) ez loc_Exact) as [mrs e'].
  destruct (shr_fexp p em _ e' loc_Exact) as [mrs' e''].
  destruct (shr_m mrs'); [reflexivity| |exact I].
  destruct (Z.leb _ _); reflexivity.
Qed.

Lemma SF2Prim_cleared x :
  match x with
  | S754_zero s | S754_finite s _ _ | S754_infinity s => s = false
  | S754_nan => True
  end -> cleared (SF2Prim x).
Proof.
  unfold cleared.
  destruct x as [s|s| |s m e]; intros H; try subst s; try reflexivity.
  cbn [SF2Prim]. rewrite FloatLemmas.Z_ldexp_spec, of_uint63_spec.
  pose proof (Uint63.to_Z_bounded (Uint63.of_Z (Z.pos m))) as B.
  destruct (Uint63.to_Z (Uint63.of_Z (Z.pos m))) as [|q|q]; [reflexivity| |lia].
  cbn [binary_normalize].
  pose proof (binary_round_cleared prec emax q 0) as R.
  destruct (binary_round prec emax false q 0) as [s|s| |s m' e']; try subst s;
    try reflexivity.
  cbn [SFldexp]. apply binary_round_cleared.
Qed.

Lemma fround_cleared x : cleared x -> cleared (fround x).
Proof.
  unfold fround. intros H. unfold cleared in H.
  destruct (Prim2SF x) as [s|s| |s m e] eqn:E;
    try (unfold cleared; rewrite E; exact H).
  subst s. apply SF2Prim_cleared, binary_round_cleared.
Qed.

Lemma cleared_finite x : cleared x -> is_finite x = true -> settled x.
Proof.
  intros H F. apply is_finite_shape in F. unfold cleared in H. unfold settled.
  destruct (Prim2SF x); auto.
Qed.

(** With all its coefficients at zero the loss pass leaves a finite cell
    that is not negative as it is. *)
Lemma loss_of_nothing old tick (edge : bool) :
  settled old -> positive tick ->
  let withFlow := old + 0 in
  let seepLoss := withFlow * 0 * tick in
  let next := withFlow * clamp (1 - 0 * tick) 0 1 - 0 * tick - seepLoss in
  let next := if edge && (0 <? next) then next - 0 * tick else next in
  Math_max 0 next = old.
Proof.
  intros Ho Ht. cbv zeta.
  rewrite (mul_zero_l tick Ht), (add_zero_r old Ho), (mul_zero_r old Ho),
    (mul_zero_l tick Ht).
  change (clamp (1 - 0) 0 1) with 1.
  rewrite (mul_one_r old Ho), !(sub_zero_r old Ho).
  destruct (edge && (0 <? old)); now apply Math_max_settled.
Qed.

(** Without a flow rate no potential is above 0. *)
Lemma no_potential diff tick :
  (0 <? (if 0 <? diff then diff * 0 * tick else 0)) = false.
Proof.
  destruct (0 <? diff); [|reflexivity].
  rewrite ltb_spec, !mul_spec, !Prim2SF_zero.
  destruct (Prim2SF diff) as [s|s| |s m e]; cbn [SF64mul SFmul];
    destruct (Prim2SF tick) as [s'|s'| |s' m' e']; reflexivity.
Qed.

Lemma cells_length a i v : length (aset a i v) = length a.
Proof. unfold aset. destruct (i <? 0)%Z; auto using upd_length. Qed.

Lemma cell_written a i v :
  (0 <= i < Z.of_nat (length a))%Z -> aget (aset a i v) i = fround v.
Proof.
  intros H. unfold aget, aset.
  destruct (i <? 0)%Z eqn:E; [lia|]. apply nth_upd_same. lia.
Qed.

Lemma cell_kept a i j v : i <> j -> aget (aset a i v) j = aget a j.
Proof.
  intros H. unfold aget, aset.
  destruct (j <? 0)%Z eqn:Ej; [reflexivity|].
  destruct (i <? 0)%Z eqn:Ei; [reflexivity|].
  apply nth_upd_other. lia.
Qed.

(** A loop that rewrites each visited float32 cell from its own old value. *)
Lemma rewriting_loop {C : Type} (idx : C -> Z) (val : C -> float -> float)
      (G : list float -> C -> list float) (cs : list C) :
  (forall w c, G w c = aset w (idx c) (val c (aget w (idx c)))) ->
  NoDup (map idx cs) ->
  forall w,
    (forall c, In c cs -> (0 <= idx c < Z.of_nat (length w))%Z) ->
    length (fold_left G cs w) = length w /\
    (forall c, In c cs ->
               aget (fold_left G cs w) (idx c) = fround (val c (aget w (idx c)))) /\
    (forall k, ~ In k (map idx cs) -> aget (fold_left G cs w) k = aget w k).
Proof.
  intros HG. induction cs as [|c cs IH]; intros Hnd w Hin; simpl.
  - repeat split; auto. intros c [].
  - inversion Hnd as [|? ? Hc Hnd']; subst.
    destruct (IH Hnd' (G w c)) as (Hlen & Hval & Hother).
    { intros c' Hc'. rewrite HG, cells_length. apply Hin. now right. }
    split; [now rewrite Hlen, HG, cells_length|]. split.
    + intros c' [<- | Hc'].
      * rewrite Hother by exact Hc.
        rewrite HG. apply cell_written. apply Hin. now left.
      * rewrite Hval by exact Hc'. do 2 f_equal. rewrite HG.
        apply cell_kept. intros E. apply Hc. rewrite E.
        now apply in_map.
    + intros k Hk. rewrite Hother by tauto. rewrite HG.
      apply cell_kept. intros E. apply Hk. now left.
Qed.

Lemma fold_left_fixed {S X : Type} (F : S -> X -> S) (l : list X) (s : S) :
  (forall s x, F s x = s) -> fold_left F l s = s.
Proof.
  intros H. induction l as [|x l IH]; simpl; [reflexivity|]. now rewrite H.
Qed.

Lemma skips_inactive tick l : forall state,
  fold_left (injectSource tick) l state
  = fold_left (injectSource tick) (filter active l) state.
Proof.
  induction l as [|s l IH]; intros state; simpl; [reflexivity|].
  destruct (active s) eqn:E; simpl; [apply IH|].
  rewrite <- IH. f_equal. unfold injectSource. now rewrite E.
Qed.

Lemma potential_none (c : bool) state height neighbour tick :
  (0 <? (if c then potentialTo state height neighbour 0 tick else 0)) = false.
Proof.
  destruct c; [|reflexivity]. unfold potentialTo. cbv zeta. apply no_potential.
Qed.

(** Without a flow rate the outflow loop moves nothing. *)
Lemma flowCell_still state tick y delta x :
  flowCell state 0 tick y delta x = delta.
Proof.
  unfold flowCell. cbv zeta.
  destruct (_ <=? 0); [reflexivity|].
  destruct (_ <=? 0); [reflexivity|].
  unfold transfer. rewrite !potential_none. reflexivity.
Qed.

Lemma flowPass_still state tick delta : flowPass state 0 tick delta = delta.
Proof.
  unfold flowPass. apply fold_left_fixed. intros d y.
  apply fold_left_fixed. intros d' x. apply flowCell_still.
Qed.

Lemma zeros_read (l : list float) k :
  Forall (fun w => w = 0) l -> (0 <= k < Z.of_nat (length l))%Z -> aget l k = 0.
Proof.
  intros H Hk. unfold aget. destruct (Z.ltb_spec k 0); [lia|].
  rewrite Forall_forall in H. apply H, nth_In. lia.
Qed.

Lemma scratch_of_zeros cache n :
  cache_ok cache ->
  length (fst (getScratch cache n)) = n /\
  Forall (fun w => w = 0) (fst (getScratch cache n)).
Proof.
  intros Hc. unfold getScratch. destruct (cache n) as [a|] eqn:E; simpl.
  - split; [rewrite length_map; now apply Hc|].
    apply Forall_forall. intros w Hw. apply in_map_iff in Hw.
    now destruct Hw as [? [<- _]].
  - split; [apply repeat_length|].
    apply Forall_forall. intros w Hw. now apply repeat_spec in Hw.
Qed.

Lemma lossCell_form size delta df el sp ed tick w c :
  lossCell size delta df el sp ed tick (fst c) w (snd c)
  = aset w (cellIndex size c)
      ((fun c old =>
          let withFlow := old + aget delta (cellIndex size c) in
          let seepLoss := withFlow * sp * tick in
          let next := withFlow * df - el - seepLoss in
          let isEdge := (snd c =? 0)%Z || (fst c =? 0)%Z
                        || (snd c =? size - 1)%Z || (fst c =? size - 1)%Z in
          let next := if isEdge && (0 <? next) then next - ed * tick else next in
          Math_max 0 next) c (aget w (cellIndex size c))).
Proof. reflexivity. Qed.

(** The loss pass with all its coefficients at zero, over deltas that are
    zero, stores every finite cell that is not negative once more. *)
Lemma lossPass_of_nothing size delta tick w :
  (0 <= size)%Z -> Z.of_nat (length w) = (size * size)%Z ->
  length delta = length w -> Forall (fun d => d = 0) delta ->
  positive tick ->
  forall k, (0 <= k < size * size)%Z -> settled (aget w k) ->
    aget (lossPass size delta (clamp (1 - 0 * tick) 0 1) (0 * tick) 0 0 tick w) k
    = fround (aget w k).
Proof.
  intros Hs Hw Hd Hz Ht k Hk Hset.
  unfold lossPass.
  set (df := clamp (1 - 0 * tick) 0 1). set (el := 0 * tick).
  rewrite (nested_fold (fun y w x => lossCell size delta df el 0 0 tick y w x)).
  fold (cells size).
  destruct (index_is_cell size k Hs Hk) as (c & Hc & <-).
  destruct (rewriting_loop (cellIndex size) _ _ (cells size)
              (fun w c => lossCell_form size delta df el 0 0 tick w c)
              (NoDup_cellIndex size) w) as (_ & Hval & _).
  { intros c' Hc'. apply in_cells in Hc'. rewrite Hw.
    unfold cellIndex. apply toIndex_bounds; lia. }
  rewrite (Hval c Hc). f_equal.
  rewrite (zeros_read delta _ Hz) by lia.
  apply (loss_of_nothing (aget w (cellIndex size c)) tick); assumption.
Qed.

Lemma Math_max_right a b : (a <? b) = true -> Math_max a b = b.
Proof.
  unfold Math_max. rewrite compare_spec, ltb_spec. unfold SFltb.
  destruct (SFcompare _ _) as [[]|]; try discriminate. reflexivity.
Qed.

(** A tick at or above the floor of 0.0001 s is the tick of the step. *)
Lemma tick_above_floor tick :
  (0.0001 <=? tick) = true -> Math_max 0.0001 tick = tick.
Proof.
  unfold Math_max. rewrite compare_spec, leb_spec. unfold SFleb.
  change (get_sign 0.0001) with false.
  destruct (SFcompare _ _) as [[]|] eqn:E; try discriminate; [|reflexivity].
  intros _. cbn [flatten_cmp_opt]. apply Prim2SF_inj.
  change (Prim2SF 0.0001) with (S754_finite false 7378697629483821 (-66)) in *.
  revert E.
  destruct (Prim2SF tick) as [s|s| |s m ex]; try destruct s; try discriminate.
  cbn [SFcompare].
  destruct (Z.compare_spec (-66) ex) as [<-| |]; try discriminate.
  destruct (Pos.compare_cont Eq 7378697629483821 m) eqn:P; try discriminate.
  intros _. apply Pos.compare_eq in P. now rewrite P.
Qed.

Lemma inBounds_index size x y :
  inBounds size x y = true -> (0 <= toIndex size x y < size * size)%Z.
Proof.
  unfold inBounds. intros H. apply toIndex_bounds; lia.
Qed.

(** C5, amended.  The source scenario on the machine.  One active source
    whose position rounds to the in-bounds cell [(x0, y0)], all water
    zero, one step with a finite tick and with flow rate, damping,
    evaporation, seepage and edge drain at zero.  The step computes with
    the tick [max(0.0001, dt)] and the rate [max(0, rate)]; when their
    product, rounded to float32, is finite, the source cell holds that
    product rounded to float32 by the two stores of the step (the
    injection and the loss pass), and every other cell holds 0.  For a
    rate above 0 and a tick of at least 0.0001 s the cell holds
    [rate * dt] rounded to float32, not [rate * dt]. *)
Theorem source_injection_on_float32 cache state params s0 x0 y0 :
  cache_ok cache -> (0 <= size state)%Z ->
  Z.of_nat (length (water state)) = (size state * size state)%Z ->
  Forall (fun w => w = 0) (water state) ->
  filter active (sources state) = [s0] ->
  roundZ (src_x s0) = Some x0 -> roundZ (src_y s0) = Some y0 ->
  inBounds (size state) x0 y0 = true ->
  is_finite (dt params) = true ->
  flowRate params = 0 -> damping params = 0 -> evaporation params = 0 ->
  orZero (seepage params) = 0 -> orZero (edgeDrain params) = 0 ->
  let amount := fround (Math_max 0 (rate s0) * Math_max 0.0001 (dt params)) in
  is_finite amount = true ->
  let water' := water (fst (stepWater cache state params)) in
  let i0 := toIndex (size state) x0 y0 in
  aget water' i0 = fround amount /\
  (forall k, (0 <= k < size state * size state)%Z -> k <> i0 ->
             aget water' k = 0) /\
  ((0 <? rate s0) = true -> (0.0001 <=? dt params) = true ->
   aget water' i0 = fround (fround (rate s0 * dt params))).
Proof.
  intros Hc Hs Hw Hz Hsrc Hx Hy Hin Hdt Ef Ed Ee Esp Eg amount Hfin water' i0.
  pose proof (inBounds_index _ _ _ Hin) as Hi0. fold i0 in Hi0.
  pose proof (tick_positive (dt params) Hdt) as Ht.
  set (tick := Math_max 0.0001 (dt params)) in *.
  assert (Hact : active s0 = true).
  { assert (In s0 (filter active (sources state))) as I by (rewrite Hsrc; now left).
    now apply filter_In in I. }
  assert (Hcl : cleared (Math_max 0 (rate s0) * tick)).
  { apply mul_cleared; [apply Math_max_zero_cleared | exact Ht]. }
  assert (Hread : forall k, (0 <= k < size state * size state)%Z ->
            aget water' k
            = fround (aget (aset (water state) i0 (Math_max 0 (rate s0) * tick)) k)
            /\ settled (aget (aset (water state) i0 (Math_max 0 (rate s0) * tick)) k)).
  { intros k Hk.
    assert (Hsettled : settled
              (aget (aset (water state) i0 (Math_max 0 (rate s0) * tick)) k)).
    { destruct (Z.eq_dec i0 k) as [<-|N].
      - rewrite cell_written by lia.
        apply cleared_finite; [now apply fround_cleared | exact Hfin].
      - rewrite cell_kept by exact N. rewrite (zeros_read _ _ Hz) by lia.
        exact settled_zero. }
    split; [|exact Hsettled].
    subst water'. unfold stepWater. cbv zeta.
    rewrite Ef, Ed, Ee, Esp, Eg. change (Math_max 0 0) with 0. fold tick.
    rewrite skips_inactive, Hsrc. cbn [fold_left].
    unfold injectSource. rewrite Hact, Hx, Hy, Hin. cbn [negb]. cbv zeta.
    fold i0. rewrite (zeros_read _ _ Hz) by lia.
    rewrite (add_zero_l _ Hcl).
    cbn [set_water water size].
    set (water1 := aset (water state) i0 (Math_max 0 (rate s0) * tick)) in *.
    destruct (scratch_of_zeros cache (length water1) Hc) as [Hlen Hzero].
    destruct (getScratch cache (length water1)) as [delta cache'].
    cbn [fst] in Hlen, Hzero. cbn [fst water set_water size].
    rewrite flowPass_still.
    apply lossPass_of_nothing; auto.
    unfold water1. now rewrite cells_length. }
  assert (E0 : aget water' i0 = fround amount).
  { destruct (Hread i0 Hi0) as [-> _]. now rewrite cell_written by lia. }
  split; [exact E0|]. split.
  - intros k Hk N. destruct (Hread k Hk) as [-> _].
    rewrite cell_kept by congruence. now rewrite (zeros_read _ _ Hz) by lia.
  - intros Hr Hd. rewrite E0. unfold amount, tick.
    now rewrite (Math_max_right _ _ Hr), (tick_above_floor _ Hd).
Qed.

Lemma source_injection_on_float32_witness :
  cache_ok emptyScratch /\
  is_finite (dt (still (1 / 30))) = true /\
  aget (water (fst (stepWater emptyScratch spring (still (1 / 30)))))
       (toIndex (size spring) 0 0)
  = fround (fround (Math_max 0 1 * Math_max 0.0001 (1 / 30))).
Proof.
  assert (Hc : cache_ok emptyScratch) by (intros n a H; discriminate H).
  split; [exact Hc|]. split; [reflexivity|].
  apply (source_injection_on_float32 emptyScratch spring (still (1 / 30))
           (mkSource "source-1" 0 0 1 true) 0 0); try reflexivity.
  - exact Hc.
  - simpl; lia.
  - repeat constructor.
Defined.

(** *** Rounding, overflow and NaN at given inputs *)

(** Closed facts are settled by evaluation. *)
Ltac evaluate :=
  cbv zeta; repeat match goal with |- _ /\ _ => split end;
  vm_compute; reflexivity.

(** C1 as stated fails on the code.  The flat 2 x 2 world [reservoir]
    holds 1000 units in one cell, none of them negative, and has no
    source; one step with the flow-only parameters of the repository's
    mass test changes [totalWater] from 1000 to 1000.0000228881836, by
    more than the tolerance of 1e-5: each cell is rounded to float32 when
    it is stored. *)
Lemma float32_drift :
  let after := fst (stepWater emptyScratch reservoir flowOnly) in
  forallb (fun w => 0 <=? w) (water reservoir) = true /\
  sources reservoir = [] /\
  totalWater reservoir = 1000 /\
  totalWater after = 1000.0000228881836 /\
  (1e-5 <? abs (totalWater after - totalWater reservoir)) = true.
Proof. evaluate. Qed.

(** The same drift on the sample world of the exact reading: one
    flow-only step takes [pond] from 1.5 to 1.5000000596046448, a gain
    without a source. *)
Lemma pond_gains_by_rounding :
  let after := fst (stepWater emptyScratch pond flowOnly) in
  totalWater pond = 1.5 /\
  totalWater after = 1.5000000596046448 /\
  (totalWater pond <? totalWater after) = true.
Proof. evaluate. Qed.

(** C2 as stated fails on the code.  With the finite, non-negative
    parameters [torrent] (flow rate 1e308, tick 10) the potentials
    overflow and one step from [pond] leaves [NaN] in three cells; with
    the parameters of the application, a cell of unbounded depth (it is
    not negative) turns [NaN] through [Infinity * 0].  [NaN >= 0] is
    false. *)
Lemma overflow_gives_NaN :
  forallb (fun w => 0 <=? w) (water pond) = true /\
  forallb (fun w => 0 <=? w) (water flooded) = true /\
  forallb (fun p => is_finite p && (0 <=? p))
          [dt torrent; flowRate torrent; damping torrent; evaporation torrent]
  = true /\
  water (fst (stepWater emptyScratch pond torrent)) = [nan; 0; nan; nan] /\
  (0 <=? aget (water (fst (stepWater emptyScratch pond torrent))) 0) = false /\
  (0 <=? aget (water (fst (stepWater emptyScratch flooded simParams))) 0)
  = false.
Proof. evaluate. Qed.

(** C5 as stated fails on the code, in two ways.  A tick below the floor
    of 0.0001 s is raised to it: with a tick of 0.00005 s the source cell
    of [spring] does not hold [1 * 0.00005].  And the cell is a float32:
    with the tick 1/30 it holds 0.033333335071802139, the float32 next to
    1/30, not the double [1 * (1 / 30)]. *)
Lemma source_cell_is_rounded :
  let short := aget (water (fst (stepWater emptyScratch spring (still 0.00005)))) 0 in
  let frame := aget (water (fst (stepWater emptyScratch spring (still (1 / 30))))) 0 in
  short = fround (1 * 0.0001) /\ (short =? 1 * 0.00005) = false /\
  frame = fround (1 * (1 / 30)) /\ frame = 0.033333335071802139 /\
  (frame =? 1 * (1 / 30)) = false.
Proof. evaluate. Qed.

(** C6 as stated fails on the code, in two ways.  A target outside the
    height bounds is never reached: at height 24 a flatten stroke towards
    30 is clamped back to 24.  And the terrain is float32: from height 10
    a stroke of full strength towards 3.3 lands on 3.2999999523162842,
    below the target it came down to, and the next stroke leaves it
    there; at strength 0.27 the height stops at 3.3000004291534424, short
    of the target. *)
Lemma flatten_on_float32 :
  let h k s t h0 := aget (terrain (strokes k (cell h0 0) 0 0 (mkBrush 1 s t))) 0 in
  h 1%nat 0.5 30 24 = 24 /\
  (3.3 <? h 0%nat 1 3.3 10) = true /\
  h 1%nat 1 3.3 10 = 3.2999999523162842 /\
  (h 1%nat 1 3.3 10 <? 3.3) = true /\
  h 2%nat 1 3.3 10 = h 1%nat 1 3.3 10 /\
  h 60%nat 0.27 3.3 10 = 3.3000004291534424 /\
  h 61%nat 0.27 3.3 10 = h 60%nat 0.27 3.3 10 /\
  (h 60%nat 0.27 3.3 10 =? 3.3) = false.
Proof. evaluate. Qed.

(** In doubles the day phase reaches 1: at the time -420.0000000000001
    the phase before wrapping is -5.55e-17 and [phase - floor(phase)]
    rounds to 1; the simulated hour there is 0, not 24 times the phase.
    A day later the phase differs in the last place. *)
Lemma day_phase_reaches_one :
  getSimulatedDayPhase (-420.0000000000001) = 1 /\
  getSimulatedHour (-420.0000000000001) = 0 /\
  getSimulatedDayPhase 0 = 0.29166666666666669 /\
  getSimulatedDayPhase (0 + DAY_CYCLE_SECONDS) = 0.29166666666666674.
Proof. evaluate. Qed.

(** In doubles the wrapped values of a climate state reach the upper ends
    of their ranges: a day phase or a wind direction of -1e-17 wraps to
    exactly 1 and to exactly [TAU], whatever [Math.sin] returns. *)
Lemma wrapped_values_reach_the_end (Math_sin : float -> float) :
  let c := createClimateState Math_sin 0 0 (-1e-17) None
                              (Some (mkWind 0.5 (-1e-17) 0.5)) in
  dayPhase c = 1 /\ windDirection c = TAU.
Proof. evaluate. Qed.

(** On float32 cells the rain of one tick is rounded with the cell: at
    full rain and the tick 1/60 of the application a cell of depth 64
    gains nothing, a cell of depth 16 gains 1.9073486328125e-6 and a cell
    of depth 4 gains 9.5367431640625e-7, outside the bounds
    [0.72, 1.17] * 1 * (1 / 60) * 0.00008 of exact arithmetic. *)
Lemma rain_is_rounded_with_the_cell :
  let gain d := aget (water (applyRainfall (cell 0 d) 1 (1 / 60))) 0 - d in
  gain 64 = 0 /\
  gain 16 = 1.9073486328125e-6 /\
  (1.17 * (1 * (1 / 60) * 0.00008) <? gain 16) = true /\
  gain 4 = 9.5367431640625e-7 /\
  (gain 4 <? 0.72 * (1 * (1 / 60) * 0.00008)) = true.
Proof. evaluate. Qed.

End MachineFacts.
